(** * BSpline: dense polynomials, root solver and NURBS sampling

    A shallow embedding of [include/Poly.h] (class template [Poly<T>] and the
    free functions around it) and of [NURBS<T>] (construction, sampling and
    the two analytic integrals), with the properties of the specification
    proved against it.

    Conventions of the embedding.
    - The template parameter [T] is a type with the operations the header
      uses on it ([Scalar]); the algebraic laws of an exact scalar type are
      hypotheses of the theorems that need them, and what fails without them
      is shown on [double].
    - [std::vector<T>] is [list T]. [operator[]] does no bounds check in the
      source, an access outside the vector is undefined behaviour: here every
      access is checked and an access out of range ends the computation with
      [OutOfRange].
    - [size_t] and [int] values are [Z]. An unsigned subtraction or a
      conversion that can go below zero wraps around ([to_size_t]); sums of
      degrees and loop counters stay far below [2^64] for every vector that
      fits in memory and are not reduced.
    - [throw std::logic_error(msg)] is [Throw msg].
    - The functions of [tools.h] and [integral.h] that the curve code calls
      are not among the sources: they are parameters ([Tools],
      [IntegralTools]). *)

From Stdlib Require Import ZArith QArith Qabs Qcanon Lia String Field.
From Stdlib Require Import Floats Uint63.
From stdpp Require Import base tactics list list_numbers.

Local Open Scope Z_scope.

(** ** Outcomes of a computation *)

Inductive outcome (A : Type) : Type :=
| Ok (a : A)
| Throw (msg : string)
| OutOfRange
| OutOfFuel.

Arguments Ok {A} a.
Arguments Throw {A} msg.
Arguments OutOfRange {A}.
Arguments OutOfFuel {A}.

Definition bind {A B} (m : outcome A) (k : A -> outcome B) : outcome B :=
  match m with
  | Ok a => k a
  | Throw msg => Throw msg
  | OutOfRange => OutOfRange
  | OutOfFuel => OutOfFuel
  end.

Declare Scope outcome_scope.
Delimit Scope outcome_scope with outcome.
Notation "x <- m ;; k" := (bind m (fun x => k))
  (at level 100, m at next level, right associativity) : outcome_scope.
Local Open Scope outcome_scope.

Definition is_throw {A} (m : outcome A) : bool :=
  match m with Throw _ => true | _ => false end.

(** ** Machine integers *)

(** Conversion to [size_t] of a value in [[-2^64, 2^64)]: a negative value
    wraps around. *)
Definition to_size_t (z : Z) : Z := if z <? 0 then z + 2 ^ 64 else z.

(** Conversion of a [size_t] to [int]. *)
Definition to_int (z : Z) : Z := (z + 2 ^ 31) mod 2 ^ 32 - 2 ^ 31.

(** ** Vectors *)

(** [v[i]] read. *)
Definition vget {A} (v : list A) (i : Z) : outcome A :=
  if (0 <=? i) && (i <? Z.of_nat (length v))
  then match v !! Z.to_nat i with Some x => Ok x | None => OutOfRange end
  else OutOfRange.

(** [v[i] = f(v[i])], which covers [v[i] = x], [v[i] += x] and [v[i] -= x]. *)
Definition vupd {A} (v : list A) (i : Z) (f : A -> A) : outcome (list A) :=
  if (0 <=? i) && (i <? Z.of_nat (length v))
  then Ok (alter f (Z.to_nat i) v)
  else OutOfRange.

Definition vset {A} (v : list A) (i : Z) (x : A) : outcome (list A) :=
  vupd v i (fun _ => x).

(** ** Loops *)

Fixpoint for_steps {St} (n : nat) (i : Z) (body : Z -> St -> outcome St) (s : St)
  : outcome St :=
  match n with
  | O => Ok s
  | S n' => s' <- body i s ;; for_steps n' (i + 1) body s'
  end.

(** [for (i = lo; i < hi; ++i) body]. *)
Definition for_loop {St} (lo hi : Z) (body : Z -> St -> outcome St) (s : St)
  : outcome St :=
  for_steps (Z.to_nat (hi - lo)) lo body s.

(** [while (cond) body], with the number of iterations bounded by [fuel]. *)
Fixpoint while_loop {St} (fuel : nat) (cond : St -> outcome bool)
    (body : St -> outcome St) (s : St) : outcome St :=
  match fuel with
  | O => OutOfFuel
  | S fuel' =>
      b <- cond s ;;
      if b then s' <- body s ;; while_loop fuel' cond body s' else Ok s
  end.

(** ** The scalar type [T] *)

Class Scalar (T : Type) : Type := {
  s_zero : T;
  s_one : T;
  s_add : T -> T -> T;
  s_sub : T -> T -> T;
  s_mul : T -> T -> T;
  s_div : T -> T -> T;
  s_opp : T -> T;
  s_eqb : T -> T -> bool;
  (** the conversion [T(n)] of an integer *)
  s_of_Z : Z -> T
}.

Declare Scope scalar_scope.
Delimit Scope scalar_scope with S.
Infix "+" := s_add : scalar_scope.
Infix "-" := s_sub : scalar_scope.
Infix "*" := s_mul : scalar_scope.
Infix "/" := s_div : scalar_scope.
Notation "- x" := (s_opp x) : scalar_scope.
Notation "0" := s_zero : scalar_scope.
Notation "1" := s_one : scalar_scope.

(** ** The class [Poly<T>] *)

Record Poly (T : Type) : Type := mkPoly {
  (** [x^3 + 2x^2 + x + 5 := [1, 2, 1, 5]] *)
  coef_ : list T;
  deg_ : Z
}.

Arguments mkPoly {T} coef_ deg_.
Arguments coef_ {T} p.
Arguments deg_ {T} p.

Section PolyOps.
Context {T : Type} `{Scalar T}.

(** *** Constructors *)

(** [Poly()] *)
Definition Poly_default : Poly T := mkPoly [0%S] 0.

(** [Poly(std::vector<T> coef)] and [Poly(const std::initializer_list<T>&)]:
    [deg_ = coef_.size() - 1], an unsigned subtraction. *)
Definition Poly_of_vector (coef : list T) : Poly T :=
  mkPoly coef (to_size_t (Z.of_nat (length coef) - 1)).

(** [Poly(T value)] *)
Definition Poly_of_value (value : T) : Poly T := mkPoly [value] 0.

(** [Poly(size_t deg, T value)]: [deg_(deg), coef_(deg + 1, value)]. The
    size [deg + 1] is not reduced: this is the constructor for every
    degree below [2^64 - 1], which the degrees passed inside the header
    are; at [deg = 2^64 - 1] the size wraps around to 0 in the source. *)
Definition Poly_fill (deg : Z) (value : T) : Poly T :=
  mkPoly (replicate (Z.to_nat (deg + 1)) value) deg.

Definition deg (p : Poly T) : Z := deg_ p.
Definition GetCoef (p : Poly T) : list T := coef_ p.

(** [operator[]], read and write *)
Definition pget (p : Poly T) (i : Z) : outcome T := vget (coef_ p) i.
Definition pupd (p : Poly T) (i : Z) (f : T -> T) : outcome (Poly T) :=
  c <- vupd (coef_ p) i f ;; Ok (mkPoly c (deg_ p)).
Definition pset (p : Poly T) (i : Z) (x : T) : outcome (Poly T) :=
  pupd p i (fun _ => x).

(** [T normalize()]: the polynomial after the call and the value returned *)
Definition normalize (p : Poly T) : outcome (Poly T * T) :=
  a0 <- vget (coef_ p) 0 ;;
  if negb (s_eqb a0 0%S)
  then Ok (mkPoly ((fun c => c / a0)%S <$> coef_ p) (deg_ p), a0)
  else Ok (p, a0).

(** [void Clear()] *)
Definition Clear (p : Poly T) : Poly T := mkPoly [0%S] 0.

(** [Poly antider() const] *)
Definition antider (p : Poly T) : outcome (Poly T) :=
  if deg p =? 0
  then c0 <- vget (coef_ p) 0 ;; Ok (Poly_of_vector [c0; 0%S])
  else
    tmp <- for_loop 0 (deg_ p + 1)
             (fun i tmp =>
                c <- vget (coef_ p) i ;;
                vset tmp i (c / s_of_Z (deg_ p - i + 1))%S)
             (replicate (Z.to_nat (deg_ p + 2)) 0%S) ;;
    Ok (Poly_of_vector tmp).

(** [Poly der() const] *)
Definition der (p : Poly T) : outcome (Poly T) :=
  if deg p =? 0 then Ok (Poly_of_vector [0%S])
  else if deg p =? 1
  then c0 <- vget (coef_ p) 0 ;; Ok (Poly_of_vector [c0])
  else
    tmp <- for_loop 0 (deg_ p)
             (fun i tmp =>
                c <- vget (coef_ p) i ;;
                vset tmp i (c * s_of_Z (deg_ p - i))%S)
             (replicate (Z.to_nat (deg_ p)) 0%S) ;;
    Ok (Poly_of_vector tmp).

(** [T At(const T& x) const]: Horner *)
Definition At (p : Poly T) (x : T) : outcome T :=
  b <- vget (coef_ p) 0 ;;
  for_loop 1 (deg_ p + 1)
    (fun d b => c <- vget (coef_ p) d ;; Ok (c + b * x)%S) b.

(** [T eval(const T& x) const] *)
Definition eval (p : Poly T) (x : T) : outcome T :=
  if deg_ p =? 0 then vget (coef_ p) 0
  else Ok (fst (fold_left (fun '(sum, t) c => ((sum + t * c)%S, (t * x)%S))
                          (rev (coef_ p)) (0%S, 1%S))).

(** [T integral(T from, T to) const] *)
Definition integral (p : Poly T) (from to : T) : outcome T :=
  a <- antider p ;;
  hi <- At a to ;;
  lo <- At a from ;;
  Ok (hi - lo)%S.

(** [operator*(const Poly&, const Poly&)] *)
Definition poly_mul (p1 p2 : Poly T) : outcome (Poly T) :=
  let lhs_deg := deg p1 in
  let rhs_deg := deg p2 in
  for_loop 0 (lhs_deg + 1)
    (fun i res =>
       for_loop 0 (rhs_deg + 1)
         (fun j res =>
            a <- pget p1 i ;;
            b <- pget p2 j ;;
            pupd res (i + j) (fun r => r + a * b)%S)
         res)
    (Poly_fill (rhs_deg + lhs_deg) 0%S).

(** [operator*=(T rhs)] *)
Definition mul_assign_scalar (p : Poly T) (rhs : T) : outcome (Poly T) :=
  c <- for_loop 0 (deg_ p + 1)
         (fun i c => vupd c i (fun x => x * rhs)%S) (coef_ p) ;;
  Ok (mkPoly c (deg_ p)).

(** [operator+=(const T& rhs)] *)
Definition add_assign_scalar (p : Poly T) (rhs : T) : outcome (Poly T) :=
  pupd p (deg_ p) (fun x => x + rhs)%S.

(** [operator/=(T value)] *)
Definition div_assign_scalar (p : Poly T) (value : T) : outcome (Poly T) :=
  c <- for_loop 0 (deg_ p + 1)
         (fun i c => x <- vget c i ;; vset c i (x / value)%S) (coef_ p) ;;
  Ok (mkPoly c (deg_ p)).

(** unary [operator-(const Poly&)] *)
Definition poly_neg (poly : Poly T) : outcome (Poly T) :=
  for_loop 0 (deg poly + 1)
    (fun i temp => x <- pget poly i ;; pset temp i (- x)%S) poly.

(** [plus(const Poly& lhs, const Poly& rhs)] *)
Definition plus (lhs rhs : Poly T) : outcome (Poly T) :=
  let deg_lhs := deg lhs in
  let deg_rhs := deg rhs in
  for_loop 0 (deg_rhs + 1)
    (fun i temp =>
       x <- pget rhs (to_size_t (deg_rhs - i)) ;;
       pupd temp (to_size_t (deg_lhs - i)) (fun t => t + x)%S)
    lhs.

(** [operator+(const Poly&, const Poly&)] *)
Definition poly_add (p1 p2 : Poly T) : outcome (Poly T) :=
  if deg p2 <=? deg p1 then plus p1 p2 else plus p2 p1.

(** binary [operator-(const Poly&, const Poly&)] *)
Definition poly_sub (lhs rhs : Poly T) : outcome (Poly T) :=
  n <- poly_neg rhs ;; poly_add lhs n.

(** [operator*(const Poly& p, T value)] *)
Definition poly_scale (p : Poly T) (value : T) : outcome (Poly T) :=
  if s_eqb value 0%S then Ok (Poly_of_vector [0%S])
  else
    for_loop 0 (deg p + 1)
      (fun i ans => x <- pget p i ;; pset ans i (x * value)%S)
      (Poly_fill (deg p) 0%S).

(** [operator*(T value, const Poly& p)] *)
Definition scale_poly (value : T) (p : Poly T) : outcome (Poly T) :=
  poly_scale p value.

(** [operator/(const Poly& p, const T& value)] *)
Definition poly_div_scalar (p : Poly T) (value : T) : outcome (Poly T) :=
  for_loop 0 (deg p + 1)
    (fun i ans => x <- pget p i ;; pset ans i (x / value)%S)
    (Poly_fill (deg p) 0%S).

(** [void update()]: the leading exact zeros are dropped. The loop reads
    [coef_[i]] before it tests [i < deg_]; every iteration that continues
    has read one more element, so [length coef_ + 1] tests are enough. *)
Definition update (p : Poly T) : outcome (Poly T) :=
  i <- while_loop (S (length (coef_ p)))
         (fun i => c <- vget (coef_ p) i ;; Ok (s_eqb c 0%S && (i <? deg_ p)))
         (fun i => Ok (i + 1))
         0 ;;
  if i =? deg_ p + 1
  then Ok (mkPoly [0%S] 0)
  else if i <=? Z.of_nat (length (coef_ p))
       then Ok (mkPoly (drop (Z.to_nat i) (coef_ p)) (to_size_t (deg_ p - i)))
       else OutOfRange.

(** [std::vector<Poly<T>> operator/(const Poly& lhs, const Poly& rhs)]:
    the pair (quotient, remainder). [divmod_inner] is the loop on [j],
    [divmod_step] the body of the loop on [i], on the pair of [rem] and
    [res]. *)
Definition divmod_inner (rhs : Poly T) (a_i : T) (i : Z) (rem : Poly T)
  : outcome (Poly T) :=
  for_loop 1 (deg rhs + 1)
    (fun j rem =>
       rj <- pget rhs j ;;
       r0 <- pget rhs 0 ;;
       pupd rem (i + j) (fun r => r - rj * a_i / r0)%S)
    rem.

Definition divmod_step (rhs : Poly T) (i : Z) (st : Poly T * list T)
  : outcome (Poly T * list T) :=
  let '(rem, res) := st in
  a_i <- pget rem i ;;
  rem <- pset rem i 0%S ;;
  r0 <- pget rhs 0 ;;
  let res := res ++ [(a_i / r0)%S] in
  rem <- divmod_inner rhs a_i i rem ;;
  Ok (rem, res).

Definition poly_divmod (lhs rhs : Poly T) : outcome (Poly T * Poly T) :=
  let deg1 := deg lhs in
  let deg2 := deg rhs in
  if deg1 <? deg2
  then Throw "deg lhs poly < deg rhs poly. Operator /"
  else
    st <- for_loop 0 (to_size_t (deg1 - deg2) + 1) (divmod_step rhs)
            (lhs, []) ;;
    rem <- update (fst st) ;;
    Ok (Poly_of_vector (snd st), rem).

(** [operator/=(const Poly& poly)] *)
Definition div_assign (p poly : Poly T) : outcome (Poly T) :=
  qr <- poly_divmod p poly ;; Ok (fst qr).

(** [operator*=(const Poly&)], [operator+=(const Poly&)] and
    [operator-=(const Poly&)] *)
Definition mul_assign (p rhs : Poly T) : outcome (Poly T) := poly_mul p rhs.
Definition add_assign (p rhs : Poly T) : outcome (Poly T) := poly_add p rhs.
Definition sub_assign (p rhs : Poly T) : outcome (Poly T) := poly_sub p rhs.

(** [void resize(int deg)]: [temp] is [deg_] converted to [int]; the new
    vector is built from the iterator range [begin() + (temp - deg), end()),
    which is a valid range only for [0 <= temp - deg <= size()]. *)
Definition resize (p : Poly T) (deg : Z) : outcome (Poly T) :=
  let temp := to_int (deg_ p) in
  let k := temp - deg in
  if (0 <=? k) && (k <=? Z.of_nat (length (coef_ p)))
  then Ok (mkPoly (drop (Z.to_nat k) (coef_ p)) (to_size_t deg))
  else OutOfRange.

(** [operator==]: the coefficient vectors compare equal *)
Fixpoint coef_eqb (l1 l2 : list T) : bool :=
  match l1, l2 with
  | [], [] => true
  | x :: l1', y :: l2' => s_eqb x y && coef_eqb l1' l2'
  | _, _ => false
  end.

Definition poly_eqb (p1 p2 : Poly T) : bool :=
  coef_eqb (GetCoef p1) (GetCoef p2).

(** [accumulate(std::vector<Poly<T>> polys)]: the product of the
    polynomials, [Poly<T>{0}] for no polynomial. *)
Definition accumulate (polys : list (Poly T)) : outcome (Poly T) :=
  if Z.of_nat (length polys) =? 0 then Ok (Poly_of_vector [0%S])
  else
    p0 <- vget polys 0 ;;
    for_loop 1 (Z.of_nat (length polys))
      (fun i res_poly => q <- vget polys i ;; mul_assign res_poly q)
      p0.

End PolyOps.

(** [std::fma] *)
Class Fma (T : Type) : Type := {
  s_fma : T -> T -> T -> T
}.

Section Compensated.
Context {T : Type} `{Scalar T} `{Fma T}.

(** [two_sum(t, a, b)] and [two_prod(t, a, b)]: the value returned and the
    error term written to [t]. *)
Definition two_sum (a b : T) : T * T :=
  let s := (a + b)%S in
  let bs := (s - a)%S in
  let as_ := (s - bs)%S in
  (s, ((b - bs) + (a - as_))%S).

Definition two_prod (a b : T) : T * T :=
  let p := (a * b)%S in
  (p, s_fma a b (- p)%S).

(** [T At2(const T& x) const]: compensated Horner, over every element of
    [coef_]. *)
Definition At2 (p : Poly T) (x : T) : T :=
  let '(s, c) :=
    fold_left
      (fun '(s, c) a =>
         let '(p, pi) := two_prod s x in
         let '(s, t) := two_sum p a in
         let c := (c * x)%S in
         let c := (c + (pi + t))%S in
         (s, c))
      (coef_ p) (0%S, 0%S) in
  (s + c)%S.

End Compensated.

(** ** Real and complex scalars

    The operations of [<cmath>] and [<complex>] that the root solver and the
    tolerance tests use. [r_of_Q] converts a decimal literal. *)

Class RealScalar (T : Type) : Type := {
  r_abs : T -> T;
  r_ltb : T -> T -> bool;
  r_leb : T -> T -> bool;
  r_of_Q : Q -> T;
  r_sqrt : T -> T;
  r_acos : T -> T;
  r_cos : T -> T;
  r_pow : T -> T -> T;
  (** [M_PI] *)
  r_pi : T
}.

(** [std::complex<T>] as a type [C] of its own *)
Class ComplexScalar (T C : Type) : Type := {
  (** [std::complex<T>(re)] *)
  c_of_real : T -> C;
  (** [std::complex<T>(re, im)] *)
  c_make : T -> T -> C;
  (** [std::abs] *)
  c_abs : C -> T;
  (** [std::sqrt] *)
  c_sqrt : C -> C;
  (** [operator*(const std::complex<T>&, const T&)] *)
  c_scale : C -> T -> C
}.

(** [Eigen::MatrixX<T>::eigenvalues()]; a matrix is the list of its rows. *)
Class EigenSolver (T C : Type) : Type := {
  eigenvalues : list (list T) -> list C
}.

Section PolyReal.
Context {T : Type} `{Scalar T} `{RealScalar T}.

(** [T EPS = 1e-15] *)
Definition EPS : T := r_of_Q (1 # 10 ^ 15).

(** [void update_real()]: as [update], with the test
    [std::abs(coef_[i]) < 1e-8]. *)
Definition update_real (p : Poly T) : outcome (Poly T) :=
  i <- while_loop (S (length (coef_ p)))
         (fun i =>
            c <- vget (coef_ p) i ;;
            Ok (r_ltb (r_abs c) (r_of_Q (1 # 10 ^ 8)) && (i <? deg_ p)))
         (fun i => Ok (i + 1))
         0 ;;
  if i =? deg_ p + 1
  then Ok (mkPoly [0%S] 0)
  else if i <=? Z.of_nat (length (coef_ p))
       then Ok (mkPoly (drop (Z.to_nat i) (coef_ p)) (to_size_t (deg_ p - i)))
       else OutOfRange.

(** [upper_bound] and [lower_bound] for [Poly<T>] *)
Definition upper_bound_real (poly : Poly T) : outcome T :=
  p1 <- pget poly 1 ;;
  p0 <- pget poly 0 ;;
  ub <- for_loop 2 (deg poly + 1)
          (fun i ub =>
             pi <- pget poly i ;;
             p0 <- pget poly 0 ;;
             if r_ltb ub (r_abs (pi / p0)%S)
             then Ok (r_abs (pi / p0)%S) else Ok ub)
          (r_abs (p1 / p0)%S) ;;
  Ok (s_of_Z 1 + ub)%S.

Definition lower_bound_real (poly : Poly T) : outcome T :=
  ub <- upper_bound_real poly ;; Ok (s_of_Z 1 / ub)%S.

End PolyReal.

(** ** Root solver *)

Section Solver.
Context {T C : Type}.
Context {ST : Scalar T} {RT : RealScalar T}.
Context {SC : Scalar C} {CT : ComplexScalar T C} {ET : EigenSolver T C}.

(** [std::vector<std::pair<int, std::complex<T>>>] *)
Definition roots : Type := list (Z * C).

Definition solve_quadratic (poly : Poly T) : outcome roots :=
  a <- pget poly 0 ;;
  b <- pget poly 1 ;;
  c <- pget poly 2 ;;
  let D := (b * b - s_of_Z 4 * a * c)%S in
  if r_ltb (r_abs D) EPS
  then Ok [(2, c_of_real (- b / s_of_Z 2 / a)%S)]
  else if r_ltb 0%S D
  then Ok [(1, c_of_real ((- b + r_sqrt D) / r_of_Q 2 / a)%S);
           (1, c_of_real ((- b - r_sqrt D) / r_of_Q 2 / a)%S)]
  else Ok [(1, c_make (- b / s_of_Z 2 / a)%S
                      (r_sqrt (- D) / s_of_Z 2 / a)%S);
           (1, c_make (- b / s_of_Z 2 / a)%S
                      (- r_sqrt (- D) / s_of_Z 2 / a)%S)].

Definition solve_cubic (poly : Poly T) : outcome roots :=
  p0 <- pget poly 0 ;;
  p1 <- pget poly 1 ;;
  p2 <- pget poly 2 ;;
  p3 <- pget poly 3 ;;
  let a := (p1 / p0)%S in
  let b := (p2 / p0)%S in
  let c := (p3 / p0)%S in
  let q := (a * a - r_of_Q 3 * b)%S in
  let r := (r_of_Q 2 * a * a * a - r_of_Q 9 * a * b + r_of_Q 27 * c)%S in
  let Q := (q / r_of_Q 9)%S in
  let R := (r / r_of_Q 54)%S in
  let Q3 := (Q * Q * Q)%S in
  let R2 := (R * R)%S in
  let CR2 := (s_of_Z 729 * r * r)%S in
  let CQ3 := (s_of_Z 2916 * q * q * q)%S in
  let sqrtQ := r_sqrt Q in
  if r_ltb (r_abs R) (r_of_Q (1 # 10 ^ 12))
     && r_ltb (r_abs Q) (r_of_Q (1 # 10 ^ 12))
  then Ok [(3, c_of_real (- a / r_of_Q 3)%S)]
  else if r_ltb (r_abs (CR2 - CQ3)%S) (r_of_Q (1 # 10 ^ 12))
  then
    if r_ltb 0%S R
    then Ok [(1, c_of_real (s_of_Z (-2) * sqrtQ - a / s_of_Z 3)%S);
             (2, c_of_real (sqrtQ - a / s_of_Z 3)%S)]
    else Ok [(2, c_of_real (- sqrtQ - a / s_of_Z 3)%S);
             (1, c_of_real (s_of_Z 2 * sqrtQ - a / s_of_Z 3)%S)]
  else if r_ltb R2 Q3
  then
    let sgnR := if r_leb 0%S R then r_of_Q 1 else r_of_Q (-1) in
    let ratio := (sgnR * r_sqrt (R2 / Q3))%S in
    let theta := r_acos ratio in
    let norm := (s_of_Z (-2) * r_sqrt Q)%S in
    let root1 := (norm * r_cos (theta / s_of_Z 3) - a / s_of_Z 3)%S in
    let root2 :=
      (norm * r_cos ((theta + r_of_Q 2 * r_pi) / s_of_Z 3) - a / s_of_Z 3)%S in
    let root3 :=
      (norm * r_cos ((theta - r_of_Q 2 * r_pi) / s_of_Z 3) - a / s_of_Z 3)%S in
    Ok [(1, c_of_real root1); (1, c_of_real root2); (1, c_of_real root3)]
  else
    let sgnR := if r_leb 0%S R then r_of_Q 1 else r_of_Q (-1) in
    let A := (- sgnR * r_pow (r_abs R + r_sqrt (R2 - Q3)) (r_of_Q (1 # 3)))%S in
    let B := (Q / A)%S in
    let root := (A + B - a / r_of_Q 3)%S in
    qr <- poly_divmod poly (Poly_of_vector [r_of_Q 1; (- root)%S]) ;;
    res <- solve_quadratic (fst qr) ;;
    Ok (res ++ [(1, c_of_real root)]).

(** [upper_bound] and [lower_bound] for [Poly<std::complex<T>>] *)
Definition upper_bound (poly : Poly C) : outcome T :=
  p1 <- pget poly 1 ;;
  p0 <- pget poly 0 ;;
  ub <- for_loop 2 (deg poly + 1)
          (fun i ub =>
             pi <- pget poly i ;;
             p0 <- pget poly 0 ;;
             if r_ltb ub (c_abs (pi / p0)%S)
             then Ok (c_abs (pi / p0)%S) else Ok ub)
          (c_abs (p1 / p0)%S) ;;
  Ok (s_of_Z 1 + ub)%S.

Definition lower_bound (poly : Poly C) : outcome T :=
  ub <- upper_bound poly ;; Ok (s_of_Z 1 / ub)%S.

(** The companion matrix of [solve_with_eigenvalues]: [m(i, j)] written
    with a bounds check. *)
Definition mset (m : list (list T)) (i j : Z) (x : T)
  : outcome (list (list T)) :=
  row <- vget m i ;;
  row <- vset row j x ;;
  vset m i row.

Definition solve_with_eigenvalues (poly : Poly T) : outcome roots :=
  p0 <- pget poly 0 ;;
  poly <- (if negb (s_eqb p0 (r_of_Q 1))
           then pa <- normalize poly ;; Ok (fst pa)
           else Ok poly) ;;
  let n := deg poly in
  let m0 := replicate (Z.to_nat n) (replicate (Z.to_nat n) 0%S) in
  m <- for_loop 1 (n + 1)
         (fun i m =>
            c <- pget poly (to_size_t (n - i + 1)) ;;
            mset m (i - 1) (n - 1) (- c)%S)
         m0 ;;
  m <- for_loop 0 (to_size_t (n - 1))
         (fun i m => mset m (i + 1) i (r_of_Q 1))
         m ;;
  Ok ((fun r => (1, if r_ltb (c_abs r) EPS then 0%S else r))
        <$> eigenvalues m).

(** The bound of the inner loop, [k < 1000]. *)
Definition laguerre_cap : nat := 1000.
Global Opaque laguerre_cap.

(** The inner loop of [solve_laguerre]: the iterate [x] and the counter
    [k] when the loop is left, by a [break] or with [k] at its bound. *)
Fixpoint laguerre_steps (n : nat) (p p1 p11 : Poly C) (deg : Z) (eps : T)
    (k : Z) (x : C) : outcome (C * Z) :=
  match n with
  | O => Ok (x, k)
  | S n' =>
      px <- eval p x ;;
      if r_ltb (c_abs px) eps then Ok (x, k)
      else
        p1x <- eval p1 x ;;
        p11x <- eval p11 x ;;
        let G := (p1x / px)%S in
        let H := (G * G - p11x / px)%S in
        let d1 :=
          (G + c_sqrt (s_of_Z (deg - 1) * (s_of_Z deg * H - G * G)))%S in
        let d2 :=
          (G - c_sqrt (s_of_Z (deg - 1) * (s_of_Z deg * H - G * G)))%S in
        let a :=
          (s_of_Z deg / (if r_ltb (c_abs d2) (c_abs d1) then d1 else d2))%S in
        if r_ltb (c_abs a) eps then Ok (x, k)
        else laguerre_steps n' p p1 p11 deg eps (k + 1) (x - a)%S
  end.

(** One turn of the outer loop [while (d < deg)]: the deflated polynomial,
    the root pushed, and the value of [k] that the inner loop left. *)
Definition laguerre_root (p : Poly C) (deg : Z) (eps : T)
  : outcome (Poly C * (Z * C) * Z) :=
  let m := 1 in
  lb <- lower_bound p ;;
  let x := c_of_real lb in
  p1 <- der p ;;
  p11 <- der p1 ;;
  xk <- laguerre_steps laguerre_cap p p1 p11 deg eps 0 x ;;
  let x := fst xk in
  X <- pset (Poly_of_vector [s_of_Z 1; s_of_Z 0]) 1 (- x)%S ;;
  p <- div_assign p X ;;
  Ok (p, (m, x), snd xk).

(** [solve_laguerre]. The first loop has no bound of its own: it reads
    [poly[deg - k]] for [k = 0, 1, ...] and an access out of range ends it,
    so [length coef_ + 1] tests are enough. *)
Definition solve_laguerre (poly : Poly T) : outcome roots :=
  let deg0 := deg poly in
  let eps := r_of_Q (1 # 10 ^ 12) in
  k <- while_loop (S (length (coef_ poly)))
         (fun k =>
            c <- pget poly (to_size_t (deg0 - k)) ;;
            Ok (r_ltb (r_abs c) (r_of_Q (1 # 10 ^ 16))))
         (fun k => Ok (k + 1))
         0 ;;
  let res := if negb (k =? 0) then [(k, 0%S)] else [] in
  let p := Poly_fill (to_size_t (deg0 - k)) 0%S in
  let deg := deg p in
  p <- for_loop 0 (deg + 1)
         (fun i p => c <- pget poly i ;; pset p i (c_of_real c))
         p ;;
  st <- for_loop 0 deg
          (fun d '(p, res) =>
             r <- laguerre_root p deg eps ;;
             Ok (fst (fst r), res ++ [snd (fst r)]))
          (p, res) ;;
  Ok (snd st).

Definition solve_numerical (poly : Poly T) (type : Z) : outcome roots :=
  if type =? 1 then solve_with_eigenvalues poly else solve_laguerre poly.

(** [Poly<T>::solve(int type = 1)] *)
Definition solve (p : Poly T) (type : Z) : outcome roots :=
  if deg_ p =? 1
  then c1 <- vget (coef_ p) 1 ;;
       c0 <- vget (coef_ p) 0 ;;
       Ok [(1, c_of_real (- c1 / c0)%S)]
  else if deg_ p =? 2 then solve_quadratic p
  else if deg_ p =? 3 then solve_cubic p
  else if 4 <=? deg_ p then solve_numerical p type
  else Ok [(1, s_of_Z 0)].

(** [make_complex_poly(const Poly<T>& poly)] *)
Definition make_complex_poly (poly : Poly T) : outcome (Poly C) :=
  let deg := to_int (deg poly) in
  for_loop 0 (deg + 1)
    (fun i p => c <- pget poly i ;; pset p i (c_of_real c))
    (Poly_fill (to_size_t deg) 0%S).

(** Sum of the multiplicities of a root list *)
Definition multiplicity_sum (rs : roots) : Z :=
  fold_right (fun r acc => fst r + acc) 0 rs.

End Solver.

(** ** NURBS curves

    [Point<X>] is an indexable tuple of [X] ([Point.h]): a list, read and
    written with a bounds check. [Rational<T>] is the pair of the numerator
    polynomials, one per coordinate, and the shared denominator. *)

Definition Rational (T : Type) : Type := (list (Poly T) * Poly T)%type.

Record NURBS (T : Type) : Type := mkNURBS {
  nurbs_p : Z;
  nurbs_dim : Z;
  N_segments : Z;
  knots : list T;
  weights : list T;
  cv : list (list T);
  domain : Z * Z;
  (** indexes of knots *)
  ks : list Z;
  coefs : list (Rational T)
}.

Arguments mkNURBS {T}.
Arguments nurbs_p {T}.
Arguments nurbs_dim {T}.
Arguments N_segments {T}.
Arguments knots {T}.
Arguments weights {T}.
Arguments cv {T}.
Arguments domain {T}.
Arguments ks {T}.
Arguments coefs {T}.

(** [linspace(from, to, N)] of [tools.h] *)
Class Tools (T : Type) : Type := {
  linspace : T -> T -> Z -> list T
}.

Section Curve.
Context {T : Type} {ST : Scalar T} {RT : RealScalar T} {TT : Tools T}.

(** [de_boor_nurbs(k, knots, weights, points, p)] *)
Definition blend (dj dj1 : Poly T) (B D den : T) : outcome (Poly T) :=
  m1 <- poly_mul dj (Poly_of_vector [s_of_Z 1; s_of_Z 0]) ;;
  b1 <- scale_poly B dj ;;
  temp1 <- poly_add m1 b1 ;;
  m2 <- poly_mul dj1 (Poly_of_vector [s_of_Z (-1); s_of_Z 0]) ;;
  b2 <- scale_poly D dj1 ;;
  temp2 <- poly_add m2 b2 ;;
  s <- poly_add temp1 temp2 ;;
  poly_div_scalar s den.

Definition de_boor_nurbs (k : Z) (knots weights : list T)
    (points : list (list T)) (p : Z) : outcome (Rational T) :=
  pt0 <- vget points 0 ;;
  let dim := Z.of_nat (length pt0) in
  let d0 := replicate (Z.to_nat (p + 1))
              (replicate (Z.to_nat dim) (@Poly_default T _)) in
  let d_den0 := replicate (Z.to_nat (p + 1)) (@Poly_default T _) in
  st <- for_loop 0 (p + 1)
          (fun i '(d, d_den) =>
             w <- vget weights (i + k - p) ;;
             di <- vget d_den i ;;
             di <- pset di 0 w ;;
             d_den <- vset d_den i di ;;
             d <- for_loop 0 dim
                    (fun j d =>
                       pt <- vget points (i + k - p) ;;
                       x <- vget pt j ;;
                       w <- vget weights (i + k - p) ;;
                       row <- vget d i ;;
                       e <- vget row j ;;
                       e <- pset e 0 (x * w)%S ;;
                       row <- vset row j e ;;
                       vset d i row)
                    d ;;
             Ok (d, d_den))
          (d0, d_den0) ;;
  st <- for_loop 1 (p + 1)
          (fun r st =>
             for_steps (Z.to_nat (p - (r - 1))) 0
               (fun c '(d, d_den) =>
                  let j := p - c in
                  k1 <- vget knots (j + 1 + k - r) ;;
                  k0 <- vget knots (j + k - p) ;;
                  let den := (k1 - k0)%S in
                  let B := (- k0)%S in
                  let D := k1 in
                  dj <- vget d_den j ;;
                  dj1 <- vget d_den (j - 1) ;;
                  nd <- blend dj dj1 B D den ;;
                  d_den <- vset d_den j nd ;;
                  d <- for_loop 0 dim
                         (fun i d =>
                            rowj <- vget d j ;;
                            e <- vget rowj i ;;
                            rowj1 <- vget d (j - 1) ;;
                            e1 <- vget rowj1 i ;;
                            ne <- blend e e1 B D den ;;
                            rowj <- vset rowj i ne ;;
                            vset d j rowj)
                         d ;;
                  Ok (d, d_den))
               st)
          st ;;
  dp <- vget (fst st) p ;;
  dd <- vget (snd st) p ;;
  Ok (dp, dd).

(** [void create_coefs()] *)
Definition create_coefs (c : NURBS T) : outcome (NURBS T) :=
  cs <- for_loop 0 (N_segments c)
          (fun i cs =>
             ki <- vget (ks c) i ;;
             r <- de_boor_nurbs ki (knots c) (weights c) (cv c) (nurbs_p c) ;;
             Ok (cs ++ [r]))
          (coefs c) ;;
  Ok (mkNURBS (nurbs_p c) (nurbs_dim c) (N_segments c) (knots c) (weights c)
              (cv c) (domain c) (ks c) cs).

(** [void polishing(T eps_ = 1e-13)]. The header's [update_real] takes
    no argument and tests against its own tolerance; the call
    [update_real(eps_)] is read as that [update_real]. *)
Definition polishing (c : NURBS T) : outcome (NURBS T) :=
  cs <- for_loop 0 (Z.of_nat (length (coefs c)))
          (fun i cs =>
             frac <- vget cs i ;;
             den <- update_real (snd frac) ;;
             num <- for_loop 0 (nurbs_dim c)
                      (fun d num =>
                         e <- vget num d ;;
                         e <- update_real e ;;
                         vset num d e)
                      (fst frac) ;;
             vset cs i (num, den))
          (coefs c) ;;
  Ok (mkNURBS (nurbs_p c) (nurbs_dim c) (N_segments c) (knots c) (weights c)
              (cv c) (domain c) (ks c) cs).

(** [void polishing2()] *)
Definition polishing2 (c : NURBS T) : outcome (NURBS T) :=
  cs <- for_loop 0 (Z.of_nat (length (coefs c)))
          (fun i cs =>
             frac <- vget cs i ;;
             na <- normalize (snd frac) ;;
             let temp := snd na in
             num <- for_loop 0 (nurbs_dim c)
                      (fun d num =>
                         e <- vget num d ;;
                         e <- div_assign_scalar e temp ;;
                         vset num d e)
                      (fst frac) ;;
             vset cs i (num, fst na))
          (coefs c) ;;
  Ok (mkNURBS (nurbs_p c) (nurbs_dim c) (N_segments c) (knots c) (weights c)
              (cv c) (domain c) (ks c) cs).

(** [NURBS(int p_, knots_, weights_, cv_)]. [create_intervals] is a
    function of [tools.h]; its result, the indexes of the knots that bound
    the segments, is the argument [ks_]. *)
Definition NURBS_new (p_ : Z) (knots_ weights_ : list T)
    (cv_ : list (list T)) (ks_ : list Z) : outcome (NURBS T) :=
  cv0 <- vget cv_ 0 ;;
  let c := mkNURBS p_ (Z.of_nat (length cv0))
             (to_int (to_size_t (Z.of_nat (length ks_) - 1)))
             knots_ weights_ cv_
             (p_, to_int (to_size_t (Z.of_nat (length knots_) - p_ - 1)))
             ks_ [] in
  c <- create_coefs c ;;
  polishing c.

(** The state of the sampling loops: the points written so far, the
    current parameter [t] and the index [i] of the next sample. *)
Definition sampling (A : Type) : Type := (list A * T * Z)%type.

(** [std::vector<Point<T>> get_points(int N)] *)
Definition get_points_loop (c : NURBS T) (N : Z)
  : outcome (sampling (list T)) :=
  let points := replicate (Z.to_nat N)
                  (replicate (Z.to_nat (nurbs_dim c)) 0%S) in
  a <- vget (knots c) (fst (domain c)) ;;
  b <- vget (knots c) (snd (domain c)) ;;
  let ts := linspace a b N in
  t <- vget (knots c) (fst (domain c)) ;;
  for_loop 0 (N_segments c)
    (fun j st =>
       while_loop (S (Z.to_nat N))
         (fun '(points, t, i) =>
            kj <- vget (ks c) (j + 1) ;;
            kn <- vget (knots c) kj ;;
            Ok (r_leb t kn && (i <? N)))
         (fun '(points, t, i) =>
            points <- for_loop 0 (nurbs_dim c)
                        (fun d points =>
                           seg <- vget (coefs c) j ;;
                           num <- vget (fst seg) d ;;
                           x <- At num t ;;
                           seg <- vget (coefs c) j ;;
                           y <- At (snd seg) t ;;
                           pt <- vget points i ;;
                           pt <- vset pt d (x / y)%S ;;
                           vset points i pt)
                        points ;;
            let i := i + 1 in
            t <- vget ts i ;;
            Ok (points, t, i))
         st)
    (points, t, 0).

Definition get_points (c : NURBS T) (N : Z) : outcome (list (list T)) :=
  st <- get_points_loop c N ;; Ok (fst (fst st)).

(** [std::vector<T> get_dy_dx_points(int N)] *)
Definition get_dy_dx_points_loop (c : NURBS T) (N : Z)
  : outcome (sampling T) :=
  let points := replicate (Z.to_nat N) (r_of_Q 0) in
  a <- vget (knots c) (fst (domain c)) ;;
  b <- vget (knots c) (snd (domain c)) ;;
  let ts := linspace a b N in
  t <- vget (knots c) (fst (domain c)) ;;
  for_loop 0 (N_segments c)
    (fun j st =>
       seg <- vget (coefs c) j ;;
       p_x <- vget (fst seg) 0 ;;
       seg <- vget (coefs c) j ;;
       p_y <- vget (fst seg) 1 ;;
       seg <- vget (coefs c) j ;;
       let den := snd seg in
       while_loop (S (Z.to_nat N))
         (fun '(points, t, i) =>
            kj <- vget (ks c) (j + 1) ;;
            kn <- vget (knots c) kj ;;
            Ok (r_leb t kn && (i <? N)))
         (fun '(points, t, i) =>
            dy <- der p_y ;;
            dyt <- At dy t ;;
            dent <- At den t ;;
            yt <- At p_y t ;;
            dden <- der den ;;
            ddent <- At dden t ;;
            dx <- der p_x ;;
            dxt <- At dx t ;;
            xt <- At p_x t ;;
            points <- vset points i
                        ((dyt * dent - yt * ddent)
                         / (dxt * dent - xt * ddent))%S ;;
            let i := i + 1 in
            t <- vget ts i ;;
            Ok (points, t, i))
         st)
    (points, t, 0).

Definition get_dy_dx_points (c : NURBS T) (N : Z) : outcome (list T) :=
  st <- get_dy_dx_points_loop c N ;; Ok (fst (fst st)).

End Curve.

(** The functions of [integral.h] that the analytic integrals call. The
    header is not among the sources: they are parameters here, with one name
    for each of the overloads of [integral]. *)
Class IntegralTools (T C : Type) : Type := {
  (** [integral(P, roots, from, to)] *)
  integral_frac : Poly T -> list C -> T -> T -> C;
  (** [integral(P, Q, roots, from, to)] *)
  integral_frac2 : Poly T -> Poly T -> list C -> T -> T -> C;
  (** [integral(P, roots, j, from, to)] *)
  integral_frac_at : Poly T -> list C -> Z -> T -> T -> C;
  (** [integral(P, Q, roots, j, from, to)] *)
  integral_frac2_at : Poly T -> Poly T -> list C -> Z -> T -> T -> C;
  (** [integral_type_1(a, root, k, from, to)] *)
  integral_type_1 : C -> C -> Z -> T -> T -> C;
  (** [frac_decomp_matrix(num, den, roots)] *)
  frac_decomp_matrix : Poly T -> Poly T -> list (Z * C) -> list C
}.

Section Integrals.
Context {T C : Type}.
Context {ST : Scalar T} {RT : RealScalar T}.
Context {SC : Scalar C} {CT : ComplexScalar T C} {ET : EigenSolver T C}.
Context {IT : IntegralTools T C}.

(** [std::complex<T> analytic_integral1(int type = 1, T t0 = 0.0,
    T t1 = 1.0)]. The state of the loop on the segments is the pair of
    sums and whether [break] has been taken. *)
Definition analytic_integral1 (c : NURBS T) (type : Z) (t0 t1 : T)
  : outcome C :=
  st <- for_loop 0 (N_segments c)
          (fun i (st : C * C * bool) =>
             let '(left_sum, right_sum, stop) := st in
             if stop then Ok (left_sum, right_sum, stop)
             else
               k0 <- vget (ks c) i ;;
               from <- vget (knots c) k0 ;;
               k1 <- vget (ks c) (i + 1) ;;
               to <- vget (knots c) k1 ;;
               if r_ltb t1 from then Ok (left_sum, right_sum, true)
               else if r_ltb to t0 then Ok (left_sum, right_sum, false)
               else
                 let from := if r_ltb from t0 then t0 else from in
                 let to := if r_ltb t1 to then t1 else to in
                 seg <- vget (coefs c) i ;;
                 let den := snd seg in
                 seg <- vget (coefs c) i ;;
                 p_x <- vget (fst seg) 0 ;;
                 seg <- vget (coefs c) i ;;
                 p_y <- vget (fst seg) 1 ;;
                 p_x_der <- der p_x ;;
                 roots <- solve (C := C) den type ;;
                 let n_roots := Z.of_nat (length roots) in
                 let vec_root : list C := snd <$> roots in
                 na <- normalize den ;;
                 let den := fst na in
                 let norm_den : C := c_of_real (snd na) in
                 let norm_den := (norm_den * norm_den)%S in
                 div1 <- poly_divmod p_y den ;;
                 div2 <- poly_divmod p_x_der den ;;
                 P_12 <- poly_mul (fst div1) (fst div2) ;;
                 v <- integral P_12 from to ;;
                 let temp_sum := (0 + c_of_real v / norm_den)%S in
                 m1 <- poly_mul (fst div1) (snd div2) ;;
                 m2 <- poly_mul (fst div2) (snd div1) ;;
                 num <- poly_add m1 m2 ;;
                 div3 <- poly_divmod num den ;;
                 v <- integral (fst div3) from to ;;
                 let temp_sum := (temp_sum + c_of_real v / norm_den)%S in
                 let temp_sum :=
                   (temp_sum
                    + integral_frac (snd div3) vec_root from to / norm_den)%S in
                 let temp_sum :=
                   (temp_sum
                    + integral_frac2 (snd div1) (snd div2) vec_root from to
                      / norm_den)%S in
                 let left_sum := (left_sum + temp_sum)%S in
                 div2 <- poly_divmod p_x den ;;
                 P_12 <- poly_mul (fst div1) (fst div2) ;;
                 P_12_complex <- make_complex_poly P_12 ;;
                 m1 <- poly_mul (fst div1) (snd div2) ;;
                 m2 <- poly_mul (fst div2) (snd div1) ;;
                 num <- poly_add m1 m2 ;;
                 div4 <- poly_divmod num den ;;
                 P4 <- make_complex_poly (fst div4) ;;
                 temp_sum <-
                   for_loop 0 n_roots
                     (fun j temp_sum =>
                        rj <- vget vec_root j ;;
                        let divider :=
                          Poly_of_vector [c_of_real (r_of_Q 1); (- rj)%S] in
                        div3_complex <- poly_divmod P_12_complex divider ;;
                        a <- pget (snd div3_complex) 0 ;;
                        let temp_sum :=
                          (temp_sum
                           + integral_type_1 a rj 1 from to / norm_den)%S in
                        v <- integral (fst div3_complex)
                               (c_of_real from) (c_of_real to) ;;
                        let temp_sum := (temp_sum + v / norm_den)%S in
                        div5 <- poly_divmod P4 divider ;;
                        v <- integral (fst div5)
                               (c_of_real from) (c_of_real to) ;;
                        let temp_sum := (temp_sum + v / norm_den)%S in
                        a <- pget (snd div5) 0 ;;
                        let temp_sum :=
                          (temp_sum
                           + integral_type_1 a rj 1 from to / norm_den)%S in
                        let temp_sum :=
                          (temp_sum
                           + integral_frac_at (snd div4) vec_root j from to
                             / norm_den)%S in
                        let temp_sum :=
                          (temp_sum
                           + integral_frac2_at (snd div1) (snd div2) vec_root
                               j from to / norm_den)%S in
                        Ok temp_sum)
                     0%S ;;
                 Ok (left_sum, (right_sum + temp_sum)%S, false))
          (0%S, 0%S, false) ;;
  Ok (fst (fst st) - snd (fst st))%S.

(** The last loops of [analytic_integral2]: one term on each side for
    every root and every power up to its multiplicity, [j] counting the
    terms. *)
Definition fraction_sums (roots : list (Z * C)) (res1 res2 : list C)
    (b1 b2 a0 : C) (from to : T) (left_sum right_sum : C)
  : outcome (C * C) :=
  st <- for_loop 0 (Z.of_nat (length roots))
          (fun r st =>
             root <- vget roots r ;;
             for_loop 1 (fst root + 1)
               (fun k (st : C * C * Z) =>
                  let '(left_sum, right_sum, j) := st in
                  x1 <- vget res1 j ;;
                  x2 <- vget res2 j ;;
                  Ok ((left_sum
                       + b1 / a0 * integral_type_1 x1 (snd root) k from to)%S,
                      (right_sum
                       + b2 / a0 * integral_type_1 x2 (snd root) k from to)%S,
                      j + 1))
               st)
          (left_sum, right_sum, 0) ;;
  Ok (fst (fst st), snd (fst st)).

(** One turn of the loop of [analytic_integral2] up to the partial
    fractions: the sums, the numerators, the cubed denominator, the roots
    with their multiplicities tripled and the leading coefficients. Each
    division is guarded by [num.deg() >= den.deg()]. *)
Definition integral2_reduce (c : NURBS T) (type : Z) (i : Z)
    (left_sum right_sum : C)
  : outcome (C * C * (Poly T * Poly T * Poly T) * list (Z * C)
             * (C * C * C) * (T * T)) :=
  k0 <- vget (ks c) i ;;
  from <- vget (knots c) k0 ;;
  k1 <- vget (ks c) (i + 1) ;;
  to <- vget (knots c) k1 ;;
  seg <- vget (coefs c) i ;;
  let den := snd seg in
  seg <- vget (coefs c) i ;;
  p_y <- vget (fst seg) 1 ;;
  seg <- vget (coefs c) i ;;
  p_x <- vget (fst seg) 0 ;;
  dx <- der p_x ;;
  m <- poly_mul dx den ;;
  num1 <- poly_mul p_y m ;;
  seg <- vget (coefs c) i ;;
  p_y <- vget (fst seg) 1 ;;
  n <- poly_neg p_y ;;
  dd <- der den ;;
  m <- poly_mul n dd ;;
  seg <- vget (coefs c) i ;;
  p_x <- vget (fst seg) 0 ;;
  num2 <- poly_mul m p_x ;;
  na <- normalize den ;;
  let den := fst na in
  let a0 : C := c_of_real (snd na) in
  roots <- solve (C := C) den type ;;
  dd <- poly_mul den den ;;
  den <- mul_assign den dd ;;
  let a0 := (a0 * (a0 * a0))%S in
  let roots := (fun root : Z * C => (fst root * 3, snd root)) <$> roots in
  nb <- normalize num1 ;;
  let num1 := fst nb in
  let b1 : C := c_of_real (snd nb) in
  nb <- normalize num2 ;;
  let num2 := fst nb in
  let b2 : C := c_of_real (snd nb) in
  ln <- (if deg den <=? deg num1
         then div <- poly_divmod num1 den ;;
              v <- integral (fst div) from to ;;
              Ok ((left_sum + c_scale (b1 / a0) v)%S, snd div)
         else Ok (left_sum, num1)) ;;
  rn <- (if deg den <=? deg num2
         then div <- poly_divmod num2 den ;;
              v <- integral (fst div) from to ;;
              Ok ((right_sum + c_scale (b2 / a0) v)%S, snd div)
         else Ok (right_sum, num2)) ;;
  Ok (fst ln, fst rn, (snd ln, snd rn, den), roots, (b1, b2, a0), (from, to)).

(** [std::complex<T> analytic_integral2(int type = 1)] *)
Definition analytic_integral2 (c : NURBS T) (type : Z) : outcome C :=
  st <- for_loop 0 (N_segments c)
          (fun i (st : C * C) =>
             let '(left_sum, right_sum) := st in
             red <- integral2_reduce c type i left_sum right_sum ;;
             let '(left_sum, right_sum, (num1, num2, den), roots,
                   (b1, b2, a0), (from, to)) := red in
             let res1 := frac_decomp_matrix num1 den roots in
             let res2 := frac_decomp_matrix num2 den roots in
             fraction_sums roots res1 res2 b1 b2 a0 from to
               left_sum right_sum)
          (0%S, 0%S) ;;
  Ok (fst st + snd st)%S.

End Integrals.

(** ** Vocabulary of the properties *)

Section Vocabulary.
Context {T : Type} `{Scalar T}.

(** The data-model invariant: the sequence is not empty and the cached
    degree is its length minus one. *)
Definition wf (p : Poly T) : Prop :=
  coef_ p <> [] /\ deg_ p = Z.of_nat (length (coef_ p)) - 1.

(** The coefficient at position [k], zero outside the sequence. *)
Definition at0 (l : list T) (k : nat) : T := default 0%S (l !! k).

(** The sum of [f i] over the [i < n] that satisfy [c], added in the
    order of [i]. *)
Fixpoint sum_if (n : nat) (c : nat -> bool) (f : nat -> T) : T :=
  match n with
  | O => 0%S
  | S n' => if c n' then (sum_if n' c f + f n')%S else sum_if n' c f
  end.

(** Position [k] of the product in [operator*]: the terms
    [p1[i] * p2[k - i]] with [k - i] inside [p2]. *)
Definition conv (A B : list T) (k : nat) : T :=
  sum_if (length A)
    (fun i => (i <=? k)%nat && (k - i <? length B)%nat)
    (fun i => (at0 A i * at0 B (k - i))%S).

(** [x] to the power [n], and the value at [x] of the polynomial with the
    coefficient sequence [l], highest power first. *)
Fixpoint s_pow (x : T) (n : nat) : T :=
  match n with
  | O => 1%S
  | S n' => (x * s_pow x n')%S
  end.

Fixpoint pval (l : list T) (x : T) : T :=
  match l with
  | [] => 0%S
  | c :: l' => (c * s_pow x (length l') + pval l' x)%S
  end.

(** Every coefficient is exactly zero. *)
Definition all_zero (l : list T) : Prop := Forall (fun c => c = 0%S) l.

(** What the scan of [update] and [update_real] leaves, for the test [t]
    of a coefficient: the coefficients from the first one that fails the
    test, or the last coefficient alone. *)
Definition trimmed (t : T -> bool) (p r : Poly T) : Prop :=
  exists n : nat,
    (n <= Z.to_nat (deg_ p))%nat /\
    coef_ r = drop n (coef_ p) /\ deg_ r = deg_ p - Z.of_nat n /\
    Forall (fun c => t c = true) (take n (coef_ p)) /\
    (deg_ r = 0 \/ t (at0 (coef_ r) 0) = false).

(** [n] well-formed polynomials, the one at position [j] of stored degree
    [g j]; [n] rows of [m] such polynomials. *)
Definition polys_ok (n : Z) (g : Z -> Z) (l : list (Poly T)) : Prop :=
  Z.of_nat (length l) = n /\
  forall (j : nat) q, l !! j = Some q -> wf q /\ deg_ q = g (Z.of_nat j).

Definition cells_ok (n m : Z) (G : Z -> Z -> Z) (d : list (list (Poly T)))
  : Prop :=
  Z.of_nat (length d) = n /\
  forall (j : nat) row, d !! j = Some row -> polys_ok m (G (Z.of_nat j)) row.

(** A segment of a curve of degree [p] in dimension [dim]: [dim]
    numerators and a denominator, well-formed and of stored degree at most
    [p]. *)
Definition segment_ok (p dim : Z) (seg : Rational T) : Prop :=
  Z.of_nat (length (fst seg)) = dim /\
  Forall (fun e => wf e /\ deg_ e <= p) (fst seg) /\
  wf (snd seg) /\ deg_ (snd seg) <= p.

(** Every coefficient of [e] divided by [a0], and a segment after
    [polishing2]: the numerators divided by the leading coefficient of the
    denominator, and the denominator divided by it unless it compares equal
    to zero. *)
Definition scaled_down (a0 : T) (e : Poly T) : Poly T :=
  mkPoly ((fun c => c / a0)%S <$> coef_ e) (deg_ e).

Definition polished2 (seg : Rational T) : Rational T :=
  let a0 := at0 (coef_ (snd seg)) 0 in
  (scaled_down a0 <$> fst seg,
   if s_eqb a0 0%S then snd seg else scaled_down a0 (snd seg)).

(** An operation completes, with a polynomial that satisfies the
    invariant. *)
Definition completes_wf (m : outcome (Poly T)) : Prop :=
  exists r, m = Ok r /\ wf r.

End Vocabulary.

(** The element of row [r] and column [j] of a matrix. *)
Definition entry {A : Type} (m : list (list A)) (r j : nat) : option A :=
  match m !! r with
  | Some row => row !! j
  | None => None
  end.

(** The companion matrix of the polynomial with the coefficient sequence
    [l], of degree [n = length l - 1], in the form that
    [solve_with_eigenvalues] builds: the opposites of the coefficients in the
    last column, [- l[n - r]] in row [r], and ones below the diagonal. *)
Definition companion {T : Type} `{Scalar T} `{RealScalar T} (l : list T)
  : list (list T) :=
  let n := (length l - 1)%nat in
  (fun r =>
     (fun j =>
        if (j =? n - 1)%nat then (- at0 l (n - r))%S
        else if (r =? j + 1)%nat then r_of_Q 1
        else 0%S) <$> seq 0 n) <$> seq 0 n.

Section Deflations.
Context {T C : Type}.
Context {ST : Scalar T} {RT : RealScalar T}.
Context {SC : Scalar C} {CT : ComplexScalar T C}.



End Deflations.

(** A square matrix of size [n], as a list of rows. *)
Definition square {T : Type} (n : Z) (m : list (list T)) : Prop :=
  Z.of_nat (length m) = n /\ Forall (fun row => Z.of_nat (length row) = n) m.

(** The laws of an exact scalar type: a commutative ring, or a field, with
    [==] deciding equality. *)
Class ExactRing (T : Type) `{Scalar T} : Prop := {
  er_ring : ring_theory 0%S 1%S s_add s_mul s_sub s_opp (@eq T);
  er_eqb : forall x y : T, s_eqb x y = true <-> x = y
}.

Class ExactField (T : Type) `{Scalar T} : Prop := {
  ef_field : field_theory 0%S 1%S s_add s_mul s_sub s_opp s_div
               (fun x => 1 / x)%S (@eq T);
  ef_eqb : forall x y : T, s_eqb x y = true <-> x = y
}.

(** ** Instances used to evaluate the embedding *)

(** Exact rationals as the scalar type. *)
#[export] Instance Qc_Scalar : Scalar Qc := {|
  s_zero := Q2Qc 0;
  s_one := Q2Qc 1;
  s_add := Qcplus;
  s_sub := Qcminus;
  s_mul := Qcmult;
  s_div := Qcdiv;
  s_opp := Qcopp;
  s_eqb := Qc_eq_bool;
  s_of_Z := fun z => Q2Qc (inject_Z z)
|}.

(** [std::fma] on exact rationals *)
#[export] Instance Qc_Fma : Fma Qc := {|
  s_fma := fun a b c => Qcplus (Qcmult a b) c
|}.

(** The polynomial over [Qc] with the given integer coefficients. *)
Definition qpoly (l : list Z) : Poly Qc :=
  Poly_of_vector ((fun z => Q2Qc (inject_Z z)) <$> l).

(** [double] as the scalar type: IEEE 754 binary64 with the default
    rounding, which is the arithmetic of the kernel's floats. *)
Definition f64_of_Z (z : Z) : float :=
  if z <? 0 then PrimFloat.opp (PrimFloat.of_uint63 (Uint63.of_Z (- z)))
  else PrimFloat.of_uint63 (Uint63.of_Z z).

#[export] Instance f64_Scalar : Scalar float := {|
  s_zero := 0%float;
  s_one := 1%float;
  s_add := PrimFloat.add;
  s_sub := PrimFloat.sub;
  s_mul := PrimFloat.mul;
  s_div := PrimFloat.div;
  s_opp := PrimFloat.opp;
  s_eqb := PrimFloat.eqb;
  s_of_Z := f64_of_Z
|}.

(** The polynomial over [double] with the given integer coefficients. *)
Definition fpoly (l : list Z) : Poly float :=
  Poly_of_vector (f64_of_Z <$> l).

(** Rationals extended with a not-a-number element, after the floating
    point types the library is used with: [None] absorbs every operation and
    fails every comparison, and a division by zero yields it. The square
    root is exact on the squares of rationals and truncated to 20 decimal
    digits otherwise; [acos], [cos], [pow] and the eigenvalue routine have no
    rational counterpart here and answer not-a-number. *)
Definition Qx : Type := option Qc.

Definition qx_lift1 (f : Qc -> Qc) (x : Qx) : Qx :=
  match x with Some a => Some (f a) | None => None end.

Definition qx_lift2 (f : Qc -> Qc -> Qc) (x y : Qx) : Qx :=
  match x, y with Some a, Some b => Some (f a b) | _, _ => None end.

Definition qx_div (x y : Qx) : Qx :=
  match x, y with
  | Some a, Some b => if Qc_eq_bool b (Q2Qc 0) then None else Some (Qcdiv a b)
  | _, _ => None
  end.

Definition qx_eqb (x y : Qx) : bool :=
  match x, y with Some a, Some b => Qc_eq_bool a b | _, _ => false end.

Definition qx_ltb (x y : Qx) : bool :=
  match x, y with
  | Some a, Some b =>
      match (this a ?= this b)%Q with Lt => true | _ => false end
  | _, _ => false
  end.

Definition qx_leb (x y : Qx) : bool :=
  match x, y with
  | Some a, Some b =>
      match (this a ?= this b)%Q with Gt => false | _ => true end
  | _, _ => false
  end.

Definition qx_abs (x : Qx) : Qx :=
  qx_lift1 (fun a => Q2Qc (Qabs (this a))) x.

Definition qx_sqrt (x : Qx) : Qx :=
  match x with
  | Some a =>
      let n := Qnum (this a) in
      let d := Z.pos (Qden (this a)) in
      if n <? 0 then None
      else if (Z.sqrt n * Z.sqrt n =? n) && (Z.sqrt d * Z.sqrt d =? d)
      then Some (Q2Qc (Qmake (Z.sqrt n) (Z.to_pos (Z.sqrt d))))
      else Some (Q2Qc (Qmake (Z.sqrt (n * d * 10 ^ 40))
                             (Z.to_pos (d * 10 ^ 20))))
  | None => None
  end.

#[export] Instance Qx_Scalar : Scalar Qx := {|
  s_zero := Some (Q2Qc 0);
  s_one := Some (Q2Qc 1);
  s_add := qx_lift2 Qcplus;
  s_sub := qx_lift2 Qcminus;
  s_mul := qx_lift2 Qcmult;
  s_div := qx_div;
  s_opp := qx_lift1 Qcopp;
  s_eqb := qx_eqb;
  s_of_Z := fun z => Some (Q2Qc (inject_Z z))
|}.

#[export] Instance Qx_RealScalar : RealScalar Qx := {|
  r_abs := qx_abs;
  r_ltb := qx_ltb;
  r_leb := qx_leb;
  r_of_Q := fun q => Some (Q2Qc q);
  r_sqrt := qx_sqrt;
  r_acos := fun _ => None;
  r_cos := fun _ => None;
  r_pow := fun _ _ => None;
  r_pi := Some (Q2Qc (3141592653589793238 # 1000000000000000000))
|}.

(** [std::complex] over [Qx], with the textbook formulas. *)
Definition Cx : Type := (Qx * Qx)%type.

Definition cx_mul (z w : Cx) : Cx :=
  ((fst z * fst w - snd z * snd w)%S, (fst z * snd w + snd z * fst w)%S).

Definition cx_div (z w : Cx) : Cx :=
  let n := (fst w * fst w + snd w * snd w)%S in
  (((fst z * fst w + snd z * snd w) / n)%S,
   ((snd z * fst w - fst z * snd w) / n)%S).

Definition cx_abs (z : Cx) : Qx :=
  qx_sqrt (fst z * fst z + snd z * snd z)%S.

Definition cx_sqrt (z : Cx) : Cx :=
  let m := cx_abs z in
  let re := qx_sqrt ((m + fst z) / s_of_Z 2)%S in
  let im := qx_sqrt ((m - fst z) / s_of_Z 2)%S in
  (re, if qx_ltb (snd z) 0%S then (- im)%S else im).

#[export] Instance Cx_Scalar : Scalar Cx := {|
  s_zero := (0%S, 0%S);
  s_one := (1%S, 0%S);
  s_add := fun z w => ((fst z + fst w)%S, (snd z + snd w)%S);
  s_sub := fun z w => ((fst z - fst w)%S, (snd z - snd w)%S);
  s_mul := cx_mul;
  s_div := cx_div;
  s_opp := fun z => ((- fst z)%S, (- snd z)%S);
  s_eqb := fun z w => qx_eqb (fst z) (fst w) && qx_eqb (snd z) (snd w);
  s_of_Z := fun n => (s_of_Z n, 0%S)
|}.

#[export] Instance Cx_Complex : ComplexScalar Qx Cx := {|
  c_of_real := fun r => (r, 0%S);
  c_make := fun re im => (re, im);
  c_abs := cx_abs;
  c_sqrt := cx_sqrt;
  c_scale := fun z t => ((fst z * t)%S, (snd z * t)%S)
|}.

#[export] Instance Cx_Eigen : EigenSolver Qx Cx := {|
  eigenvalues := fun m => (fun _ => (None, None)) <$> m
|}.

(** Exact rationals as a real scalar type, and [std::complex] over them
    with the textbook formulas. The square root is the one of [Qx], with 0
    where that one is not a number; [acos], [cos], [pow] and the eigenvalue
    routine have no rational counterpart here and answer 0. *)
Definition qc_ltb (a b : Qc) : bool :=
  match (this a ?= this b)%Q with Lt => true | _ => false end.

Definition qc_leb (a b : Qc) : bool :=
  match (this a ?= this b)%Q with Gt => false | _ => true end.

Definition qc_sqrt (a : Qc) : Qc := default (Q2Qc 0) (qx_sqrt (Some a)).

#[export] Instance Qc_RealScalar : RealScalar Qc := {|
  r_abs := fun a => Q2Qc (Qabs (this a));
  r_ltb := qc_ltb;
  r_leb := qc_leb;
  r_of_Q := Q2Qc;
  r_sqrt := qc_sqrt;
  r_acos := fun _ => Q2Qc 0;
  r_cos := fun _ => Q2Qc 0;
  r_pow := fun _ _ => Q2Qc 0;
  r_pi := Q2Qc (3141592653589793238 # 1000000000000000000)
|}.

Definition Cq : Type := (Qc * Qc)%type.

Definition cq_abs (z : Cq) : Qc :=
  qc_sqrt (fst z * fst z + snd z * snd z)%S.

Definition cq_sqrt (z : Cq) : Cq :=
  let m := cq_abs z in
  let re := qc_sqrt ((m + fst z) / s_of_Z 2)%S in
  let im := qc_sqrt ((m - fst z) / s_of_Z 2)%S in
  (re, if qc_ltb (snd z) 0%S then (- im)%S else im).

#[export] Instance Cq_Scalar : Scalar Cq := {|
  s_zero := (0%S, 0%S);
  s_one := (1%S, 0%S);
  s_add := fun z w => ((fst z + fst w)%S, (snd z + snd w)%S);
  s_sub := fun z w => ((fst z - fst w)%S, (snd z - snd w)%S);
  s_mul := fun z w =>
    ((fst z * fst w - snd z * snd w)%S, (fst z * snd w + snd z * fst w)%S);
  s_div := fun z w =>
    let n := (fst w * fst w + snd w * snd w)%S in
    (((fst z * fst w + snd z * snd w) / n)%S,
     ((snd z * fst w - fst z * snd w) / n)%S);
  s_opp := fun z => ((- fst z)%S, (- snd z)%S);
  s_eqb := fun z w => Qc_eq_bool (fst z) (fst w) && Qc_eq_bool (snd z) (snd w);
  s_of_Z := fun n => (s_of_Z n, 0%S)
|}.

#[export] Instance Cq_Complex : ComplexScalar Qc Cq := {|
  c_of_real := fun r => (r, 0%S);
  c_make := fun re im => (re, im);
  c_abs := cq_abs;
  c_sqrt := cq_sqrt;
  c_scale := fun z t => ((fst z * t)%S, (snd z * t)%S)
|}.

#[export] Instance Cq_Eigen : EigenSolver Qc Cq := {|
  eigenvalues := fun m => (fun _ => (0%S, 0%S)) <$> m
|}.

(** The polynomial over [Qx] with the given rational coefficients. *)
Definition xpoly (l : list Q) : Poly Qx :=
  Poly_of_vector ((fun q => Some (Q2Qc q)) <$> l).

(** The complex polynomial with the given real rational coefficients. *)
Definition cpoly (l : list Q) : Poly Cx :=
  Poly_of_vector ((fun q => (Some (Q2Qc q), Some (Q2Qc 0))) <$> l).

(** Modelled from the spec: [linspace(from, to, N)] of [tools.h], which
    gives [N] parameter values evenly spaced from [from] to [to]. *)
Definition linspace_model {T : Type} `{Scalar T} (from to : T) (N : Z)
  : list T :=
  (fun i => from + s_of_Z i * ((to - from) / s_of_Z (N - 1)))%S <$> seqZ 0 N.

#[export] Instance Qx_Tools : Tools Qx := {| linspace := linspace_model |}.

(** The same parameters followed by one more element, to tell what the
    sampling loops read behind the last parameter. *)
Definition Qx_Tools_padded : Tools Qx := {|
  linspace := fun from to N => linspace_model from to N ++ [to]
|}.

(** The straight line from (0, 0) to (1, 2): degree 1, two control points
    of weight 1, knots [0, 0, 1, 1], one segment between the knots of
    indexes 1 and 2. *)
Definition line_curve : outcome (NURBS Qx) :=
  let q (z : Z) : Qx := Some (Q2Qc (inject_Z z)) in
  NURBS_new 1 [q 0; q 0; q 1; q 1] [q 1; q 1] [[q 0; q 0]; [q 1; q 2]] [1; 2].

(** The straight line from (0, 0) to (1, 1) with the weights 1 and 2:
    degree 1, knots [0, 0, 1, 1], one segment between the knots of indexes 1
    and 2. Both coordinates are [2t / (t + 1)]. *)
Definition weighted_line : outcome (NURBS Qx) :=
  let q (z : Z) : Qx := Some (Q2Qc (inject_Z z)) in
  NURBS_new 1 [q 0; q 0; q 1; q 1] [q 1; q 2] [[q 0; q 0]; [q 1; q 1]] [1; 2].

(** Stand-ins for the functions of [integral.h], to run the analytic
    integrals: every integral is 0 and [frac_decomp_matrix] gives one
    coefficient 0 for every root and power. *)
Definition Qx_IntegralTools : IntegralTools Qx Cx := {|
  integral_frac := fun _ _ _ _ => 0%S;
  integral_frac2 := fun _ _ _ _ _ => 0%S;
  integral_frac_at := fun _ _ _ _ _ => 0%S;
  integral_frac2_at := fun _ _ _ _ _ _ => 0%S;
  integral_type_1 := fun _ _ _ _ _ => 0%S;
  frac_decomp_matrix := fun _ _ rs =>
    replicate (Z.to_nat (multiplicity_sum rs)) 0%S
|}.

(** * Properties *)

(** ** Outcomes, vectors and loops *)

Lemma bind_Ok {A B} (m : outcome A) (k : A -> outcome B) b :
  bind m k = Ok b -> exists a, m = Ok a /\ k a = Ok b.
Proof. destruct m; simpl; intros; try discriminate. eauto. Qed.

Lemma bind_no_throw {A B} (m : outcome A) (k : A -> outcome B) :
  is_throw m = false -> (forall a, is_throw (k a) = false) ->
  is_throw (bind m k) = false.
Proof. destruct m; simpl; auto. Qed.

Lemma vget_Ok {A} (v : list A) i x :
  vget v i = Ok x -> 0 <= i /\ v !! Z.to_nat i = Some x.
Proof.
  unfold vget. destruct (0 <=? i) eqn:E1; simpl; [|discriminate].
  destruct (i <? _) eqn:E2; [|discriminate].
  destruct (v !! Z.to_nat i) eqn:E3; [|discriminate].
  intros [= ->]. split; [lia|done].
Qed.

Lemma vget_in_range {A} (v : list A) i :
  0 <= i < Z.of_nat (length v) ->
  exists x, vget v i = Ok x /\ v !! Z.to_nat i = Some x.
Proof.
  intros Hi. unfold vget.
  destruct (lookup_lt_is_Some_2 v (Z.to_nat i)) as [x Hx]; [lia|].
  exists x. rewrite Hx.
  replace (0 <=? i) with true by (symmetry; apply Z.leb_le; lia).
  replace (i <? _) with true by (symmetry; apply Z.ltb_lt; lia).
  done.
Qed.

Lemma vupd_Ok {A} (v : list A) i f v' :
  vupd v i f = Ok v' ->
  0 <= i < Z.of_nat (length v) /\ v' = alter f (Z.to_nat i) v.
Proof.
  unfold vupd. destruct (0 <=? i) eqn:E1; simpl; [|discriminate].
  destruct (i <? _) eqn:E2; [|discriminate].
  apply Z.leb_le in E1. apply Z.ltb_lt in E2.
  intros [= <-]. split; [lia|done].
Qed.

Lemma vupd_in_range {A} (v : list A) i f :
  0 <= i < Z.of_nat (length v) -> vupd v i f = Ok (alter f (Z.to_nat i) v).
Proof.
  intros Hi. unfold vupd.
  replace (0 <=? i) with true by (symmetry; apply Z.leb_le; lia).
  replace (i <? _) with true by (symmetry; apply Z.ltb_lt; lia).
  done.
Qed.

Lemma vget_no_throw {A} (v : list A) i : is_throw (vget v i) = false.
Proof.
  unfold vget. destruct (_ && _); [|done]. by destruct (v !! _).
Qed.

Lemma vupd_no_throw {A} (v : list A) i f : is_throw (vupd v i f) = false.
Proof. unfold vupd. by destruct (_ && _). Qed.

Lemma for_steps_inv {St} (I : Z -> St -> Prop) body n i (s : St) :
  I i s ->
  (forall j s, i <= j < i + Z.of_nat n -> I j s ->
               exists s', body j s = Ok s' /\ I (j + 1) s') ->
  exists s', for_steps n i body s = Ok s' /\ I (i + Z.of_nat n) s'.
Proof.
  revert i s. induction n as [|n IH]; intros i s Hs Hstep; simpl.
  - exists s. split; [done|]. by replace (i + Z.of_nat 0) with i by lia.
  - destruct (Hstep i s) as (s1 & -> & Hs1); [lia|done|]. simpl.
    destruct (IH (i + 1) s1) as (s2 & -> & Hs2); [done| |].
    + intros j s' Hj. apply Hstep. lia.
    + exists s2. split; [done|].
      by replace (i + Z.of_nat (S n)) with (i + 1 + Z.of_nat n) by lia.
Qed.

Lemma for_loop_inv {St} (I : Z -> St -> Prop) body lo hi (s : St) :
  lo <= hi -> I lo s ->
  (forall j s, lo <= j < hi -> I j s ->
               exists s', body j s = Ok s' /\ I (j + 1) s') ->
  exists s', for_loop lo hi body s = Ok s' /\ I hi s'.
Proof.
  intros Hle Hs Hstep. unfold for_loop.
  destruct (for_steps_inv I body (Z.to_nat (hi - lo)) lo s) as (s' & E & Hs');
    [done| |].
  - intros j s0 Hj. apply Hstep. lia.
  - exists s'. split; [done|].
    replace (lo + Z.of_nat (Z.to_nat (hi - lo))) with hi in Hs' by lia. done.
Qed.

Lemma for_steps_post {St} (I : Z -> St -> Prop) body n i (s s' : St) :
  for_steps n i body s = Ok s' -> I i s ->
  (forall j s s1, i <= j < i + Z.of_nat n -> I j s -> body j s = Ok s1 ->
                  I (j + 1) s1) ->
  I (i + Z.of_nat n) s'.
Proof.
  revert i s. induction n as [|n IH]; intros i s E Hs Hstep; simpl in E.
  - injection E as <-. by replace (i + Z.of_nat 0) with i by lia.
  - apply bind_Ok in E as (s1 & E1 & E2).
    replace (i + Z.of_nat (S n)) with (i + 1 + Z.of_nat n) by lia.
    apply (IH (i + 1) s1); [done| |].
    + apply (Hstep i s); [lia|done|done].
    + intros j s0 s2 Hj. apply Hstep. lia.
Qed.

Lemma for_loop_post {St} (I : Z -> St -> Prop) body lo hi (s s' : St) :
  lo <= hi -> for_loop lo hi body s = Ok s' -> I lo s ->
  (forall j s s1, lo <= j < hi -> I j s -> body j s = Ok s1 -> I (j + 1) s1) ->
  I hi s'.
Proof.
  intros Hle E Hs Hstep. unfold for_loop in E.
  replace hi with (lo + Z.of_nat (Z.to_nat (hi - lo))) by lia.
  apply (for_steps_post I body _ lo s s'); [done|done|].
  intros j s0 s1 Hj. apply Hstep. lia.
Qed.

Lemma for_steps_no_throw {St} body n i (s : St) :
  (forall j s, is_throw (body j s) = false) ->
  is_throw (for_steps n i body s) = false.
Proof.
  intros Hb. revert i s. induction n as [|n IH]; intros i s; simpl; [done|].
  apply bind_no_throw; auto.
Qed.

Lemma for_loop_no_throw {St} body lo hi (s : St) :
  (forall j s, is_throw (body j s) = false) ->
  is_throw (for_loop lo hi body s) = false.
Proof. apply for_steps_no_throw. Qed.

Lemma while_loop_no_throw {St} fuel cond body (s : St) :
  (forall s, is_throw (cond s) = false) ->
  (forall s, is_throw (body s) = false) ->
  is_throw (while_loop fuel cond body s) = false.
Proof.
  intros Hc Hb. revert s. induction fuel as [|n IH]; intros s; simpl; [done|].
  apply bind_no_throw; [done|]. intros [|]; [|done].
  apply bind_no_throw; auto.
Qed.

(** ** Shapes and values of the polynomial operations *)

Section Coefficients.
Context {T : Type} `{Scalar T}.

Lemma at0_lookup (l : list T) k x : l !! k = Some x -> at0 l k = x.
Proof. unfold at0. by intros ->. Qed.

Lemma lookup_at0 (l : list T) k :
  (k < length l)%nat -> l !! k = Some (at0 l k).
Proof.
  intros Hk. destruct (lookup_lt_is_Some_2 l k Hk) as [x Hx].
  by rewrite (at0_lookup _ _ _ Hx).
Qed.

Lemma at0_alter f (l : list T) i k :
  (i < length l)%nat ->
  at0 (alter f i l) k = if decide (i = k) then f (at0 l k) else at0 l k.
Proof.
  intros Hi. unfold at0. rewrite list_lookup_alter.
  destruct (decide (i = k)) as [->|]; [|done].
  destruct (lookup_lt_is_Some_2 l k Hi) as [x ->]. done.
Qed.

Lemma at0_ext (l1 l2 : list T) :
  length l1 = length l2 ->
  (forall k, (k < length l1)%nat -> at0 l1 k = at0 l2 k) -> l1 = l2.
Proof.
  intros Hlen Hk. apply list_eq. intros k.
  destruct (decide (k < length l1)%nat) as [Hlt|Hge].
  - rewrite !lookup_at0 by lia. f_equal. auto.
  - rewrite !lookup_ge_None_2 by lia. done.
Qed.

Lemma vget_at0 (l : list T) i :
  0 <= i < Z.of_nat (length l) -> vget l i = Ok (at0 l (Z.to_nat i)).
Proof.
  intros Hi. destruct (vget_in_range l i Hi) as (x & -> & Hx).
  by rewrite (at0_lookup _ _ _ Hx).
Qed.

Lemma wf_length (p : Poly T) : wf p -> (0 < length (coef_ p))%nat.
Proof. intros [Hne _]. destruct (coef_ p); simpl; [done|lia]. Qed.

Lemma to_size_t_nonneg z : 0 <= z -> to_size_t z = z.
Proof.
  intros Hz. unfold to_size_t.
  destruct (z <? 0) eqn:E; [apply Z.ltb_lt in E; lia|done].
Qed.

Lemma wf_Poly_of_vector (l : list T) : l <> [] -> wf (Poly_of_vector l).
Proof.
  intros Hne. split; [done|]. simpl. apply to_size_t_nonneg.
  destruct l; simpl; [done|lia].
Qed.

Lemma plus_spec (lhs rhs : Poly T) :
  wf lhs -> wf rhs -> deg_ rhs <= deg_ lhs ->
  exists r, plus lhs rhs = Ok r /\ deg_ r = deg_ lhs /\
    length (coef_ r) = length (coef_ lhs) /\
    forall k : nat,
      at0 (coef_ r) k =
      if decide (length (coef_ lhs) - length (coef_ rhs) <= k
                 < length (coef_ lhs))%nat
      then (at0 (coef_ lhs) k
            + at0 (coef_ rhs) (k - (length (coef_ lhs) - length (coef_ rhs))))%S
      else at0 (coef_ lhs) k.
Proof.
  intros W1 W2 Hle.
  pose proof (wf_length _ W1) as L1. pose proof (wf_length _ W2) as L2.
  destruct W1 as [_ D1], W2 as [_ D2].
  set (n1 := length (coef_ lhs)) in *. set (n2 := length (coef_ rhs)) in *.
  unfold plus, deg.
  destruct (for_loop_inv
    (fun i temp => deg_ temp = deg_ lhs /\ length (coef_ temp) = n1 /\
       forall k : nat,
         at0 (coef_ temp) k =
         if decide (Z.of_nat n1 - i <= Z.of_nat k < Z.of_nat n1)
         then (at0 (coef_ lhs) k + at0 (coef_ rhs) (k - (n1 - n2)))%S
         else at0 (coef_ lhs) k)
    (fun i temp =>
       x <- pget rhs (to_size_t (deg_ rhs - i)) ;;
       pupd temp (to_size_t (deg_ lhs - i)) (fun t => t + x)%S)
    0 (deg_ rhs + 1) lhs) as (r & E & Hd & Hl & Hv).
  - lia.
  - split; [done|]. split; [done|]. intros k.
    destruct (decide _); [lia|done].
  - intros i temp Hi (Hd & Hl & Hv).
    rewrite !to_size_t_nonneg by lia.
    unfold pget, pupd. rewrite vget_at0 by (fold n2; lia). simpl.
    rewrite vupd_in_range by lia. simpl.
    eexists. split; [done|]. simpl. split; [done|].
    split; [by rewrite length_alter|].
    intros k. rewrite at0_alter by lia. rewrite Hv.
    destruct (decide (Z.to_nat (deg_ lhs - i) = k)) as [Ek|Ek].
    + repeat destruct (decide _); try lia.
      do 2 f_equal. lia.
    + repeat destruct (decide _); try lia; done.
  - exists r. split; [done|]. split; [done|]. split; [done|].
    intros k. rewrite Hv.
    repeat destruct (decide _); try lia; done.
Qed.

End Coefficients.

Section Addition.
Context {T : Type} `{Scalar T}.

Lemma poly_neg_spec (p : Poly T) :
  wf p ->
  exists r, poly_neg p = Ok r /\ deg_ r = deg_ p /\
    length (coef_ r) = length (coef_ p) /\
    forall k : nat,
      at0 (coef_ r) k =
      if decide (k < length (coef_ p))%nat then (- at0 (coef_ p) k)%S
      else at0 (coef_ p) k.
Proof.
  intros W. pose proof (wf_length _ W) as L. destruct W as [_ D].
  unfold poly_neg, deg.
  destruct (for_loop_inv
    (fun i temp => deg_ temp = deg_ p /\
       length (coef_ temp) = length (coef_ p) /\
       forall k : nat,
         at0 (coef_ temp) k =
         if decide (Z.of_nat k < i) then (- at0 (coef_ p) k)%S
         else at0 (coef_ p) k)
    (fun i temp => x <- pget p i ;; pset temp i (- x)%S)
    0 (deg_ p + 1) p) as (r & E & Hd & Hl & Hv).
  - lia.
  - split; [done|]. split; [done|]. intros k.
    destruct (decide _); [lia|done].
  - intros i temp Hi (Hd & Hl & Hv).
    unfold pget, pset, pupd. rewrite vget_at0 by lia. simpl.
    rewrite vupd_in_range by lia. simpl.
    eexists. split; [done|]. simpl. split; [done|].
    split; [by rewrite length_alter|].
    intros k. rewrite at0_alter by lia. rewrite Hv.
    destruct (decide (Z.to_nat i = k)) as [Ek|Ek].
    + repeat destruct (decide _); try lia. by subst k.
    + repeat destruct (decide _); try lia; done.
  - exists r. split; [done|]. split; [done|]. split; [done|].
    intros k. rewrite Hv.
    repeat destruct (decide _); try lia; done.
Qed.

Lemma wf_intro (p : Poly T) :
  (0 < length (coef_ p))%nat -> deg_ p = Z.of_nat (length (coef_ p)) - 1 ->
  wf p.
Proof. intros L D. split; [|done]. destruct (coef_ p); simpl in *; [lia|done]. Qed.

Lemma poly_add_ge (p1 p2 : Poly T) :
  deg_ p2 <= deg_ p1 -> poly_add p1 p2 = plus p1 p2.
Proof.
  intros Hle. unfold poly_add, deg.
  by replace (deg_ p2 <=? deg_ p1) with true by (symmetry; apply Z.leb_le; lia).
Qed.

Lemma poly_add_lt (p1 p2 : Poly T) :
  deg_ p1 < deg_ p2 -> poly_add p1 p2 = plus p2 p1.
Proof.
  intros Hlt. unfold poly_add, deg.
  by replace (deg_ p2 <=? deg_ p1) with false by (symmetry; apply Z.leb_gt; lia).
Qed.

Lemma plus_wf (lhs rhs : Poly T) :
  wf lhs -> wf rhs -> deg_ rhs <= deg_ lhs ->
  exists r, plus lhs rhs = Ok r /\ wf r.
Proof.
  intros W1 W2 Hle.
  destruct (plus_spec lhs rhs W1 W2 Hle) as (r & E & Hd & Hl & _).
  exists r. split; [done|].
  pose proof (wf_length _ W1). destruct W1 as [_ D1].
  apply wf_intro; lia.
Qed.

Lemma poly_add_wf (p1 p2 : Poly T) :
  wf p1 -> wf p2 -> exists r, poly_add p1 p2 = Ok r /\ wf r.
Proof.
  intros W1 W2. destruct (decide (deg_ p2 <= deg_ p1)) as [Hle|Hgt].
  - rewrite poly_add_ge by done. by apply plus_wf.
  - rewrite poly_add_lt by lia. apply plus_wf; [done|done|lia].
Qed.

Lemma poly_neg_wf (p : Poly T) :
  wf p -> exists r, poly_neg p = Ok r /\ wf r.
Proof.
  intros W. destruct (poly_neg_spec p W) as (r & E & Hd & Hl & _).
  exists r. split; [done|].
  pose proof (wf_length _ W). destruct W as [_ D].
  apply wf_intro; lia.
Qed.

Lemma poly_sub_wf (p1 p2 : Poly T) :
  wf p1 -> wf p2 -> exists r, poly_sub p1 p2 = Ok r /\ wf r.
Proof.
  intros W1 W2. unfold poly_sub.
  destruct (poly_neg_wf p2 W2) as (n & -> & Wn). simpl.
  by apply poly_add_wf.
Qed.

Lemma at0_app (l1 l2 : list T) k :
  at0 (l1 ++ l2) k =
  if decide (k < length l1)%nat then at0 l1 k else at0 l2 (k - length l1).
Proof.
  unfold at0. destruct (decide _).
  - by rewrite lookup_app_l.
  - by rewrite lookup_app_r by lia.
Qed.

Lemma at0_replicate n (x : T) k :
  at0 (replicate n x) k = if decide (k < n)%nat then x else 0%S.
Proof.
  unfold at0. destruct (decide _) as [Hk|Hk].
  - by rewrite (proj2 (lookup_replicate n x x k)).
  - rewrite lookup_ge_None_2; [done|]. rewrite length_replicate. lia.
Qed.

End Addition.

Section RingLaws.
Context {T : Type} `{ER : ExactRing T}.
Add Ring Tring : er_ring.

Lemma coef_eqb_eq (l1 l2 : list T) : coef_eqb l1 l2 = true <-> l1 = l2.
Proof.
  revert l2. induction l1 as [|x l1 IH]; intros [|y l2]; simpl; try done.
  rewrite andb_true_iff, er_eqb, IH. split.
  - by intros [-> ->].
  - by intros [= -> ->].
Qed.

(** C2, as the code has it, over an exact scalar type (a ring):
    [(A + B) - B] is [A] with [deg(B) - deg(A)] leading zeros put in front
    when [B] has the larger degree (no operator trims its result), so it
    compares equal to [A] exactly when [deg(B) <= deg(A)]. *)
Theorem add_sub_cancel (A B : Poly T) :
  wf A -> wf B ->
  exists S R,
    poly_add A B = Ok S /\ poly_sub S B = Ok R /\
    coef_ R
    = replicate (length (coef_ B) - length (coef_ A)) 0%S ++ coef_ A /\
    (poly_eqb R A = true <-> deg_ B <= deg_ A).
Proof.
  intros WA WB.
  pose proof (wf_length _ WA) as LA. pose proof (wf_length _ WB) as LB.
  destruct (poly_neg_spec B WB) as (N & EN & DN & LN & VN).
  destruct (poly_neg_wf B WB) as (N' & EN' & WN).
  rewrite EN in EN'. injection EN' as <-.
  assert (exists S R, poly_add A B = Ok S /\ poly_sub S B = Ok R /\
            coef_ R = replicate (length (coef_ B) - length (coef_ A)) 0%S
                      ++ coef_ A) as (S & R & ES & ER' & HR).
  { unfold poly_sub. rewrite EN. simpl.
    destruct (decide (deg_ B <= deg_ A)) as [Hle|Hgt].
    - destruct (plus_spec A B WA WB Hle) as (S & ES & DS & LS & VS).
      destruct (plus_wf A B WA WB Hle) as (S' & ES' & WS).
      rewrite ES in ES'. injection ES' as <-.
      destruct (plus_spec S N WS WN ltac:(lia)) as (R & ER' & DR & LR & VR).
      exists S, R. split; [by rewrite poly_add_ge|].
      split; [by rewrite poly_add_ge by lia|].
      destruct WA as [_ DA], WB as [_ DB].
      replace (length (coef_ B) - length (coef_ A))%nat with 0%nat by lia.
      simpl. apply at0_ext; [lia|].
      intros k Hk. rewrite VR, VS, VN.
      repeat destruct (decide _); try lia; try done.
      rewrite LS, LN. ring.
    - destruct (plus_spec B A WB WA ltac:(lia)) as (S & ES & DS & LS & VS).
      destruct (plus_wf B A WB WA ltac:(lia)) as (S' & ES' & WS).
      rewrite ES in ES'. injection ES' as <-.
      destruct (plus_spec S N WS WN ltac:(lia)) as (R & ER' & DR & LR & VR).
      exists S, R. split; [by rewrite poly_add_lt by lia|].
      split; [by rewrite poly_add_ge by lia|].
      destruct WA as [_ DA], WB as [_ DB].
      apply at0_ext; [rewrite length_app, length_replicate; lia|].
      intros k Hk. rewrite VR, VS, VN, at0_app, at0_replicate.
      rewrite length_replicate, LS, LN.
      repeat destruct (decide _); try lia.
      + replace (k - (length (coef_ B) - length (coef_ B)))%nat with k by lia.
        ring.
      + replace (k - (length (coef_ B) - length (coef_ B)))%nat with k by lia.
        ring. }
  exists S, R. split; [done|]. split; [done|]. split; [done|].
  unfold poly_eqb, GetCoef. rewrite coef_eqb_eq, HR.
  destruct WA as [_ DA], WB as [_ DB]. split.
  - intros E. apply (f_equal length) in E.
    rewrite length_app, length_replicate in E. lia.
  - intros Hle.
    by replace (length (coef_ B) - length (coef_ A))%nat with 0%nat by lia.
Qed.

End RingLaws.

Section Calculus.
Context {T : Type} `{Scalar T}.

Lemma wf_Poly_fill d (v : T) : 0 <= d -> wf (Poly_fill d v).
Proof.
  intros Hd. apply wf_intro; simpl; rewrite length_replicate; lia.
Qed.

Lemma normalize_wf (p : Poly T) :
  wf p -> exists r a, normalize p = Ok (r, a) /\ wf r.
Proof.
  intros W. pose proof (wf_length _ W) as L. unfold normalize.
  rewrite vget_at0 by lia. simpl.
  destruct (negb _); eexists _, _; (split; [done|]); [|done].
  destruct W as [_ D]. apply wf_intro; simpl; rewrite length_fmap; lia.
Qed.

Lemma antider_spec (p : Poly T) :
  wf p ->
  exists r, antider p = Ok r /\ wf r /\
    length (coef_ r) = S (length (coef_ p)) /\
    forall k : nat,
      at0 (coef_ r) k =
      if decide (length (coef_ p) = 1)%nat
      then (if decide (k = 0)%nat then at0 (coef_ p) 0 else 0%S)
      else if decide (k < length (coef_ p))%nat
      then (at0 (coef_ p) k / s_of_Z (deg_ p - Z.of_nat k + 1))%S
      else 0%S.
Proof.
  intros W. pose proof (wf_length _ W) as L. destruct W as [_ D].
  unfold antider, deg. destruct (deg_ p =? 0) eqn:E0.
  - apply Z.eqb_eq in E0. rewrite vget_at0 by lia. simpl.
    eexists. split; [done|]. split; [by apply wf_Poly_of_vector|].
    assert (length (coef_ p) = 1%nat) as L1 by lia.
    split; [simpl; lia|]. intros k. simpl.
    repeat destruct (decide _); try lia.
    + by subst k.
    + destruct k as [|[|k]]; [lia|done|done].
  - apply Z.eqb_neq in E0.
    destruct (for_loop_inv
      (fun i tmp => length tmp = S (length (coef_ p)) /\
         forall k : nat,
           at0 tmp k =
           if decide (Z.of_nat k < i)
           then (at0 (coef_ p) k / s_of_Z (deg_ p - Z.of_nat k + 1))%S
           else 0%S)
      (fun i tmp =>
         c <- vget (coef_ p) i ;;
         vset tmp i (c / s_of_Z (deg_ p - i + 1))%S)
      0 (deg_ p + 1) (replicate (Z.to_nat (deg_ p + 2)) 0%S))
      as (r & E & Hl & Hv).
    + lia.
    + split; [rewrite length_replicate; lia|]. intros k.
      rewrite at0_replicate. repeat destruct (decide _); try lia; done.
    + intros i tmp Hi (Hl & Hv).
      rewrite vget_at0 by lia. simpl. unfold vset.
      rewrite vupd_in_range by lia.
      eexists. split; [done|]. split; [by rewrite length_alter|].
      intros k. rewrite at0_alter by lia. rewrite Hv.
      destruct (decide (Z.to_nat i = k)) as [Ek|Ek].
      * repeat destruct (decide _); try lia.
        subst k. by rewrite Z2Nat.id by lia.
      * repeat destruct (decide _); try lia; done.
    + rewrite E. simpl. eexists. split; [done|].
      split; [apply wf_Poly_of_vector; destruct r; simpl in *; [lia|done]|].
      split; [done|]. intros k. simpl. rewrite Hv.
      repeat destruct (decide _); try lia; done.
Qed.

Lemma der_spec (p : Poly T) :
  wf p ->
  exists r, der p = Ok r /\ wf r /\
    length (coef_ r) = Z.to_nat (Z.max 1 (deg_ p)) /\
    forall k : nat,
      at0 (coef_ r) k =
      if decide (length (coef_ p) = 2)%nat
      then (if decide (k = 0)%nat then at0 (coef_ p) 0 else 0%S)
      else if decide (k < length (coef_ p) - 1)%nat
      then (at0 (coef_ p) k * s_of_Z (deg_ p - Z.of_nat k))%S
      else 0%S.
Proof.
  intros W. pose proof (wf_length _ W) as L. destruct W as [_ D].
  unfold der, deg. destruct (deg_ p =? 0) eqn:E0.
  - apply Z.eqb_eq in E0.
    eexists. split; [done|]. split; [by apply wf_Poly_of_vector|].
    split; [simpl; lia|]. intros k. simpl.
    repeat destruct (decide _); try lia.
    destruct k; done.
  - apply Z.eqb_neq in E0. destruct (deg_ p =? 1) eqn:E1.
    + apply Z.eqb_eq in E1. rewrite vget_at0 by lia. simpl.
      eexists. split; [done|]. split; [by apply wf_Poly_of_vector|].
      split; [simpl; lia|]. intros k. simpl.
      repeat destruct (decide _); try lia.
      * by subst k.
      * destruct k; [lia|done].
    + apply Z.eqb_neq in E1.
      destruct (for_loop_inv
        (fun i tmp => length tmp = (length (coef_ p) - 1)%nat /\
           forall k : nat,
             at0 tmp k =
             if decide (Z.of_nat k < i)
             then (at0 (coef_ p) k * s_of_Z (deg_ p - Z.of_nat k))%S
             else 0%S)
        (fun i tmp =>
           c <- vget (coef_ p) i ;;
           vset tmp i (c * s_of_Z (deg_ p - i))%S)
        0 (deg_ p) (replicate (Z.to_nat (deg_ p)) 0%S))
        as (r & E & Hl & Hv).
      * lia.
      * split; [rewrite length_replicate; lia|]. intros k.
        rewrite at0_replicate. repeat destruct (decide _); try lia; done.
      * intros i tmp Hi (Hl & Hv).
        rewrite vget_at0 by lia. simpl. unfold vset.
        rewrite vupd_in_range by lia.
        eexists. split; [done|]. split; [by rewrite length_alter|].
        intros k. rewrite at0_alter by lia. rewrite Hv.
        destruct (decide (Z.to_nat i = k)) as [Ek|Ek].
        -- repeat destruct (decide _); try lia.
           subst k. by rewrite Z2Nat.id by lia.
        -- repeat destruct (decide _); try lia; done.
      * rewrite E. simpl. eexists. split; [done|].
        split; [apply wf_Poly_of_vector; destruct r; simpl in *; [lia|done]|].
        split; [simpl; lia|]. intros k. simpl. rewrite Hv.
        repeat destruct (decide _); try lia; done.
Qed.

End Calculus.

Section Product.
Context {T : Type} `{Scalar T}.

Lemma sum_if_false n c (f : nat -> T) :
  (forall i, (i < n)%nat -> c i = false) -> sum_if n c f = 0%S.
Proof.
  induction n as [|n IH]; intros Hc; simpl; [done|].
  rewrite Hc by lia. apply IH. intros. apply Hc. lia.
Qed.

Lemma poly_mul_spec (p1 p2 : Poly T) :
  wf p1 -> wf p2 ->
  exists M, poly_mul p1 p2 = Ok M /\ wf M /\
    deg_ M = deg_ p1 + deg_ p2 /\
    forall k : nat, at0 (coef_ M) k = conv (coef_ p1) (coef_ p2) k.
Proof.
  intros W1 W2.
  pose proof (wf_length _ W1) as L1. pose proof (wf_length _ W2) as L2.
  destruct W1 as [_ D1], W2 as [_ D2].
  set (n1 := length (coef_ p1)) in *. set (n2 := length (coef_ p2)) in *.
  set (c := fun (k i : nat) => (i <=? k)%nat && (k - i <? n2)%nat).
  set (f := fun (k i : nat) => (at0 (coef_ p1) i * at0 (coef_ p2) (k - i))%S).
  unfold poly_mul, deg.
  destruct (for_loop_inv
    (fun i M => deg_ M = deg_ p1 + deg_ p2 /\
       length (coef_ M) = (n1 + n2 - 1)%nat /\
       forall k : nat, at0 (coef_ M) k = sum_if (Z.to_nat i) (c k) (f k))
    (fun i res =>
       for_loop 0 (deg_ p2 + 1)
         (fun j res =>
            a <- pget p1 i ;;
            b <- pget p2 j ;;
            pupd res (i + j) (fun r => r + a * b)%S)
         res)
    0 (deg_ p1 + 1) (Poly_fill (deg_ p2 + deg_ p1) 0%S))
    as (M & E & HdM & HlM & HvM).
  - lia.
  - simpl. split; [lia|]. split; [rewrite length_replicate; lia|].
    intros k. rewrite at0_replicate. by destruct (decide _).
  - intros i M Hi (HdM & HlM & HvM).
    destruct (for_loop_inv
      (fun j M' => deg_ M' = deg_ p1 + deg_ p2 /\
         length (coef_ M') = (n1 + n2 - 1)%nat /\
         forall k : nat,
           at0 (coef_ M') k =
           if decide (i <= Z.of_nat k < i + j)
           then (sum_if (Z.to_nat i) (c k) (f k) + f k (Z.to_nat i))%S
           else sum_if (Z.to_nat i) (c k) (f k))
      (fun j res =>
         a <- pget p1 i ;;
         b <- pget p2 j ;;
         pupd res (i + j) (fun r => r + a * b)%S)
      0 (deg_ p2 + 1) M) as (M' & E' & HdM' & HlM' & HvM').
    + lia.
    + split; [done|]. split; [done|]. intros k. rewrite HvM.
      destruct (decide _); [lia|done].
    + intros j M' Hj (HdM' & HlM' & HvM').
      unfold pget, pupd. rewrite !vget_at0 by lia. simpl.
      rewrite vupd_in_range by lia. simpl.
      eexists. split; [done|]. simpl. split; [done|].
      split; [by rewrite length_alter|].
      intros k. rewrite at0_alter by lia. rewrite HvM'.
      destruct (decide (Z.to_nat (i + j) = k)) as [Ek|Ek].
      * repeat destruct (decide _); try lia.
        unfold f. do 3 f_equal. lia.
      * repeat destruct (decide _); try lia; done.
    + exists M'. split; [done|]. split; [done|]. split; [done|].
      intros k. rewrite HvM'.
      replace (Z.to_nat (i + 1)) with (S (Z.to_nat i)) by lia. simpl.
      unfold c at 3.
      destruct (decide _) as [Hk|Hk].
      * replace (Z.to_nat i <=? k)%nat with true
          by (symmetry; apply Nat.leb_le; lia).
        replace (k - Z.to_nat i <? n2)%nat with true
          by (symmetry; apply Nat.ltb_lt; lia).
        done.
      * destruct (Z.to_nat i <=? k)%nat eqn:E1; [|done].
        destruct (k - Z.to_nat i <? n2)%nat eqn:E2; [|done].
        apply Nat.leb_le in E1. apply Nat.ltb_lt in E2. lia.
  - exists M. split; [done|].
    split; [apply wf_intro; lia|]. split; [done|].
    intros k. rewrite HvM. unfold conv. fold n1 n2.
    by replace (Z.to_nat (deg_ p1 + 1)) with n1 by lia.
Qed.

End Product.

Section TrimAndDivide.
Context {T : Type} `{Scalar T}.

(** The scan of [update] and [update_real], for any test [t] of a
    coefficient. *)
Lemma trim_scan (t : T -> bool) (l : list T) (d : Z) fuel i :
  d = Z.of_nat (length l) - 1 -> 0 <= i <= d ->
  (Z.to_nat (d - i) < fuel)%nat ->
  exists i0,
    while_loop fuel
      (fun i => c <- vget l i ;; Ok (t c && (i <? d)))
      (fun i => Ok (i + 1)) i = Ok i0 /\
    i <= i0 <= d /\
    (forall k : nat, i <= Z.of_nat k < i0 -> t (at0 l k) = true) /\
    (i0 < d -> t (at0 l (Z.to_nat i0)) = false).
Proof.
  intros D. revert i. induction fuel as [|fuel IH]; intros i Hi Hf; [lia|].
  simpl. rewrite vget_at0 by lia. simpl.
  destruct (t (at0 l (Z.to_nat i))) eqn:Et; simpl.
  - destruct (i <? d) eqn:Ei.
    + apply Z.ltb_lt in Ei.
      destruct (IH (i + 1)) as (i0 & E & Hi0 & Hz & Hnz); [lia|lia|].
      exists i0. split; [done|]. split; [lia|]. split; [|done].
      intros k Hk. destruct (decide (Z.of_nat k = i)) as [Ek|Ek].
      * by rewrite <- Ek, Nat2Z.id in Et.
      * apply Hz. lia.
    + apply Z.ltb_ge in Ei. exists i. split; [done|]. split; [lia|].
      split; intros; lia.
  - exists i. split; [done|]. split; [lia|]. split; [intros; lia|done].
Qed.

Lemma drop_wf (p : Poly T) i0 :
  wf p -> 0 <= i0 <= deg_ p ->
  wf (mkPoly (drop (Z.to_nat i0) (coef_ p)) (to_size_t (deg_ p - i0))).
Proof.
  intros W Hi. pose proof (wf_length _ W) as L. destruct W as [_ D].
  rewrite to_size_t_nonneg by lia.
  apply wf_intro; simpl; rewrite length_drop; lia.
Qed.

Lemma update_spec (p : Poly T) :
  wf p ->
  exists i0,
    update p
    = Ok (mkPoly (drop (Z.to_nat i0) (coef_ p)) (to_size_t (deg_ p - i0))) /\
    0 <= i0 <= deg_ p /\
    (forall k : nat, Z.of_nat k < i0 -> s_eqb (at0 (coef_ p) k) 0%S = true) /\
    (i0 < deg_ p -> s_eqb (at0 (coef_ p) (Z.to_nat i0)) 0%S = false).
Proof.
  intros W. pose proof (wf_length _ W) as L. destruct W as [_ D].
  unfold update.
  destruct (trim_scan (fun c => s_eqb c 0%S) (coef_ p) (deg_ p)
              (S (length (coef_ p))) 0) as (i0 & E & Hi0 & Hz & Hnz);
    [done|lia|lia|].
  rewrite E. simpl.
  replace (i0 =? deg_ p + 1) with false by (symmetry; apply Z.eqb_neq; lia).
  replace (i0 <=? Z.of_nat (length (coef_ p))) with true
    by (symmetry; apply Z.leb_le; lia).
  exists i0. split; [done|]. split; [done|]. split; [|done].
  intros k Hk. apply Hz. lia.
Qed.

Lemma update_wf (p : Poly T) : wf p -> exists r, update p = Ok r /\ wf r.
Proof.
  intros W. destruct (update_spec p W) as (i0 & E & Hi0 & _).
  eexists. split; [done|]. by apply drop_wf.
Qed.

Lemma drop_last (l : list T) :
  (0 < length l)%nat -> drop (length l - 1) l = [at0 l (length l - 1)].
Proof.
  intros L. apply list_eq. intros k. rewrite lookup_drop.
  destruct k as [|k]; simpl.
  - rewrite lookup_at0 by lia. do 2 f_equal. lia.
  - rewrite lookup_ge_None_2 by lia. done.
Qed.

Lemma all_zero_at0 (l : list T) k : all_zero l -> at0 l k = 0%S.
Proof.
  intros Hz. unfold at0. destruct (l !! k) as [x|] eqn:E; [|done].
  simpl. by apply (proj1 (Forall_lookup _ l) Hz k x).
Qed.

Lemma update_all_zero (p : Poly T) :
  s_eqb (0%S : T) 0%S = true ->
  wf p -> all_zero (coef_ p) -> update p = Ok (mkPoly [0%S] 0).
Proof.
  intros Hrefl W Hz. destruct (update_spec p W) as (i0 & E & Hi0 & _ & Hnz).
  pose proof (wf_length _ W) as L. destruct W as [_ D].
  assert (i0 = deg_ p) as ->.
  { destruct (decide (i0 < deg_ p)) as [Hlt|]; [|lia].
    specialize (Hnz Hlt). rewrite all_zero_at0 in Hnz by done.
    by rewrite Hrefl in Hnz. }
  rewrite E. f_equal.
  replace (Z.to_nat (deg_ p)) with (length (coef_ p) - 1)%nat by lia.
  rewrite drop_last by lia. rewrite all_zero_at0 by done.
  rewrite to_size_t_nonneg by lia. f_equal. lia.
Qed.

Lemma pget_no_throw (p : Poly T) i : is_throw (pget p i) = false.
Proof. apply vget_no_throw. Qed.

Lemma pupd_no_throw (p : Poly T) i f : is_throw (pupd p i f) = false.
Proof.
  unfold pupd. apply bind_no_throw; [apply vupd_no_throw|done].
Qed.

Lemma update_no_throw (p : Poly T) : is_throw (update p) = false.
Proof.
  unfold update. apply bind_no_throw.
  - apply while_loop_no_throw; [|done].
    intros i. apply bind_no_throw; [apply vget_no_throw|done].
  - intros i. destruct (_ =? _); [done|]. by destruct (_ <=? _).
Qed.

Lemma divmod_step_no_throw (rhs : Poly T) i st :
  is_throw (divmod_step rhs i st) = false.
Proof.
  destruct st as [rem res]. unfold divmod_step.
  apply bind_no_throw; [apply pget_no_throw|]. intros a.
  apply bind_no_throw; [apply pupd_no_throw|]. intros rem'.
  apply bind_no_throw; [apply pget_no_throw|]. intros r0.
  apply bind_no_throw; [|done].
  apply for_loop_no_throw. intros j rem''.
  apply bind_no_throw; [apply pget_no_throw|]. intros rj.
  apply bind_no_throw; [apply pget_no_throw|]. intros r0'.
  apply pupd_no_throw.
Qed.

Lemma poly_divmod_is_throw (lhs rhs : Poly T) :
  is_throw (poly_divmod lhs rhs) = (deg lhs <? deg rhs).
Proof.
  unfold poly_divmod. destruct (deg lhs <? deg rhs); [done|].
  apply bind_no_throw.
  - apply for_loop_no_throw. apply divmod_step_no_throw.
  - intros st. apply bind_no_throw; [apply update_no_throw|done].
Qed.

(** C5: [operator/] throws exactly when the degree of the dividend is
    smaller than the degree of the divisor; in that case it returns
    nothing, in the other case it does not throw. *)
Theorem poly_divmod_throws_iff (lhs rhs : Poly T) :
  (exists msg, poly_divmod lhs rhs = Throw msg) <-> deg lhs < deg rhs.
Proof.
  pose proof (poly_divmod_is_throw lhs rhs) as Ht. split.
  - intros [msg E]. rewrite E in Ht. simpl in Ht.
    apply Z.ltb_lt. by symmetry.
  - intros Hlt. apply Z.ltb_lt in Hlt. rewrite Hlt in Ht.
    destruct (poly_divmod lhs rhs) as [qr|msg| |]; try discriminate.
    by exists msg.
Qed.

Lemma divmod_inner_spec (rhs rem : Poly T) (a : T) i :
  wf rhs -> wf rem -> 0 <= i -> i + deg_ rhs <= deg_ rem ->
  exists rem', divmod_inner rhs a i rem = Ok rem' /\
    deg_ rem' = deg_ rem /\ length (coef_ rem') = length (coef_ rem) /\
    forall k : nat,
      at0 (coef_ rem') k =
      if decide (i < Z.of_nat k <= i + deg_ rhs)
      then (at0 (coef_ rem) k
            - at0 (coef_ rhs) (k - Z.to_nat i) * a / at0 (coef_ rhs) 0)%S
      else at0 (coef_ rem) k.
Proof.
  intros W2 W1 Hi Hd.
  pose proof (wf_length _ W1) as L1. pose proof (wf_length _ W2) as L2.
  destruct W1 as [_ D1], W2 as [_ D2].
  unfold divmod_inner, deg.
  destruct (for_loop_inv
    (fun j r => deg_ r = deg_ rem /\
       length (coef_ r) = length (coef_ rem) /\
       forall k : nat,
         at0 (coef_ r) k =
         if decide (i < Z.of_nat k < i + j)
         then (at0 (coef_ rem) k
               - at0 (coef_ rhs) (k - Z.to_nat i) * a / at0 (coef_ rhs) 0)%S
         else at0 (coef_ rem) k)
    (fun j rem =>
       rj <- pget rhs j ;;
       r0 <- pget rhs 0 ;;
       pupd rem (i + j) (fun r => r - rj * a / r0)%S)
    1 (deg_ rhs + 1) rem) as (r & E & Hdr & Hlr & Hvr).
  - lia.
  - split; [done|]. split; [done|]. intros k.
    destruct (decide _); [lia|done].
  - intros j r Hj (Hdr & Hlr & Hvr).
    unfold pget, pupd. rewrite !vget_at0 by lia. simpl.
    rewrite vupd_in_range by lia. simpl.
    eexists. split; [done|]. simpl. split; [done|].
    split; [by rewrite length_alter|].
    intros k. rewrite at0_alter by lia. rewrite Hvr.
    destruct (decide (Z.to_nat (i + j) = k)) as [Ek|Ek].
    + repeat destruct (decide _); try lia.
      do 4 f_equal. lia.
    + repeat destruct (decide _); try lia; done.
  - exists r. split; [done|]. split; [done|]. split; [done|].
    intros k. rewrite Hvr.
    repeat destruct (decide _); try lia; done.
Qed.

Lemma divmod_step_spec (rhs rem : Poly T) (res : list T) i :
  wf rhs -> wf rem -> 0 <= i -> i + deg_ rhs <= deg_ rem ->
  exists rem',
    divmod_step rhs i (rem, res)
    = Ok (rem', res ++ [(at0 (coef_ rem) (Z.to_nat i) / at0 (coef_ rhs) 0)%S])
    /\ wf rem' /\ deg_ rem' = deg_ rem /\
    forall k : nat,
      at0 (coef_ rem') k =
      if decide (Z.of_nat k = i) then 0%S
      else if decide (i < Z.of_nat k <= i + deg_ rhs)
      then (at0 (coef_ rem) k
            - at0 (coef_ rhs) (k - Z.to_nat i) * at0 (coef_ rem) (Z.to_nat i)
              / at0 (coef_ rhs) 0)%S
      else at0 (coef_ rem) k.
Proof.
  intros W2 W1 Hi Hd.
  pose proof (wf_length _ W1) as L1. pose proof (wf_length _ W2) as L2.
  pose proof W1 as [_ D1]. pose proof W2 as [_ D2].
  unfold divmod_step, pget, pset, pupd.
  rewrite vget_at0 by lia. simpl.
  rewrite vupd_in_range by lia. simpl.
  rewrite vget_at0 by lia. simpl.
  set (rem0 := mkPoly (alter (fun _ => 0%S) (Z.to_nat i) (coef_ rem)) (deg_ rem)).
  assert (wf rem0) as W0.
  { apply wf_intro; simpl; rewrite length_alter; lia. }
  destruct (divmod_inner_spec rhs rem0 (at0 (coef_ rem) (Z.to_nat i)) i)
    as (rem' & E & Hd' & Hl' & Hv'); [done|done|done|simpl; lia|].
  rewrite E. simpl. exists rem'. split; [done|].
  simpl in Hd', Hl'. rewrite length_alter in Hl'.
  split; [apply wf_intro; lia|]. split; [done|].
  intros k. rewrite Hv'. simpl. rewrite !at0_alter by lia.
  repeat destruct (decide _); try lia; done.
Qed.

End TrimAndDivide.

#[export] Instance ExactField_Ring {T : Type} `{EF : ExactField T} : ExactRing T.
Proof. split; [apply (F_R ef_field)|apply ef_eqb]. Qed.

Section FieldLaws.
Context {T : Type} `{EF : ExactField T}.
Add Field Tfield : ef_field.

Lemma div_mul_cancel (a c : T) : c <> 0%S -> (a / c * c)%S = a.
Proof. intros Hc. field. done. Qed.

Lemma s_eqb_refl (x : T) : s_eqb x x = true.
Proof. by apply ef_eqb. Qed.

Lemma s_eqb_false (x y : T) : s_eqb x y = false <-> x <> y.
Proof.
  destruct (s_eqb x y) eqn:E.
  - apply ef_eqb in E. split; [done|]. intros Hn. by destruct Hn.
  - split; [|done]. intros _ Hxy. apply ef_eqb in Hxy. congruence.
Qed.

Lemma at0_drop (l : list T) n k : at0 (drop n l) k = at0 l (n + k).
Proof. unfold at0. by rewrite lookup_drop. Qed.

Lemma conv_snoc (B Q : list T) (q : T) (k : nat) :
  conv B (Q ++ [q]) k
  = (conv B Q k
     + (if decide (length Q <= k /\ k - length Q < length B)%nat
        then at0 B (k - length Q) * q else 0))%S.
Proof.
  unfold conv. rewrite length_app. simpl.
  set (i := length Q).
  assert (forall N,
    sum_if N (fun i' => (i' <=? k)%nat && (k - i' <? i + 1)%nat)
      (fun i' => at0 B i' * at0 (Q ++ [q]) (k - i'))%S
    = (sum_if N (fun i' => (i' <=? k)%nat && (k - i' <? i)%nat)
         (fun i' => at0 B i' * at0 Q (k - i'))%S
       + (if decide (i <= k /\ k - i < N)%nat
          then at0 B (k - i) * q else 0))%S) as HN; [|apply HN].
  induction N as [|N IH]; [simpl|cbn [sum_if]].
  - destruct (decide _); [lia|ring].
  - rewrite IH. clear IH.
    destruct (N <=? k)%nat eqn:E1; cbn [andb].
    + apply Nat.leb_le in E1.
      destruct (Nat.ltb_spec (k - N) (i + 1)) as [E2|E2];
        destruct (Nat.ltb_spec (k - N) i) as [E3|E3]; try lia.
      * rewrite at0_app. fold i.
        repeat destruct (decide _); try lia; ring.
      * rewrite at0_app. fold i.
        replace (k - N - i)%nat with 0%nat by lia.
        replace (k - i)%nat with N by lia.
        repeat destruct (decide _); try lia. change (at0 [q] 0) with q. ring.
      * repeat destruct (decide _); try lia; ring.
    + apply Nat.leb_gt in E1. repeat destruct (decide _); try lia; ring.
Qed.

Lemma conv_nil (B : list T) k : conv B [] k = 0%S.
Proof.
  unfold conv. apply sum_if_false. intros i _. simpl.
  by rewrite andb_false_r.
Qed.

Lemma divmod_loop_spec (A B : Poly T) :
  wf A -> wf B -> deg_ B <= deg_ A -> at0 (coef_ B) 0 <> 0%S ->
  exists rem Q,
    for_loop 0 (to_size_t (deg A - deg B) + 1) (divmod_step B) (A, [])
    = Ok (rem, Q) /\
    wf rem /\ deg_ rem = deg_ A /\
    Z.of_nat (length Q) = deg_ A - deg_ B + 1 /\
    (forall k : nat, Z.of_nat k < deg_ A - deg_ B + 1 ->
                     at0 (coef_ rem) k = 0%S) /\
    (forall k : nat,
       at0 (coef_ A) k = (conv (coef_ B) Q k + at0 (coef_ rem) k)%S).
Proof.
  intros WA WB Hle Hb0.
  pose proof (wf_length _ WA) as LA. pose proof (wf_length _ WB) as LB.
  pose proof WA as [_ DA]. pose proof WB as [_ DB].
  unfold deg. rewrite to_size_t_nonneg by lia.
  destruct (for_loop_inv
    (fun j st => wf (fst st) /\ deg_ (fst st) = deg_ A /\
       Z.of_nat (length (snd st)) = j /\
       (forall k : nat, Z.of_nat k < j -> at0 (coef_ (fst st)) k = 0%S) /\
       (forall k : nat,
          at0 (coef_ A) k
          = (conv (coef_ B) (snd st) k + at0 (coef_ (fst st)) k)%S))
    (divmod_step B) 0 (deg_ A - deg_ B + 1) (A, []))
    as ([rem Q] & E & Hr); [lia| | |].
  - simpl. split; [done|]. split; [done|]. split; [done|].
    split; [intros; lia|]. intros k. rewrite conv_nil. ring.
  - intros j [rem Q] Hj (Wr & Dr & LQ & Hz & Hv). simpl in *.
    destruct (divmod_step_spec B rem Q j) as (rem' & E & Wr' & Dr' & Hv');
      [done|done|lia|lia|].
    eexists. split; [exact E|]. simpl.
    split; [done|]. split; [lia|].
    split; [rewrite length_app; simpl; lia|].
    split.
    + intros k Hk. rewrite Hv'.
      repeat destruct (decide _); try lia; [done|]. apply Hz. lia.
    + intros k. rewrite conv_snoc, Hv', Hv.
      replace (Z.to_nat j) with (length Q) by lia.
      repeat destruct (decide _); try lia.
      * replace k with (length Q) by lia.
        replace (length Q - length Q)%nat with 0%nat by lia. field. done.
      * field. done.
      * ring.
  - exists rem, Q. simpl in Hr. destruct Hr as (? & ? & ? & ? & ?). done.
Qed.

End FieldLaws.

Section ExactDivision.
Context {T : Type} `{EF : ExactField T}.
Add Field Tfield2 : ef_field.

Lemma poly_ext (p q : Poly T) :
  coef_ p = coef_ q -> deg_ p = deg_ q -> p = q.
Proof. destruct p, q; simpl; intros -> ->; done. Qed.

Lemma one_neq_zero : (1 : T)%S <> 0%S.
Proof. apply (F_1_neq_0 ef_field). Qed.

Lemma divmod_example :
  poly_divmod (Poly_of_vector [1; 0; 0; 0]%S) (Poly_of_vector [1; - (1)]%S)
  = Ok (Poly_of_vector [1; 1; 1]%S, Poly_of_vector [1%S]).
Proof.
  unfold poly_divmod.
  change (deg (Poly_of_vector [1; 0; 0; 0]%S)) with 3.
  change (deg (Poly_of_vector [1; - (1)]%S)) with 1.
  change (3 <? 1) with false. cbv iota.
  change (to_size_t (3 - 1) + 1) with 3.
  assert (for_loop 0 3 (divmod_step (Poly_of_vector [1; - (1)]%S))
            (Poly_of_vector [1; 0; 0; 0]%S, [])
          = Ok (mkPoly [0; 0; 0; 1]%S 3, [1; 1; 1]%S)) as ->.
  { cbv -[s_zero s_one s_add s_sub s_mul s_div s_opp].
    assert ((1 / 1)%S = (1 : T)%S) as E1 by (field; apply one_neq_zero).
    assert ((0 - - (1) * 1 / 1)%S = (1 : T)%S) as E2
      by (field; apply one_neq_zero).
    repeat (rewrite E1 || rewrite E2). done. }
  simpl bind. unfold update. simpl while_loop.
  simpl.
  rewrite !s_eqb_refl. simpl.
  replace (s_eqb 1%S 0%S) with false
    by (symmetry; apply s_eqb_false, one_neq_zero).
  simpl. done.
Qed.

(** C1, as the code has it, over an exact scalar type (a field): for a
    divisor of degree at least 1 the remainder has a smaller degree than
    the divisor; for a constant divisor it is the zero polynomial [[0]],
    whose stored degree is 0 and not smaller. In both cases
    [A = B * quotient + remainder]. *)
Theorem divmod_correct :
  (forall A B : Poly T,
     wf A -> wf B -> deg B <= deg A -> at0 (coef_ B) 0 <> 0%S ->
     exists q r M,
       poly_divmod A B = Ok (q, r) /\ wf q /\ wf r /\
       poly_mul B q = Ok M /\ poly_add M r = Ok A /\
       (1 <= deg B -> deg r < deg B) /\
       (deg B = 0 -> r = mkPoly [0%S] 0)) /\
  poly_divmod (Poly_of_vector [1; 0; 0; 0]%S) (Poly_of_vector [1; - (1)]%S)
  = Ok (Poly_of_vector [1; 1; 1]%S, Poly_of_vector [1%S]).
Proof.
  split; [|apply divmod_example]. intros A B.
  unfold deg. intros WA WB Hle Hb0.
  pose proof (wf_length _ WA) as LA. pose proof (wf_length _ WB) as LB.
  pose proof WA as [_ DA]. pose proof WB as [_ DB].
  destruct (divmod_loop_spec A B WA WB Hle Hb0)
    as (rem & Q & E & Wr & Dr & LQ & Hz & Hv).
  destruct (update_spec rem Wr) as (i0 & Eu & Hi0 & Hz0 & Hnz0).
  pose proof (wf_length _ Wr) as Lr. pose proof Wr as [_ Dr'].
  assert (forall k : nat, Z.of_nat k < i0 -> at0 (coef_ rem) k = 0%S) as Hz0'.
  { intros k Hk. apply ef_eqb. by apply Hz0. }
  assert (deg_ A - deg_ B + 1 <= i0 \/ i0 = deg_ A) as Hi0'.
  { destruct (decide (i0 < deg_ rem)) as [Hlt|]; [|lia].
    left. specialize (Hnz0 Hlt). apply s_eqb_false in Hnz0.
    destruct (decide (deg_ A - deg_ B + 1 <= i0)); [done|].
    destruct Hnz0. apply Hz. lia. }
  remember (mkPoly (drop (Z.to_nat i0) (coef_ rem)) (to_size_t (deg_ rem - i0)))
    as r eqn:Er.
  assert (wf r) as Wrr by (subst r; by apply drop_wf).
  assert (wf (Poly_of_vector Q)) as Wq.
  { apply wf_Poly_of_vector. destruct Q; simpl in *; [lia|done]. }
  destruct (poly_mul_spec B (Poly_of_vector Q) WB Wq) as (M & EM & WM & DM & VM).
  pose proof (wf_length _ WM) as LM. pose proof WM as [_ DM'].
  assert (deg_ (Poly_of_vector Q) = deg_ A - deg_ B) as Dq.
  { simpl. rewrite to_size_t_nonneg by lia. lia. }
  assert (length (coef_ r) = (length (coef_ rem) - Z.to_nat i0)%nat) as Lrr.
  { subst r. simpl. by rewrite length_drop. }
  assert (deg_ r = deg_ rem - i0) as Drr.
  { subst r. simpl. by rewrite to_size_t_nonneg by lia. }
  assert (forall j, at0 (coef_ r) j = at0 (coef_ rem) (Z.to_nat i0 + j))
    as Hr_at by (intros j; subst r; apply at0_drop).
  destruct (plus_spec M r WM Wrr ltac:(lia)) as (S & ES & DS & LS & VS).
  exists (Poly_of_vector Q), r, M.
  split.
  { unfold poly_divmod. unfold deg in *.
    replace (deg_ A <? deg_ B) with false by (symmetry; apply Z.ltb_ge; lia).
    rewrite E. simpl. rewrite Eu. done. }
  split; [done|]. split; [done|]. split; [done|]. split.
  { rewrite poly_add_ge by lia. rewrite ES. f_equal.
    apply poly_ext; [|lia].
    apply at0_ext; [lia|]. intros k Hk. rewrite VS, VM. simpl.
    rewrite Hv. destruct (decide _) as [Hin|Hout].
    - rewrite Hr_at. do 2 f_equal. lia.
    - rewrite (Hz0' k) by lia. ring. }
  split.
  { intros Hd. lia. }
  intros Hd. rewrite Er.
  assert (i0 = deg_ rem) as ->.
  { destruct (decide (i0 < deg_ rem)) as [Hlt|]; [|lia].
    specialize (Hnz0 Hlt). apply s_eqb_false in Hnz0.
    destruct Hnz0. apply Hz. lia. }
  replace (Z.to_nat (deg_ rem)) with (length (coef_ rem) - 1)%nat by lia.
  rewrite drop_last by lia. rewrite Hz by lia.
  rewrite to_size_t_nonneg by lia. f_equal. lia.
Qed.

(** C7, over an exact scalar type (a field in which no [T(n)], [n > 0],
    is zero): the derivative of the antiderivative of [A] compares equal
    to [A], and the antiderivative ends with the coefficient zero. *)
Theorem der_antider (A : Poly T) :
  wf A -> (forall n : Z, 0 < n -> s_of_Z n <> 0%S) ->
  exists P R,
    antider A = Ok P /\ last (coef_ P) = Some 0%S /\
    der P = Ok R /\ poly_eqb R A = true.
Proof.
  intros WA Hchar.
  pose proof (wf_length _ WA) as LA. pose proof WA as [_ DA].
  destruct (antider_spec A WA) as (P & EP & WP & LP & VP).
  destruct (der_spec P WP) as (R & ER' & WR & LR & VR).
  pose proof WP as [_ DP].
  exists P, R. split; [done|]. split.
  { rewrite last_lookup, LP. simpl. rewrite lookup_at0 by lia. f_equal.
    rewrite VP. repeat destruct (decide _); try lia; done. }
  split; [done|].
  unfold poly_eqb, GetCoef. apply coef_eqb_eq.
  apply at0_ext; [lia|]. intros k Hk. rewrite VR.
  destruct (decide (length (coef_ P) = 2)%nat) as [E2|E2].
  - destruct (decide (k = 0)%nat) as [->|]; [|lia].
    rewrite VP. repeat destruct (decide _); try lia; done.
  - destruct (decide (k < length (coef_ P) - 1)%nat); [|lia]. rewrite VP.
    repeat destruct (decide _); try lia.
    replace (deg_ P - Z.of_nat k) with (deg_ A - Z.of_nat k + 1) by lia.
    apply div_mul_cancel. apply Hchar. lia.
Qed.

End ExactDivision.

Section InvariantSteps.
Context {T : Type} `{Scalar T} `{RealScalar T}.

Lemma mul_assign_scalar_wf (p : Poly T) (v : T) :
  wf p -> exists r, mul_assign_scalar p v = Ok r /\ wf r.
Proof.
  intros W. pose proof (wf_length _ W) as L. destruct W as [_ D].
  unfold mul_assign_scalar.
  destruct (for_loop_inv (fun _ c => length c = length (coef_ p))
    (fun i c => vupd c i (fun x => x * v)%S) 0 (deg_ p + 1) (coef_ p))
    as (c & -> & Hc); [lia|done| |].
  - intros i c Hi Hc. rewrite vupd_in_range by lia.
    eexists. split; [done|]. by rewrite length_alter.
  - simpl. eexists. split; [done|]. apply wf_intro; simpl; lia.
Qed.

Lemma div_assign_scalar_wf (p : Poly T) (v : T) :
  wf p -> exists r, div_assign_scalar p v = Ok r /\ wf r.
Proof.
  intros W. pose proof (wf_length _ W) as L. destruct W as [_ D].
  unfold div_assign_scalar.
  destruct (for_loop_inv (fun _ c => length c = length (coef_ p))
    (fun i c => x <- vget c i ;; vset c i (x / v)%S) 0 (deg_ p + 1) (coef_ p))
    as (c & -> & Hc); [lia|done| |].
  - intros i c Hi Hc. rewrite vget_at0 by lia. simpl. unfold vset.
    rewrite vupd_in_range by lia.
    eexists. split; [done|]. by rewrite length_alter.
  - simpl. eexists. split; [done|]. apply wf_intro; simpl; lia.
Qed.

Lemma add_assign_scalar_wf (p : Poly T) (v : T) :
  wf p -> exists r, add_assign_scalar p v = Ok r /\ wf r.
Proof.
  intros W. pose proof (wf_length _ W) as L. pose proof W as [_ D].
  unfold add_assign_scalar, pupd. rewrite vupd_in_range by lia. simpl.
  eexists. split; [done|]. apply wf_intro; simpl; rewrite length_alter; lia.
Qed.

(** The loops of [operator*(p, value)] and [operator/(p, value)]. *)
Lemma fill_loop_wf (p : Poly T) (g : T -> T) :
  wf p ->
  exists r,
    for_loop 0 (deg p + 1)
      (fun i ans => x <- pget p i ;; pset ans i (g x))
      (Poly_fill (deg p) 0%S) = Ok r /\ wf r.
Proof.
  intros W. pose proof (wf_length _ W) as L. destruct W as [_ D].
  unfold deg.
  destruct (for_loop_inv
    (fun _ (a : Poly T) => deg_ a = deg_ p /\
                           length (coef_ a) = length (coef_ p))
    (fun i ans => x <- pget p i ;; pset ans i (g x))
    0 (deg_ p + 1) (Poly_fill (deg_ p) 0%S)) as (r & -> & Hd & Hl).
  - lia.
  - simpl. split; [done|]. rewrite length_replicate. lia.
  - intros i a Hi [Hd Hl]. unfold pget, pset, pupd.
    rewrite vget_at0 by lia. simpl. rewrite vupd_in_range by lia. simpl.
    eexists. split; [done|]. simpl. by rewrite length_alter.
  - eexists. split; [done|]. apply wf_intro; lia.
Qed.

Lemma poly_scale_wf (p : Poly T) (v : T) :
  wf p -> exists r, poly_scale p v = Ok r /\ wf r.
Proof.
  intros W. unfold poly_scale. destruct (s_eqb v 0%S).
  - eexists. split; [done|]. by apply wf_Poly_of_vector.
  - by apply fill_loop_wf.
Qed.

Lemma poly_div_scalar_wf (p : Poly T) (v : T) :
  wf p -> exists r, poly_div_scalar p v = Ok r /\ wf r.
Proof. intros W. by apply fill_loop_wf. Qed.

Lemma update_real_wf (p : Poly T) :
  wf p -> exists r, update_real p = Ok r /\ wf r.
Proof.
  intros W. pose proof (wf_length _ W) as L. pose proof W as [_ D].
  unfold update_real.
  destruct (trim_scan (fun c => r_ltb (r_abs c) (r_of_Q (1 # 10 ^ 8)))
              (coef_ p) (deg_ p) (S (length (coef_ p))) 0)
    as (i0 & E & Hi0 & _); [done|lia|lia|].
  rewrite E. simpl.
  replace (i0 =? deg_ p + 1) with false by (symmetry; apply Z.eqb_neq; lia).
  replace (i0 <=? Z.of_nat (length (coef_ p))) with true
    by (symmetry; apply Z.leb_le; lia).
  eexists. split; [done|]. apply drop_wf; [done|lia].
Qed.

Lemma divmod_wf (A B : Poly T) :
  wf A -> wf B -> deg B <= deg A ->
  exists q r, poly_divmod A B = Ok (q, r) /\ wf q /\ wf r /\
              deg_ q = deg_ A - deg_ B.
Proof.
  unfold deg. intros WA WB Hle.
  pose proof (wf_length _ WA) as LA. pose proof (wf_length _ WB) as LB.
  pose proof WA as [_ DA]. pose proof WB as [_ DB].
  unfold poly_divmod, deg.
  replace (deg_ A <? deg_ B) with false by (symmetry; apply Z.ltb_ge; lia).
  rewrite to_size_t_nonneg by lia.
  destruct (for_loop_inv
    (fun j st => wf (fst st) /\ deg_ (fst st) = deg_ A /\
                 Z.of_nat (length (snd st)) = j)
    (divmod_step B) 0 (deg_ A - deg_ B + 1) (A, []))
    as ([rem Q] & -> & Wr & Dr & LQ); [lia|done| |].
  - intros j [rem Q] Hj (Wr & Dr & LQ). simpl in *.
    destruct (divmod_step_spec B rem Q j) as (rem' & E & Wr' & Dr' & _);
      [done|done|lia|lia|].
    eexists. split; [exact E|]. simpl.
    split; [done|]. split; [lia|]. rewrite length_app. simpl. lia.
  - simpl in *. destruct (update_wf rem Wr) as (r & -> & Wrr). simpl.
    eexists _, _. split; [done|].
    split; [apply wf_Poly_of_vector; destruct Q; simpl in *; [lia|done]|].
    split; [done|]. simpl. rewrite to_size_t_nonneg by lia. lia.
Qed.

Lemma div_assign_wf (A B : Poly T) :
  wf A -> wf B -> deg B <= deg A ->
  exists q, div_assign A B = Ok q /\ wf q /\ deg_ q = deg_ A - deg_ B.
Proof.
  intros WA WB Hle. unfold div_assign.
  destruct (divmod_wf A B WA WB Hle) as (q & r & -> & Wq & _ & Dq).
  simpl. by exists q.
Qed.

Lemma to_int_small z : 0 <= z < 2 ^ 31 -> to_int z = z.
Proof. intros Hz. unfold to_int. rewrite Z.mod_small; lia. Qed.

Lemma resize_wf (p : Poly T) d :
  wf p -> deg_ p < 2 ^ 31 -> 0 <= d <= deg_ p ->
  exists r, resize p d = Ok r /\ wf r /\ deg_ r = d.
Proof.
  intros W Hsmall Hd. pose proof (wf_length _ W) as L. pose proof W as [_ D].
  unfold resize. rewrite to_int_small by lia.
  replace (0 <=? deg_ p - d) with true by (symmetry; apply Z.leb_le; lia).
  replace (deg_ p - d <=? Z.of_nat (length (coef_ p))) with true
    by (symmetry; apply Z.leb_le; lia).
  simpl. eexists. split; [done|]. rewrite to_size_t_nonneg by lia.
  split; [|done]. apply wf_intro; simpl; rewrite length_drop; lia.
Qed.

End InvariantSteps.

Section Invariant.
Context {T : Type} `{Scalar T} `{RealScalar T}.

(** C3, as the code has it: [normalize] returns the leading coefficient
    in every case, also when it is zero (it never returns 1 in its place);
    it divides every coefficient by it unless it compares equal to zero,
    and then leaves the polynomial as it is. *)
Theorem normalize_spec (a0 : T) (rest : list T) (d : Z) :
  normalize (mkPoly (a0 :: rest) d)
  = Ok (if s_eqb a0 0%S then mkPoly (a0 :: rest) d
        else mkPoly ((fun c => c / a0)%S <$> a0 :: rest) d,
        a0).
Proof. unfold normalize. simpl. by destruct (s_eqb a0 0%S). Qed.

(** C9, as the code has it: on polynomials that satisfy the invariant,
    every operation completes with the invariant, under the conditions the
    code needs: a non-empty list (construction from a list), a degree from
    0 to [2^64 - 2] (construction by degree: [deg + 1] wraps around at
    [2^64 - 1]), a write at an index from 0 to the degree, a divisor of
    degree not above the dividend's ([/] and [/=]), a degree below [2^31]
    and a target between 0 and the degree ([resize]). [update] turns an
    all-zero polynomial into [[0]]. *)
Theorem wf_preserved (p q z : Poly T) (v : T) (l : list T) (d i : Z)
    (f : T -> T) :
  wf p -> wf q -> wf z ->
  wf (@Poly_default T _) /\ wf (Poly_of_value v) /\
  (l <> [] -> wf (Poly_of_vector l)) /\
  (0 <= d < 2 ^ 64 - 1 -> wf (Poly_fill d v)) /\
  wf (Clear p) /\
  (0 <= i <= deg_ p -> completes_wf (pupd p i f)) /\
  (exists r a, normalize p = Ok (r, a) /\ wf r) /\
  completes_wf (antider p) /\ completes_wf (der p) /\
  completes_wf (poly_mul p q) /\ completes_wf (poly_add p q) /\
  completes_wf (poly_sub p q) /\ completes_wf (poly_neg p) /\
  completes_wf (mul_assign p q) /\ completes_wf (add_assign p q) /\
  completes_wf (sub_assign p q) /\
  completes_wf (poly_scale p v) /\ completes_wf (scale_poly v p) /\
  completes_wf (poly_div_scalar p v) /\
  completes_wf (mul_assign_scalar p v) /\
  completes_wf (add_assign_scalar p v) /\
  completes_wf (div_assign_scalar p v) /\
  (deg q <= deg p ->
   exists quo rem, poly_divmod p q = Ok (quo, rem) /\ wf quo /\ wf rem) /\
  (deg q <= deg p -> completes_wf (div_assign p q)) /\
  completes_wf (update p) /\ completes_wf (update_real p) /\
  (deg_ p < 2 ^ 31 -> 0 <= d <= deg_ p -> completes_wf (resize p d)) /\
  (s_eqb (0%S : T) 0%S = true -> all_zero (coef_ z) ->
   update z = Ok (mkPoly [0%S] 0)).
Proof.
  intros Wp Wq Wz. unfold completes_wf.
  split; [apply wf_intro; simpl; lia|].
  split; [apply wf_intro; simpl; lia|].
  split; [apply wf_Poly_of_vector|].
  split; [intros Hd; apply wf_Poly_fill; lia|].
  split; [apply wf_intro; simpl; lia|].
  split.
  { intros Hi. pose proof (wf_length _ Wp) as L. pose proof Wp as [_ D].
    unfold pupd. rewrite vupd_in_range by lia. cbn [bind].
    eexists. split; [done|].
    apply wf_intro; simpl; rewrite length_alter; lia. }
  split; [by apply normalize_wf|].
  split; [destruct (antider_spec p Wp) as (r & ? & ? & _); eauto|].
  split; [destruct (der_spec p Wp) as (r & ? & ? & _); eauto|].
  split; [destruct (poly_mul_spec p q Wp Wq) as (r & ? & ? & _); eauto|].
  split; [by apply poly_add_wf|]. split; [by apply poly_sub_wf|].
  split; [by apply poly_neg_wf|].
  split; [destruct (poly_mul_spec p q Wp Wq) as (r & ? & ? & _); eauto|].
  split; [by apply poly_add_wf|]. split; [by apply poly_sub_wf|].
  split; [by apply poly_scale_wf|].
  split; [by apply poly_scale_wf|]. split; [by apply poly_div_scalar_wf|].
  split; [by apply mul_assign_scalar_wf|].
  split; [by apply add_assign_scalar_wf|].
  split; [by apply div_assign_scalar_wf|].
  split.
  { intros Hle. destruct (divmod_wf p q Wp Wq Hle) as (a & b & ? & ? & ? & _).
    eauto. }
  split.
  { intros Hle. destruct (div_assign_wf p q Wp Wq Hle) as (a & ? & ? & _).
    eauto. }
  split; [by apply update_wf|]. split; [by apply update_real_wf|].
  split.
  { intros Hs Hd. destruct (resize_wf p d Wp Hs Hd) as (r & ? & ? & _).
    eauto. }
  intros Hrefl Hz. by apply update_all_zero.
Qed.

End Invariant.

(** ** The laws on exact rationals *)

Lemma Qc_field_theory :
  field_theory (Q2Qc 0) (Q2Qc 1) Qcplus Qcmult Qcminus Qcopp Qcdiv
    (fun x => Qcdiv (Q2Qc 1) x) (@eq Qc).
Proof.
  destruct Qcft as [R N D I]. constructor; [done|done| |].
  - intros p q. rewrite (D p q), (D (Q2Qc 1) q). by rewrite Qcmult_1_l.
  - intros p Hp. rewrite (D (Q2Qc 1) p). rewrite Qcmult_1_l. by apply I.
Qed.

Lemma Qc_eqb_eq (x y : Qc) : Qc_eq_bool x y = true <-> x = y.
Proof.
  split.
  - apply Qc_eq_bool_correct.
  - intros ->. unfold Qc_eq_bool.
    destruct (Qcanon.Qc_eq_dec y y) as [|n]; [reflexivity|by destruct n].
Qed.

#[export] Instance Qc_ExactField : ExactField Qc.
Proof. split; [apply Qc_field_theory|apply Qc_eqb_eq]. Defined.

#[export] Instance Qc_ExactRing : ExactRing Qc.
Proof. split; [apply (F_R Qc_field_theory)|apply Qc_eqb_eq]. Defined.

Lemma Qc_of_Z_nonzero (n : Z) : 0 < n -> Q2Qc (inject_Z n) <> Q2Qc 0.
Proof.
  intros Hn E. apply (f_equal this) in E.
  assert (inject_Z n == 0)%Q as E'.
  { rewrite <- (Qred_correct (inject_Z n)), <- (Qred_correct 0). simpl in E.
    by rewrite E. }
  unfold Qeq in E'. simpl in E'. lia.
Qed.

(** ** The theorems at concrete polynomials *)

Lemma qpoly_wf (l : list Z) : l <> [] -> wf (qpoly l).
Proof.
  intros Hl. apply wf_Poly_of_vector. by destruct l.
Defined.

Lemma Qc_neq (x y : Qc) : Qeq_bool (this x) (this y) = false -> x <> y.
Proof.
  intros E Hxy. subst y. by rewrite Qeq_bool_refl in E.
Defined.

(** C1 at [x^3] and [x - 1]. *)
Lemma divmod_correct_witness :
  exists q r M,
    poly_divmod (qpoly [1; 0; 0; 0]) (qpoly [1; -1]) = Ok (q, r) /\
    wf q /\ wf r /\
    poly_mul (qpoly [1; -1]) q = Ok M /\
    poly_add M r = Ok (qpoly [1; 0; 0; 0]) /\
    (1 <= deg (qpoly [1; -1]) -> deg r < deg (qpoly [1; -1])) /\
    (deg (qpoly [1; -1]) = 0 -> r = mkPoly [0%S] 0).
Proof.
  apply (proj1 (divmod_correct (T := Qc))).
  - by apply qpoly_wf.
  - by apply qpoly_wf.
  - vm_compute. discriminate.
  - apply Qc_neq. reflexivity.
Defined.

(** C1 fails for a constant divisor: [3x + 1] divided by [2] leaves the
    remainder [[0]], of degree 0, which is not smaller than the degree 0 of
    the divisor. It fails in floating point too: over [double], [29x]
    divided by [7x + 1] gives a quotient and a remainder with
    [B * quotient + remainder = 29.000000000000004 x]. *)
Lemma divmod_constant_divisor :
  (exists q r,
     poly_divmod (qpoly [3; 1]) (qpoly [2]) = Ok (q, r) /\
     (deg (qpoly [2]) <=? deg (qpoly [3; 1])) = true /\
     s_eqb (at0 (coef_ (qpoly [2])) 0) 0%S = false /\
     poly_eqb r (qpoly [0]) = true /\
     (deg r <? deg (qpoly [2])) = false) /\
  (exists q r M S,
     poly_divmod (fpoly [29; 0]) (fpoly [7; 1]) = Ok (q, r) /\
     poly_mul (fpoly [7; 1]) q = Ok M /\ poly_add M r = Ok S /\
     poly_eqb S (fpoly [29; 0]) = false).
Proof.
  split.
  - eexists _, _. split; [vm_compute; reflexivity|].
    repeat split; reflexivity.
  - eexists _, _, _, _. split; [vm_compute; reflexivity|].
    split; [vm_compute; reflexivity|]. split; [vm_compute; reflexivity|].
    vm_compute. reflexivity.
Qed.

(** C2 at [x^2 + 2x + 3] and [4x + 5]. *)
Lemma add_sub_cancel_witness :
  exists S R,
    poly_add (qpoly [1; 2; 3]) (qpoly [4; 5]) = Ok S /\
    poly_sub S (qpoly [4; 5]) = Ok R /\
    coef_ R
    = replicate (length (coef_ (qpoly [4; 5]))
                 - length (coef_ (qpoly [1; 2; 3]))) 0%S
      ++ coef_ (qpoly [1; 2; 3]) /\
    (poly_eqb R (qpoly [1; 2; 3]) = true
     <-> deg_ (qpoly [4; 5]) <= deg_ (qpoly [1; 2; 3])).
Proof.
  apply (add_sub_cancel (T := Qc)); by apply qpoly_wf.
Defined.

(** C2 fails when [B] has the larger degree: [(1 + x) - x] is [[0, 1]],
    which does not compare equal to [[1]]. It fails in floating point too:
    over [double], [(1 + 2^53) - 2^53] is [[0]]. *)
Lemma add_sub_not_cancel :
  (exists S R,
     poly_add (qpoly [1]) (qpoly [1; 0]) = Ok S /\
     poly_sub S (qpoly [1; 0]) = Ok R /\
     poly_eqb R (qpoly [0; 1]) = true /\
     poly_eqb R (qpoly [1]) = false) /\
  (exists S R,
     poly_add (fpoly [1]) (fpoly [2 ^ 53]) = Ok S /\
     poly_sub S (fpoly [2 ^ 53]) = Ok R /\
     poly_eqb R (fpoly [0]) = true /\
     poly_eqb R (fpoly [1]) = false).
Proof.
  split.
  - eexists _, _. split; [vm_compute; reflexivity|].
    split; [vm_compute; reflexivity|]. split; reflexivity.
  - eexists _, _. split; [vm_compute; reflexivity|].
    split; [vm_compute; reflexivity|]. split; vm_compute; reflexivity.
Qed.

(** C3 fails for a zero leading coefficient: [normalize] on [2x + 1] stored
    as [[0, 2, 1]] returns 0, not 1 (and leaves the polynomial as it is). *)
Lemma normalize_zero_leading :
  exists r a,
    normalize (qpoly [0; 2; 1]) = Ok (r, a) /\
    poly_eqb r (qpoly [0; 2; 1]) = true /\
    s_eqb a 0%S = true /\ s_eqb a 1%S = false.
Proof.
  eexists _, _. split; [vm_compute; reflexivity|].
  repeat split; reflexivity.
Qed.

(** C7 at [3x^2 + 2x + 1]. *)
Lemma der_antider_witness :
  exists P R,
    antider (qpoly [3; 2; 1]) = Ok P /\ last (coef_ P) = Some 0%S /\
    der P = Ok R /\ poly_eqb R (qpoly [3; 2; 1]) = true.
Proof.
  apply (der_antider (T := Qc)).
  - by apply qpoly_wf.
  - apply Qc_of_Z_nonzero.
Defined.

(** C7 fails in floating point: over [double] the antiderivative of
    [29x^6] is [(29/7) x^7], and its derivative is
    [29.000000000000004 x^6]. *)
Lemma der_antider_rounds :
  exists P R,
    antider (fpoly [29; 0; 0; 0; 0; 0; 0]) = Ok P /\ der P = Ok R /\
    poly_eqb R (fpoly [29; 0; 0; 0; 0; 0; 0]) = false.
Proof.
  eexists _, _. split; [vm_compute; reflexivity|].
  split; [vm_compute; reflexivity|]. vm_compute. reflexivity.
Qed.

Lemma xpoly_wf (l : list Q) : l <> [] -> wf (xpoly l).
Proof.
  intros Hl. apply wf_Poly_of_vector. by destruct l.
Defined.

(** C9 at [x + 2], [3] and the all-zero polynomial [0x^2 + 0x + 0], with
    every condition of the theorem met. *)
Lemma wf_preserved_witness :
  wf (@Poly_default Qx _) /\
  wf (Poly_of_value (Some (Q2Qc 2))) /\
  wf (Poly_of_vector [Some (Q2Qc 1)]) /\
  wf (Poly_fill 1 (Some (Q2Qc 2))) /\
  wf (Clear (xpoly [1; 2]%Q)) /\
  completes_wf (pupd (xpoly [1; 2]%Q) 0 (fun x => x)) /\
  (exists r a, normalize (xpoly [1; 2]%Q) = Ok (r, a) /\ wf r) /\
  completes_wf (antider (xpoly [1; 2]%Q)) /\
  completes_wf (der (xpoly [1; 2]%Q)) /\
  completes_wf (poly_mul (xpoly [1; 2]%Q) (xpoly [3]%Q)) /\
  completes_wf (poly_add (xpoly [1; 2]%Q) (xpoly [3]%Q)) /\
  completes_wf (poly_sub (xpoly [1; 2]%Q) (xpoly [3]%Q)) /\
  completes_wf (poly_neg (xpoly [1; 2]%Q)) /\
  completes_wf (mul_assign (xpoly [1; 2]%Q) (xpoly [3]%Q)) /\
  completes_wf (add_assign (xpoly [1; 2]%Q) (xpoly [3]%Q)) /\
  completes_wf (sub_assign (xpoly [1; 2]%Q) (xpoly [3]%Q)) /\
  completes_wf (poly_scale (xpoly [1; 2]%Q) (Some (Q2Qc 2))) /\
  completes_wf (scale_poly (Some (Q2Qc 2)) (xpoly [1; 2]%Q)) /\
  completes_wf (poly_div_scalar (xpoly [1; 2]%Q) (Some (Q2Qc 2))) /\
  completes_wf (mul_assign_scalar (xpoly [1; 2]%Q) (Some (Q2Qc 2))) /\
  completes_wf (add_assign_scalar (xpoly [1; 2]%Q) (Some (Q2Qc 2))) /\
  completes_wf (div_assign_scalar (xpoly [1; 2]%Q) (Some (Q2Qc 2))) /\
  (exists quo rem,
     poly_divmod (xpoly [1; 2]%Q) (xpoly [3]%Q) = Ok (quo, rem) /\
     wf quo /\ wf rem) /\
  completes_wf (div_assign (xpoly [1; 2]%Q) (xpoly [3]%Q)) /\
  completes_wf (update (xpoly [1; 2]%Q)) /\
  completes_wf (update_real (xpoly [1; 2]%Q)) /\
  completes_wf (resize (xpoly [1; 2]%Q) 1) /\
  update (xpoly [0; 0; 0]%Q) = Ok (mkPoly [0%S] 0).
Proof.
  assert (deg (xpoly [3]%Q) <= deg (xpoly [1; 2]%Q)) as Hle
    by (vm_compute; discriminate).
  assert (deg_ (xpoly [1; 2]%Q) < 2 ^ 31) as Hsmall by (vm_compute; reflexivity).
  assert (0 <= 1 <= deg_ (xpoly [1; 2]%Q)) as Htarget
    by (split; vm_compute; discriminate).
  assert (0 <= 0 <= deg_ (xpoly [1; 2]%Q)) as Hwrite
    by (split; vm_compute; discriminate).
  assert (all_zero (coef_ (xpoly [0; 0; 0]%Q))) as Hzero
    by (repeat constructor).
  destruct (wf_preserved (T := Qx) (xpoly [1; 2]%Q) (xpoly [3]%Q) (xpoly [0; 0; 0]%Q)
              (Some (Q2Qc 2)) [Some (Q2Qc 1)] 1 0 (fun x => x))
    as (H1 & H2 & H3 & H4 & H5 & H6 & H7 & H8 & H9 & H10 & H11 & H12 & H13 & H14 & H15 & H16 & H17 & H18 & H19 & H20 & H21 & H22 & H23 & H24 & H25 & H26 & H27 & H28);
    [by apply xpoly_wf..|].
  exact (conj H1
     (conj H2
     (conj (H3 ltac:(discriminate))
     (conj (H4 ltac:(lia))
     (conj H5
     (conj (H6 Hwrite)
     (conj H7
     (conj H8
     (conj H9
     (conj H10
     (conj H11
     (conj H12
     (conj H13
     (conj H14
     (conj H15
     (conj H16
     (conj H17
     (conj H18
     (conj H19
     (conj H20
     (conj H21
     (conj H22
     (conj (H23 Hle)
     (conj (H24 Hle)
     (conj H25
     (conj H26
     (conj (H27 Hsmall Htarget)
     (H28 eq_refl Hzero)))))))))))))))))))))))))))).
Defined.

(** C9 fails in three places: a polynomial built from the empty vector has
    no coefficient (and the degree [2^64 - 1]); [resize(-1)] leaves no
    coefficient either; [update_real] on a polynomial whose coefficients are
    all below the tolerance keeps the last of them instead of giving the
    zero polynomial. *)
Lemma invariant_broken :
  (coef_ (@Poly_of_vector Qc []) = [] /\
   deg_ (@Poly_of_vector Qc []) = 2 ^ 64 - 1) /\
  resize (qpoly [1; 2; 3]) (-1) = Ok (mkPoly [] (2 ^ 64 - 1)) /\
  exists r,
    update_real (xpoly [1 # 10 ^ 9; 1 # 10 ^ 9]%Q) = Ok r /\
    deg_ r = 0 /\
    poly_eqb r (xpoly [0]%Q) = false.
Proof.
  split; [split; reflexivity|]. split; [reflexivity|].
  eexists. split; [vm_compute; reflexivity|]. split; reflexivity.
Qed.

(** ** Properties kept by every turn of a loop *)

Lemma for_steps_pres {St} (P : St -> Prop) body n i (s s' : St) :
  P s -> (forall j s s1, P s -> body j s = Ok s1 -> P s1) ->
  for_steps n i body s = Ok s' -> P s'.
Proof.
  intros Hs Hstep. revert i s Hs. induction n as [|n IH]; intros i s Hs E.
  - simpl in E. by injection E as <-.
  - simpl in E. apply bind_Ok in E as (s1 & E1 & E2).
    apply (IH (i + 1) s1); [|done]. by apply (Hstep i s).
Qed.

Lemma for_loop_pres {St} (P : St -> Prop) body lo hi (s s' : St) :
  P s -> (forall j s s1, P s -> body j s = Ok s1 -> P s1) ->
  for_loop lo hi body s = Ok s' -> P s'.
Proof. apply for_steps_pres. Qed.

Section ClosedFormsAndEigen.
Context {T C : Type}.
Context {ST : Scalar T} {RT : RealScalar T}.
Context {SC : Scalar C} {CT : ComplexScalar T C} {ET : EigenSolver T C}.

Lemma multiplicity_sum_cons (r : Z * C) (rs : @roots C) :
  multiplicity_sum (r :: rs) = fst r + multiplicity_sum rs.
Proof. done. Qed.

Lemma multiplicity_sum_app (r1 r2 : @roots C) :
  multiplicity_sum (r1 ++ r2) = multiplicity_sum r1 + multiplicity_sum r2.
Proof.
  induction r1 as [|r r1 IH]; [done|].
  rewrite <- app_comm_cons, !multiplicity_sum_cons, IH. lia.
Qed.





Lemma normalize_deg (p r : Poly T) a :
  normalize p = Ok (r, a) ->
  deg_ r = deg_ p /\ length (coef_ r) = length (coef_ p).
Proof.
  unfold normalize. intros E. apply bind_Ok in E as (a0 & _ & E).
  destruct (negb _); injection E as <- <-; simpl; [|done].
  by rewrite length_fmap.
Qed.


End ClosedFormsAndEigen.

Section Laguerre.
Context {T C : Type}.
Context {ST : Scalar T} {RT : RealScalar T}.
Context {SC : Scalar C} {CT : ComplexScalar T C} {ET : EigenSolver T C}.








End Laguerre.

(** ** The root solver at concrete polynomials *)




(** ** Sampling a curve *)

Lemma while_loop_last {St} (Q : St -> Prop) fuel cond body (s s' : St) :
  (forall s0 s1, body s0 = Ok s1 -> Q s1) ->
  while_loop fuel cond body s = Ok s' -> s' = s \/ Q s'.
Proof.
  intros Hb. revert s. induction fuel as [|fuel IH]; intros s E; [done|].
  simpl in E. apply bind_Ok in E as (b & _ & E). destruct b.
  - apply bind_Ok in E as (s1 & E1 & E2). right.
    destruct (IH s1 E2) as [->|HQ]; [by apply (Hb s)|done].
  - injection E as <-. by left.
Qed.

Section Sampling.
Context {T : Type} {ST : Scalar T} {RT : RealScalar T} {TT : Tools T}.

(** Whenever [get_points] completes, fewer than [N] samples were written:
    the turn that writes sample [N - 1] goes on to read [ts[N]]. *)
Lemma get_points_loop_index (c : NURBS T) N pts t i :
  (forall a b : T, Z.of_nat (length (linspace a b N)) = N) ->
  1 <= N -> get_points_loop c N = Ok (pts, t, i) -> i < N.
Proof.
  intros Hts HN E. unfold get_points_loop in E.
  apply bind_Ok in E as (a & _ & E). apply bind_Ok in E as (b & _ & E).
  apply bind_Ok in E as (t0 & _ & E).
  apply (for_loop_pres (fun st : sampling (list T) => snd st < N)
           _ _ _ _ (pts, t, i)) in E; [done|simpl; lia|].
  intros j [[pts0 t1] i0] [[pts1 t2] i1] Hi0 Ew. cbn [snd fst] in Hi0 |- *.
  apply (while_loop_last (fun st : sampling (list T) => snd st < N))
    in Ew.
  - by destruct Ew as [[= -> -> ->]|HQ].
  - intros [[q0 u0] j0] [[q1 u1] j1] Eb. cbn [snd].
    apply bind_Ok in Eb as (q' & _ & Eb).
    apply bind_Ok in Eb as (u' & Eu & [= _ _ <-]).
    apply vget_Ok in Eu as [_ Eu]. apply lookup_lt_Some in Eu.
    specialize (Hts a b). lia.
Qed.

Lemma get_dy_dx_points_loop_index (c : NURBS T) N pts t i :
  (forall a b : T, Z.of_nat (length (linspace a b N)) = N) ->
  1 <= N -> get_dy_dx_points_loop c N = Ok (pts, t, i) -> i < N.
Proof.
  intros Hts HN E. unfold get_dy_dx_points_loop in E.
  apply bind_Ok in E as (a & _ & E). apply bind_Ok in E as (b & _ & E).
  apply bind_Ok in E as (t0 & _ & E).
  apply (for_loop_pres (fun st : sampling T => snd st < N)
           _ _ _ _ (pts, t, i)) in E; [done|simpl; lia|].
  intros j [[pts0 t1] i0] [[pts1 t2] i1] Hi0 Ew. cbn [snd fst] in Hi0 |- *.
  apply bind_Ok in Ew as (s1 & _ & Ew). apply bind_Ok in Ew as (px & _ & Ew).
  apply bind_Ok in Ew as (s2 & _ & Ew). apply bind_Ok in Ew as (py & _ & Ew).
  apply bind_Ok in Ew as (s3 & _ & Ew).
  apply (while_loop_last (fun st : sampling T => snd st < N)) in Ew.
  - by destruct Ew as [[= -> -> ->]|HQ].
  - intros [[q0 u0] j0] [[q1 u1] j1] Eb. cbn [snd].
    do 9 (apply bind_Ok in Eb as (? & _ & Eb)).
    apply bind_Ok in Eb as (v & _ & Eb).
    apply bind_Ok in Eb as (u' & Eu & [= _ _ <-]).
    apply vget_Ok in Eu as [_ Eu]. apply lookup_lt_Some in Eu.
    specialize (Hts a b). lia.
Qed.

End Sampling.

(** C10 on the straight line with [N = 2]: both sampling operations read
    the parameter array at index [N] after the last sample, an access out of
    range. With one more element behind the [N] parameters they complete, with
    the [N] samples: that read is the only access out of range. *)
Theorem sampling_reads_past_end :
  exists c,
    line_curve = Ok c /\
    get_points c 2 = OutOfRange /\
    get_dy_dx_points c 2 = OutOfRange /\
    (exists p0 p1,
       get_points (TT := Qx_Tools_padded) c 2 = Ok [p0; p1] /\
       coef_eqb p0 [s_of_Z 0; s_of_Z 0] = true /\
       coef_eqb p1 [s_of_Z 1; s_of_Z 2] = true) /\
    (exists s0 s1,
       get_dy_dx_points (TT := Qx_Tools_padded) c 2 = Ok [s0; s1] /\
       s_eqb s0 (s_of_Z 2) = true /\ s_eqb s1 (s_of_Z 2) = true).
Proof.
  eexists. split; [vm_compute; reflexivity|].
  split; [vm_compute; reflexivity|]. split; [vm_compute; reflexivity|].
  split.
  - eexists _, _. split; [vm_compute; reflexivity|]. split; reflexivity.
  - eexists _, _. split; [vm_compute; reflexivity|]. split; reflexivity.
Qed.

(** * Further properties of the code *)

(** ** The value of a polynomial and the operators *)

Section ProductCoefficients.
Context {T : Type} `{Scalar T}.

Lemma at0_cons_0 (c : T) l : at0 (c :: l) 0 = c.
Proof. done. Qed.

Lemma at0_beyond (l : list T) k : (length l <= k)%nat -> at0 l k = 0%S.
Proof. intros Hk. unfold at0. by rewrite lookup_ge_None_2. Qed.

Lemma sum_if_agree n c c' (f f' : nat -> T) :
  (forall i, (i < n)%nat -> c i = c' i) ->
  (forall i, (i < n)%nat -> c i = true -> f i = f' i) ->
  sum_if n c f = sum_if n c' f'.
Proof.
  induction n as [|n IH]; intros Hc Hf; simpl; [done|].
  rewrite <- Hc by lia. rewrite IH by (intros; auto with lia).
  destruct (c n) eqn:E; [|done]. by rewrite Hf by (done || lia).
Qed.

(** The product sequence grows with the first factor one coefficient at a
    time. *)
Lemma conv_snoc_l (A B : list T) (a : T) (k : nat) :
  conv (A ++ [a]) B k
  = if ((length A <=? k)%nat && (k - length A <? length B)%nat)%bool
    then (conv A B k + a * at0 B (k - length A))%S
    else conv A B k.
Proof.
  unfold conv. rewrite length_app. simpl length.
  replace (length A + 1)%nat with (S (length A)) by lia.
  cbn [sum_if].
  assert (sum_if (length A)
            (fun i => ((i <=? k)%nat && (k - i <? length B)%nat)%bool)
            (fun i => (at0 (A ++ [a]) i * at0 B (k - i))%S)
          = sum_if (length A)
            (fun i => ((i <=? k)%nat && (k - i <? length B)%nat)%bool)
            (fun i => (at0 A i * at0 B (k - i))%S)) as ->.
  { apply sum_if_agree; [done|]. intros i Hi _.
    rewrite at0_app. by destruct (decide (i < length A)%nat); [|lia]. }
  destruct (_ && _)%bool; [|done].
  rewrite at0_app. destruct (decide (length A < length A)%nat); [lia|].
  by replace (length A - length A)%nat with 0%nat by lia.
Qed.

Lemma conv_beyond (A B : list T) k :
  (length A + length B - 1 <= k)%nat -> conv A B k = 0%S.
Proof.
  intros Hk. unfold conv. apply sum_if_false. intros i Hi.
  destruct (Nat.leb_spec i k); simpl; [|done].
  apply Nat.ltb_ge. lia.
Qed.

End ProductCoefficients.

Section Values.
Context {T : Type} `{ER : ExactRing T}.
Add Ring Tring_values : er_ring.

Lemma s_pow_add (x : T) a b :
  s_pow x (a + b) = (s_pow x a * s_pow x b)%S.
Proof. induction a as [|a IH]; simpl; [ring|]. rewrite IH. ring. Qed.

Lemma pval_app (l1 l2 : list T) x :
  pval (l1 ++ l2) x = (pval l1 x * s_pow x (length l2) + pval l2 x)%S.
Proof.
  induction l1 as [|c l1 IH]; simpl; [ring|].
  rewrite IH, length_app, s_pow_add. ring.
Qed.

Lemma pval_snoc (l : list T) c x :
  pval (l ++ [c]) x = (pval l x * x + c)%S.
Proof. rewrite pval_app. simpl. ring. Qed.

Lemma pval_zeros n (l : list T) x : pval (replicate n 0%S ++ l) x = pval l x.
Proof. induction n as [|n IH]; simpl; [done|]. rewrite IH. ring. Qed.

Lemma pval_all_zeros n (x : T) : pval (replicate n 0%S) x = 0%S.
Proof.
  rewrite <- (app_nil_r (replicate n 0%S)). by rewrite pval_zeros.
Qed.

Lemma pval_pointwise (g : T -> T -> T) (L L1 L2 : list T) x :
  (forall a b c, (g a b * c = g (a * c) (b * c))%S) ->
  g 0%S 0%S = 0%S ->
  (forall a b a' b', (g a b + g a' b' = g (a + a') (b + b'))%S) ->
  length L1 = length L -> length L2 = length L ->
  (forall k, (k < length L)%nat -> at0 L k = g (at0 L1 k) (at0 L2 k)) ->
  pval L x = g (pval L1 x) (pval L2 x).
Proof.
  intros Hm H0 Ha. revert L1 L2.
  induction L as [|c L IH]; intros [|c1 L1] [|c2 L2] E1 E2 Hk;
    simpl in E1, E2; try discriminate; simpl; [done|].
  rewrite (IH L1 L2) by
    (try lia; intros k Hlt; apply (Hk (S k)); simpl; lia).
  specialize (Hk 0%nat). rewrite !at0_cons_0 in Hk.
  rewrite Hk by (simpl; lia).
  replace (length L1) with (length L) by lia.
  replace (length L2) with (length L) by lia.
  rewrite Hm. apply Ha.
Qed.

Lemma pval_add (L L1 L2 : list T) x :
  length L1 = length L -> length L2 = length L ->
  (forall k, (k < length L)%nat -> at0 L k = (at0 L1 k + at0 L2 k)%S) ->
  pval L x = (pval L1 x + pval L2 x)%S.
Proof.
  apply (pval_pointwise s_add); intros; ring.
Qed.

Lemma pval_map (f : T -> T) (L L1 : list T) x :
  (forall a c, (f a * c = f (a * c))%S) -> f 0%S = 0%S ->
  (forall a a', (f a + f a' = f (a + a'))%S) ->
  length L1 = length L ->
  (forall k, (k < length L)%nat -> at0 L k = f (at0 L1 k)) ->
  pval L x = f (pval L1 x).
Proof.
  intros Hm H0 Ha E Hk.
  apply (pval_pointwise (fun a _ => f a) L L1 L1); auto.
Qed.

(** [At] and [eval] *)
Lemma At_value (p : Poly T) x : wf p -> At p x = Ok (pval (coef_ p) x).
Proof.
  intros W. pose proof (wf_length p W) as L. destruct W as [_ D].
  unfold At. rewrite vget_at0 by lia. cbn [bind].
  destruct (for_loop_inv
              (fun d b => b = pval (take (Z.to_nat d) (coef_ p)) x)
              (fun d b => c <- vget (coef_ p) d ;; Ok (c + b * x)%S)
              1 (deg_ p + 1) (at0 (coef_ p) (Z.to_nat 0)))
    as (b & -> & ->); [lia| | |].
  - change (Z.to_nat 0) with 0%nat. change (Z.to_nat 1) with 1%nat.
    destruct (coef_ p) as [|c l]; simpl in *; [lia|].
    rewrite at0_cons_0. ring.
  - intros j b Hj ->. rewrite vget_at0 by lia. cbn [bind].
    eexists. split; [done|].
    replace (Z.to_nat (j + 1)) with (S (Z.to_nat j)) by lia.
    rewrite (take_S_r _ _ (at0 (coef_ p) (Z.to_nat j)))
      by (apply lookup_at0; lia).
    rewrite pval_snoc. ring.
  - by rewrite take_ge by lia.
Qed.

Lemma eval_fold (l : list T) x :
  fold_left (fun '(sum, t) c => ((sum + t * c)%S, (t * x)%S))
    (rev l) (0%S, 1%S)
  = (pval l x, s_pow x (length l)).
Proof.
  induction l as [|c l IH]; simpl; [done|].
  rewrite fold_left_app, IH. simpl. f_equal; ring.
Qed.

Lemma eval_value (p : Poly T) x : wf p -> eval p x = Ok (pval (coef_ p) x).
Proof.
  intros W. pose proof (wf_length p W) as L. destruct W as [_ D].
  unfold eval. destruct (deg_ p =? 0) eqn:E.
  - apply Z.eqb_eq in E. destruct (coef_ p) as [|c [|c' l]]; simpl in *;
      try lia. rewrite vget_at0 by (simpl; lia).
    change (Z.to_nat 0) with 0%nat. rewrite at0_cons_0. f_equal. ring.
  - by rewrite eval_fold.
Qed.

End Values.

Section Tabulate.
Context {T : Type} `{Scalar T}.

Lemma at0_fmap (f : T -> T) (l : list T) k :
  (k < length l)%nat -> at0 (f <$> l) k = f (at0 l k).
Proof.
  intros Hk. unfold at0. rewrite list_lookup_fmap.
  destruct (lookup_lt_is_Some_2 l k Hk) as [y ->]. done.
Qed.

Lemma at0_tabulate (f : nat -> T) n k :
  (k < n)%nat -> at0 (f <$> seq 0 n) k = f k.
Proof.
  intros Hk. unfold at0. rewrite list_lookup_fmap.
  by rewrite lookup_seq_lt.
Qed.

End Tabulate.

Section Homomorphism.
Context {T : Type} `{ER : ExactRing T}.
Add Ring Tring_hom : er_ring.

Lemma pval_conv (A B : list T) x :
  (0 < length B)%nat ->
  forall M : list T,
    length M = (length A + length B - 1)%nat ->
    (forall k, at0 M k = conv A B k) ->
    pval M x = (pval A x * pval B x)%S.
Proof.
  intros HB. induction A as [|a A IH] using rev_ind; intros M LM HM.
  - assert (M = replicate (length B - 1) 0%S) as ->.
    { apply at0_ext; [by rewrite length_replicate|].
      intros k Hk. rewrite HM, at0_replicate.
      by destruct (decide _). }
    rewrite pval_all_zeros. simpl. ring.
  - rewrite length_app in LM. simpl in LM.
    set (M0 := conv A B <$> seq 0 (length A + length B - 1)).
    assert (length M0 = (length A + length B - 1)%nat) as LM0
      by (unfold M0; by rewrite length_fmap, length_seq).
    assert (forall k, at0 M0 k = conv A B k) as HM0.
    { intros k. destruct (decide (k < length A + length B - 1)%nat).
      - unfold M0. by rewrite at0_tabulate.
      - rewrite at0_beyond by lia. by rewrite conv_beyond by lia. }
    rewrite (pval_add M (M0 ++ [0%S])
               (replicate (length A) 0%S ++ ((fun b => a * b)%S <$> B))).
    + rewrite pval_snoc, pval_zeros, (IH M0 LM0 HM0).
      assert (pval ((fun b => a * b)%S <$> B) x = (a * pval B x)%S) as ->.
      { apply (pval_map (fun b => (a * b)%S)).
        - intros; ring.
        - ring.
        - intros; ring.
        - by rewrite length_fmap.
        - intros k Hk. rewrite length_fmap in Hk. by apply at0_fmap. }
      rewrite pval_snoc. ring.
    + rewrite length_app. simpl. lia.
    + rewrite length_app, length_replicate, length_fmap. lia.
    + intros k Hk. rewrite HM, conv_snoc_l.
      rewrite !at0_app, length_replicate, LM0.
      destruct (decide (k < length A + length B - 1)%nat) as [Hk1|Hk1].
      * rewrite HM0.
        destruct (decide (k < length A)%nat) as [Hk2|Hk2].
        -- rewrite at0_replicate.
           replace (length A <=? k)%nat with false
             by (symmetry; apply Nat.leb_gt; lia).
           simpl. destruct (decide _); ring.
        -- replace (length A <=? k)%nat with true
             by (symmetry; apply Nat.leb_le; lia).
           replace (k - length A <? length B)%nat with true
             by (symmetry; apply Nat.ltb_lt; lia).
           simpl. rewrite at0_fmap by lia. done.
      * replace (k - (length A + length B - 1))%nat with 0%nat by lia.
        rewrite at0_cons_0, (conv_beyond A B k) by lia.
        destruct (decide (k < length A)%nat) as [Hk2|Hk2]; [lia|].
        replace (length A <=? k)%nat with true
          by (symmetry; apply Nat.leb_le; lia).
        replace (k - length A <? length B)%nat with true
          by (symmetry; apply Nat.ltb_lt; lia).
        simpl. rewrite at0_fmap by lia. done.
Qed.

Lemma poly_mul_pval (p q : Poly T) x :
  wf p -> wf q ->
  exists M, poly_mul p q = Ok M /\ wf M /\ deg_ M = deg_ p + deg_ q /\
    pval (coef_ M) x = (pval (coef_ p) x * pval (coef_ q) x)%S.
Proof.
  intros Wp Wq. destruct (poly_mul_spec p q Wp Wq) as (M & E & WM & D & HM).
  exists M. split; [done|]. split; [done|]. split; [done|].
  pose proof (wf_length q Wq). apply pval_conv; [done| |done].
  destruct Wp as [_ Dp], Wq as [_ Dq], WM as [_ DM]. lia.
Qed.

Lemma plus_pval (lhs rhs : Poly T) x :
  wf lhs -> wf rhs -> deg_ rhs <= deg_ lhs ->
  exists r, plus lhs rhs = Ok r /\ wf r /\
    pval (coef_ r) x = (pval (coef_ lhs) x + pval (coef_ rhs) x)%S.
Proof.
  intros Wl Wr Hd. destruct (plus_spec lhs rhs Wl Wr Hd) as (r & E & D & L & Hk).
  exists r. split; [done|].
  pose proof (wf_length lhs Wl). pose proof (wf_length rhs Wr).
  split. { apply wf_intro; [lia|]. destruct Wl as [_ Dl]. lia. }
  destruct Wl as [_ Dl], Wr as [_ Dr].
  rewrite (pval_add (coef_ r) (coef_ lhs)
             (replicate (length (coef_ lhs) - length (coef_ rhs)) 0%S
              ++ coef_ rhs)).
  - by rewrite pval_zeros.
  - done.
  - rewrite length_app, length_replicate. lia.
  - intros k Hlt. rewrite Hk, at0_app, length_replicate, at0_replicate.
    destruct (decide (_ <= k < _)%nat) as [Hin|Hout];
      destruct (decide (k < _ - _)%nat); try lia; [done|ring].
Qed.

Lemma poly_add_pval (p q : Poly T) x :
  wf p -> wf q ->
  exists r, poly_add p q = Ok r /\ wf r /\
    pval (coef_ r) x = (pval (coef_ p) x + pval (coef_ q) x)%S.
Proof.
  intros Wp Wq. destruct (Z_le_gt_dec (deg_ q) (deg_ p)) as [Hd|Hd].
  - rewrite poly_add_ge by done. by apply plus_pval.
  - rewrite poly_add_lt by lia.
    destruct (plus_pval q p x Wq Wp) as (r & E & W & V); [lia|].
    exists r. split; [done|]. split; [done|]. rewrite V. ring.
Qed.

Lemma poly_neg_pval (p : Poly T) x :
  wf p ->
  exists r, poly_neg p = Ok r /\ wf r /\
    pval (coef_ r) x = (- pval (coef_ p) x)%S.
Proof.
  intros Wp. destruct (poly_neg_spec p Wp) as (r & E & D & L & Hk).
  exists r. split; [done|]. pose proof (wf_length p Wp).
  split. { apply wf_intro; [lia|]. destruct Wp as [_ Dp]. lia. }
  apply (pval_map s_opp); [intros; ring|ring|intros; ring|done|].
  intros k Hlt. rewrite Hk. destruct (decide _); [done|lia].
Qed.

Lemma poly_sub_pval (p q : Poly T) x :
  wf p -> wf q ->
  exists r, poly_sub p q = Ok r /\ wf r /\
    pval (coef_ r) x = (pval (coef_ p) x - pval (coef_ q) x)%S.
Proof.
  intros Wp Wq. unfold poly_sub.
  destruct (poly_neg_pval q x Wq) as (n & -> & Wn & Vn). cbn [bind].
  destruct (poly_add_pval p n x Wp Wn) as (r & E & W & V).
  exists r. split; [done|]. split; [done|]. rewrite V, Vn. ring.
Qed.

(** X1: in exact arithmetic [At] (Horner) and [eval] (accumulated
    powers) complete on every well-formed polynomial and return the same
    value, the sum of the terms [coef_[i] * x^(deg - i)]. *)
Theorem At_eval_agree (p : Poly T) (x : T) :
  wf p ->
  At p x = Ok (pval (coef_ p) x) /\ eval p x = Ok (pval (coef_ p) x).
Proof. intros W. split; [by apply At_value|by apply eval_value]. Qed.

(** X2: in exact arithmetic the value of a product is the product of the
    values: [(p * q).At(x) = p.At(x) * q.At(x)]. *)
Theorem mul_value (p q : Poly T) (x : T) :
  wf p -> wf q ->
  exists M vp vq,
    poly_mul p q = Ok M /\ At p x = Ok vp /\ At q x = Ok vq /\
    At M x = Ok (vp * vq)%S.
Proof.
  intros Wp Wq. destruct (poly_mul_pval p q x Wp Wq) as (M & E & WM & _ & V).
  exists M, (pval (coef_ p) x), (pval (coef_ q) x).
  rewrite !At_value by done. by rewrite V.
Qed.

(** X3: in exact arithmetic the value of a sum, of a difference and of
    the opposite is the sum, the difference and the opposite of the
    values, whichever operand is the longer one. *)
Theorem add_sub_value (p q : Poly T) (x : T) :
  wf p -> wf q ->
  exists S D N vp vq,
    poly_add p q = Ok S /\ poly_sub p q = Ok D /\ poly_neg p = Ok N /\
    At p x = Ok vp /\ At q x = Ok vq /\
    At S x = Ok (vp + vq)%S /\ At D x = Ok (vp - vq)%S /\
    At N x = Ok (- vp)%S.
Proof.
  intros Wp Wq.
  destruct (poly_add_pval p q x Wp Wq) as (S & ES & WS & VS).
  destruct (poly_sub_pval p q x Wp Wq) as (D & ED & WD & VD).
  destruct (poly_neg_pval p x Wp) as (N & EN & WN & VN).
  exists S, D, N, (pval (coef_ p) x), (pval (coef_ q) x).
  rewrite !At_value by done. by rewrite VS, VD, VN.
Qed.

End Homomorphism.

(** ** Operations with a scalar *)

Lemma vget_lookup {A} (v : list A) i x :
  0 <= i -> v !! Z.to_nat i = Some x -> vget v i = Ok x.
Proof.
  intros Hi Hx. destruct (vget_in_range v i) as (y & E & Hy).
  - apply lookup_lt_Some in Hx. lia.
  - congruence.
Qed.

Section CoefficientLoops.
Context {T C : Type} {ST : Scalar T} {SC : Scalar C}.

(** The loop [for (i = 0; i <= deg; ++i) ans[i] = g(p[i])] on a
    polynomial [ans] built by [Poly(deg, z)]. *)
Lemma fill_loop_spec (p : Poly T) (g : T -> C) (z : C) :
  wf p ->
  for_loop 0 (deg_ p + 1)
    (fun i ans => x <- pget p i ;; pset ans i (g x))
    (Poly_fill (deg_ p) z)
  = Ok (mkPoly (g <$> coef_ p) (deg_ p)).
Proof.
  intros W. pose proof (wf_length _ W) as L. destruct W as [_ D].
  destruct (for_loop_inv
    (fun i (a : Poly C) =>
       deg_ a = deg_ p /\ length (coef_ a) = length (coef_ p) /\
       forall k : nat, Z.of_nat k < i -> coef_ a !! k = g <$> coef_ p !! k)
    (fun i ans => x <- pget p i ;; pset ans i (g x))
    0 (deg_ p + 1) (Poly_fill (deg_ p) z)) as (r & -> & Hd & Hl & Hk).
  - lia.
  - simpl. split; [done|]. rewrite length_replicate. split; [lia|].
    intros k Hk. lia.
  - intros i a Hi (Hd & Hl & Hk). unfold pget, pset, pupd.
    destruct (vget_in_range (coef_ p) i) as (x & -> & Hx); [lia|].
    cbn [bind]. rewrite vupd_in_range by lia. cbn [bind].
    eexists. split; [done|]. simpl. rewrite length_alter.
    split; [done|]. split; [done|]. intros k Hlt.
    destruct (decide (k = Z.to_nat i)) as [->|Hne].
    + rewrite list_lookup_alter_eq, Hx.
      destruct (lookup_lt_is_Some_2 (coef_ a) (Z.to_nat i)) as [y Hy];
        [lia|]. by rewrite Hy.
    + rewrite list_lookup_alter_ne by done. apply Hk. lia.
  - f_equal. destruct r as [c d]. simpl in *. subst d. f_equal.
    apply list_eq. intros k.
    destruct (decide (k < length (coef_ p))%nat).
    + rewrite list_lookup_fmap. apply Hk. lia.
    + rewrite list_lookup_fmap, !lookup_ge_None_2 by lia. done.
Qed.

End CoefficientLoops.

(** A loop [for (i = 0; i < size; ++i) v[i] = g(v[i])] on a vector whose
    elements satisfy [P]. *)
Lemma map_loop_spec {A} (P : A -> Prop) (l : list A) (g : A -> A)
    (body : Z -> list A -> outcome (list A)) :
  Forall P l ->
  (forall i c x, 0 <= i -> c !! Z.to_nat i = Some x -> P x ->
                 body i c = Ok (alter (fun _ => g x) (Z.to_nat i) c)) ->
  for_loop 0 (Z.of_nat (length l)) body l = Ok (g <$> l).
Proof.
  intros HP Hbody.
  destruct (for_loop_inv
    (fun i (c : list A) =>
       length c = length l /\
       forall k : nat,
         c !! k = if decide (Z.of_nat k < i) then g <$> l !! k else l !! k)
    body 0 (Z.of_nat (length l)) l) as (r & -> & Hl & Hk).
  - lia.
  - split; [done|]. intros k. by destruct (decide _); [lia|].
  - intros i c Hi (Hl & Hk).
    destruct (lookup_lt_is_Some_2 l (Z.to_nat i)) as [x Hx]; [lia|].
    assert (c !! Z.to_nat i = Some x) as Hcx.
    { rewrite Hk. by destruct (decide _); [lia|]. }
    rewrite (Hbody i c x); [|lia|done|].
    2: { rewrite Forall_lookup in HP. by apply (HP _ _ Hx). }
    eexists. split; [done|]. rewrite length_alter. split; [done|].
    intros k. destruct (decide (k = Z.to_nat i)) as [->|Hne].
    + rewrite list_lookup_alter_eq, Hcx, Hx.
      by destruct (decide _); [|lia].
    + rewrite list_lookup_alter_ne, Hk by done.
      destruct (decide (Z.of_nat k < i)), (decide (Z.of_nat k < i + 1));
        done || lia.
  - f_equal. apply list_eq. intros k. rewrite Hk, list_lookup_fmap.
    destruct (decide _); [done|].
    rewrite !lookup_ge_None_2 by lia. done.
Qed.

Section ScalarOps.
Context {T : Type} `{Scalar T}.

Lemma mul_assign_scalar_spec (p : Poly T) (v : T) :
  wf p ->
  mul_assign_scalar p v
  = Ok (mkPoly ((fun c => c * v)%S <$> coef_ p) (deg_ p)).
Proof.
  intros W. pose proof (wf_length _ W) as L. destruct W as [_ D].
  unfold mul_assign_scalar.
  replace (deg_ p + 1) with (Z.of_nat (length (coef_ p))) by lia.
  rewrite (map_loop_spec (fun _ => True) _ (fun c => c * v)%S);
    [done|by apply Forall_true|].
  intros i c x Hi Hx _. apply lookup_lt_Some in Hx as Hlt.
  rewrite vupd_in_range by lia. f_equal.
  apply list_eq. intros k. destruct (decide (k = Z.to_nat i)) as [->|Hne].
  - by rewrite !list_lookup_alter_eq, Hx.
  - by rewrite !list_lookup_alter_ne.
Qed.

Lemma div_assign_scalar_spec (p : Poly T) (v : T) :
  wf p ->
  div_assign_scalar p v
  = Ok (mkPoly ((fun c => c / v)%S <$> coef_ p) (deg_ p)).
Proof.
  intros W. pose proof (wf_length _ W) as L. destruct W as [_ D].
  unfold div_assign_scalar.
  replace (deg_ p + 1) with (Z.of_nat (length (coef_ p))) by lia.
  rewrite (map_loop_spec (fun _ => True) _ (fun c => c / v)%S);
    [done|by apply Forall_true|].
  intros i c x Hi Hx _. apply lookup_lt_Some in Hx as Hlt.
  rewrite (vget_lookup c i x) by done. cbn [bind]. unfold vset.
  by rewrite vupd_in_range by lia.
Qed.

Lemma poly_scale_spec (p : Poly T) (v : T) :
  wf p ->
  poly_scale p v
  = if s_eqb v 0%S then Ok (mkPoly [0%S] 0)
    else Ok (mkPoly ((fun c => c * v)%S <$> coef_ p) (deg_ p)).
Proof.
  intros W. unfold poly_scale. destruct (s_eqb v 0%S); [done|].
  by apply fill_loop_spec.
Qed.

Lemma poly_div_scalar_spec (p : Poly T) (v : T) :
  wf p ->
  poly_div_scalar p v
  = Ok (mkPoly ((fun c => c / v)%S <$> coef_ p) (deg_ p)).
Proof. intros W. by apply fill_loop_spec. Qed.

(** X4: [p * value], [value * p] and [p *= value] multiply every
    coefficient by [value] from the right and keep the stored degree,
    except that the two operators return the degree-0 polynomial [[0]]
    for [value == 0] while [p *= 0] keeps all [deg + 1] coefficients;
    [p / value] and [p /= value] divide every coefficient by [value],
    which they do not test. *)
Theorem scalar_ops (p : Poly T) (v : T) :
  wf p ->
  mul_assign_scalar p v
  = Ok (mkPoly ((fun c => c * v)%S <$> coef_ p) (deg_ p)) /\
  poly_scale p v
  = (if s_eqb v 0%S then Ok (mkPoly [0%S] 0)
     else Ok (mkPoly ((fun c => c * v)%S <$> coef_ p) (deg_ p))) /\
  scale_poly v p = poly_scale p v /\
  poly_div_scalar p v
  = Ok (mkPoly ((fun c => c / v)%S <$> coef_ p) (deg_ p)) /\
  div_assign_scalar p v
  = Ok (mkPoly ((fun c => c / v)%S <$> coef_ p) (deg_ p)).
Proof.
  intros W. split; [by apply mul_assign_scalar_spec|].
  split; [by apply poly_scale_spec|]. split; [done|].
  split; [by apply poly_div_scalar_spec|by apply div_assign_scalar_spec].
Qed.

End ScalarOps.

(** ** Trimming, resizing, derivative and integral *)

Section Trimming.
Context {T : Type} `{Scalar T} `{RealScalar T}.

Lemma trimmed_intro (t : T -> bool) (p : Poly T) i0 :
  wf p -> 0 <= i0 <= deg_ p ->
  (forall k : nat, Z.of_nat k < i0 -> t (at0 (coef_ p) k) = true) ->
  (i0 < deg_ p -> t (at0 (coef_ p) (Z.to_nat i0)) = false) ->
  trimmed t p
    (mkPoly (drop (Z.to_nat i0) (coef_ p)) (to_size_t (deg_ p - i0))).
Proof.
  intros W Hi0 Hz Hnz. exists (Z.to_nat i0). simpl.
  rewrite to_size_t_nonneg by lia.
  split; [lia|]. split; [done|]. split; [lia|]. split.
  - apply Forall_lookup. intros k c Hc.
    apply lookup_take_Some in Hc as [Hc Hk].
    rewrite <- (at0_lookup _ _ _ Hc). apply Hz. lia.
  - destruct (Z_lt_le_dec i0 (deg_ p)) as [Hlt|Hge]; [right|left; lia].
    rewrite at0_drop. replace (Z.to_nat i0 + 0)%nat with (Z.to_nat i0) by lia.
    by apply Hnz.
Qed.

Lemma update_real_spec (p : Poly T) :
  wf p ->
  exists i0,
    update_real p
    = Ok (mkPoly (drop (Z.to_nat i0) (coef_ p)) (to_size_t (deg_ p - i0))) /\
    0 <= i0 <= deg_ p /\
    (forall k : nat, Z.of_nat k < i0 ->
       r_ltb (r_abs (at0 (coef_ p) k)) (r_of_Q (1 # 10 ^ 8)) = true) /\
    (i0 < deg_ p ->
     r_ltb (r_abs (at0 (coef_ p) (Z.to_nat i0))) (r_of_Q (1 # 10 ^ 8))
     = false).
Proof.
  intros W. pose proof (wf_length _ W) as L. destruct W as [_ D].
  unfold update_real.
  destruct (trim_scan (fun c => r_ltb (r_abs c) (r_of_Q (1 # 10 ^ 8)))
              (coef_ p) (deg_ p) (S (length (coef_ p))) 0)
    as (i0 & E & Hi0 & Hz & Hnz); [done|lia|lia|].
  rewrite E. simpl.
  replace (i0 =? deg_ p + 1) with false by (symmetry; apply Z.eqb_neq; lia).
  replace (i0 <=? Z.of_nat (length (coef_ p))) with true
    by (symmetry; apply Z.leb_le; lia).
  exists i0. split; [done|]. split; [done|]. split; [|done].
  intros k Hk. apply Hz. lia.
Qed.

Lemma trimmed_fixed (t : T -> bool) (p r : Poly T) i1 :
  wf r -> trimmed t p r -> 0 <= i1 <= deg_ r ->
  (forall k : nat, Z.of_nat k < i1 -> t (at0 (coef_ r) k) = true) ->
  mkPoly (drop (Z.to_nat i1) (coef_ r)) (to_size_t (deg_ r - i1)) = r.
Proof.
  intros W (n & _ & _ & _ & _ & Hlead) Hi1 Hz.
  assert (i1 = 0) as ->.
  { destruct Hlead as [Hd|Hl]; [lia|].
    destruct (Z.eq_dec i1 0) as [|Hne]; [done|].
    rewrite (Hz 0%nat) in Hl by lia. discriminate. }
  simpl. rewrite Z.sub_0_r, to_size_t_nonneg.
  - by destruct r.
  - pose proof (wf_length _ W). destruct W as [_ D]. lia.
Qed.

Lemma update_trimmed (p : Poly T) :
  wf p ->
  exists r,
    update p = Ok r /\ wf r /\
    trimmed (fun c => s_eqb c 0%S) p r /\
    update r = Ok r.
Proof.
  intros W. destruct (update_spec p W) as (i0 & E & Hi0 & Hz & Hnz).
  eexists. split; [exact E|].
  assert (wf (mkPoly (drop (Z.to_nat i0) (coef_ p))
                (to_size_t (deg_ p - i0)))) as Wr by (by apply drop_wf).
  split; [done|].
  assert (trimmed (fun c => s_eqb c 0%S) p
            (mkPoly (drop (Z.to_nat i0) (coef_ p))
               (to_size_t (deg_ p - i0)))) as Htr
    by (by apply trimmed_intro).
  split; [done|].
  destruct (update_spec _ Wr) as (i1 & E1 & Hi1 & Hz1 & _).
  rewrite E1. f_equal.
  by apply (trimmed_fixed (fun c => s_eqb c 0%S) p).
Qed.

(** X5: [update] completes on every well-formed polynomial: it drops
    leading coefficients that compare equal to zero and nothing else,
    keeps at least the last coefficient, and leaves a polynomial that is
    well-formed and either of degree 0 or with a leading coefficient that
    does not compare equal to zero; a second [update] changes nothing. *)
Theorem update_trims (p : Poly T) :
  wf p ->
  exists r,
    update p = Ok r /\ wf r /\
    trimmed (fun c => s_eqb c 0%S) p r /\
    update r = Ok r.
Proof. apply update_trimmed. Qed.

Lemma drop_last_one (l : list T) :
  (0 < length l)%nat ->
  drop (length l - 1) l = [at0 l (length l - 1)].
Proof.
  intros Hl.
  destruct (lookup_lt_is_Some_2 l (length l - 1)) as [x Hx]; [lia|].
  rewrite (drop_S _ _ _ Hx), drop_ge by lia.
  by rewrite (at0_lookup _ _ _ Hx).
Qed.

(** X6: [update_real] does the same with the test
    [std::abs(c) < 1e-8]: it drops leading coefficients below the
    tolerance and keeps at least the last coefficient whatever its size,
    so that a polynomial whose coefficients are all below the tolerance
    becomes its last coefficient alone, with the degree 0; a second
    [update_real] changes nothing. *)
Theorem update_real_trims (p : Poly T) :
  wf p ->
  exists r,
    update_real p = Ok r /\ wf r /\
    trimmed (fun c => r_ltb (r_abs c) (r_of_Q (1 # 10 ^ 8))) p r /\
    last (coef_ r) = last (coef_ p) /\
    (Forall (fun c => r_ltb (r_abs c) (r_of_Q (1 # 10 ^ 8)) = true)
       (coef_ p) ->
     coef_ r = [at0 (coef_ p) (Z.to_nat (deg_ p))] /\ deg_ r = 0) /\
    update_real r = Ok r.
Proof.
  intros W. destruct (update_real_spec p W) as (i0 & E & Hi0 & Hz & Hnz).
  eexists. split; [exact E|].
  assert (wf (mkPoly (drop (Z.to_nat i0) (coef_ p))
                (to_size_t (deg_ p - i0)))) as Wr by (by apply drop_wf).
  split; [done|].
  assert (trimmed (fun c => r_ltb (r_abs c) (r_of_Q (1 # 10 ^ 8))) p
            (mkPoly (drop (Z.to_nat i0) (coef_ p))
               (to_size_t (deg_ p - i0)))) as Htr
    by (by apply trimmed_intro).
  split; [done|]. split.
  { simpl. pose proof (wf_length _ W). destruct W as [_ D].
    rewrite !last_lookup, lookup_drop, length_drop. f_equal. lia. }
  split.
  { intros Hall. pose proof (wf_length _ W) as L. pose proof W as [_ D].
    assert (i0 = deg_ p) as ->.
    { destruct (decide (i0 = deg_ p)) as [|Hne]; [done|].
      assert (i0 < deg_ p) as Hlt by lia. specialize (Hnz Hlt).
      destruct (lookup_lt_is_Some_2 (coef_ p) (Z.to_nat i0)) as [x Hx];
        [lia|].
      rewrite (at0_lookup _ _ _ Hx) in Hnz.
      rewrite Forall_lookup in Hall. specialize (Hall _ _ Hx). simpl in Hall.
      congruence. }
    simpl. rewrite to_size_t_nonneg by lia.
    replace (Z.to_nat (deg_ p)) with (length (coef_ p) - 1)%nat by lia.
    split; [by apply drop_last_one|lia]. }
  destruct (update_real_spec _ Wr) as (i1 & E1 & Hi1 & Hz1 & _).
  rewrite E1. f_equal.
  by apply (trimmed_fixed
              (fun c => r_ltb (r_abs c) (r_of_Q (1 # 10 ^ 8))) p).
Qed.

(** X7: on a well-formed polynomial whose degree fits an [int],
    [resize(d)] keeps the last [d + 1] coefficients for
    [-1 <= d <= deg]; [resize(deg)] changes nothing, [resize(-1)] leaves
    an empty sequence with the stored degree [2^64 - 1], and every other
    [d], a larger degree included, builds the vector from an iterator out
    of range: [resize] never pads with zeros. *)
Theorem resize_cases (p : Poly T) (d : Z) :
  wf p -> deg_ p < 2 ^ 31 ->
  resize p d
  = (if (-1 <=? d) && (d <=? deg_ p)
     then Ok (mkPoly (drop (Z.to_nat (deg_ p - d)) (coef_ p)) (to_size_t d))
     else OutOfRange) /\
  resize p (deg_ p) = Ok p /\
  resize p (-1) = Ok (mkPoly [] (2 ^ 64 - 1)).
Proof.
  intros W Hs. pose proof (wf_length _ W) as L. pose proof W as [_ D].
  assert (forall d,
    resize p d
    = (if (-1 <=? d) && (d <=? deg_ p)
       then Ok (mkPoly (drop (Z.to_nat (deg_ p - d)) (coef_ p))
                       (to_size_t d))
       else OutOfRange)) as Hr.
  { intros d'. unfold resize. rewrite to_int_small by lia.
    destruct (Z.leb_spec (-1) d'), (Z.leb_spec d' (deg_ p));
      destruct (Z.leb_spec 0 (deg_ p - d'));
      destruct (Z.leb_spec (deg_ p - d') (Z.of_nat (length (coef_ p))));
      simpl; done || lia. }
  split; [apply Hr|]. split.
  - rewrite Hr.
    replace (-1 <=? deg_ p) with true by (symmetry; apply Z.leb_le; lia).
    rewrite Z.leb_refl, Z.sub_diag, to_size_t_nonneg by lia. simpl.
    by destruct p.
  - rewrite Hr.
    replace (-1 <=? deg_ p) with true by (symmetry; apply Z.leb_le; lia).
    simpl. rewrite drop_ge by lia. done.
Qed.

(** X8: the coefficients of [der()] and [antider()]. For a degree
    [n >= 2], [der] returns the [n] coefficients [coef_[i] * T(n - i)];
    for [n = 1] it returns [[coef_[0]]] and for [n = 0] it returns [[0]].
    For [n >= 1], [antider] returns [n + 2] coefficients, [coef_[i] /
    T(n - i + 1)] followed by the constant 0; for [n = 0] it returns
    [[coef_[0], 0]]. *)
Theorem der_antider_coefficients (p : Poly T) :
  wf p ->
  exists d a,
    der p = Ok d /\ antider p = Ok a /\ wf d /\ wf a /\
    deg_ d = Z.max 0 (deg_ p - 1) /\ deg_ a = deg_ p + 1 /\
    (forall k : nat,
       at0 (coef_ d) k =
       if decide (length (coef_ p) = 2)%nat
       then (if decide (k = 0)%nat then at0 (coef_ p) 0 else 0%S)
       else if decide (k < length (coef_ p) - 1)%nat
       then (at0 (coef_ p) k * s_of_Z (deg_ p - Z.of_nat k))%S
       else 0%S) /\
    (forall k : nat,
       at0 (coef_ a) k =
       if decide (length (coef_ p) = 1)%nat
       then (if decide (k = 0)%nat then at0 (coef_ p) 0 else 0%S)
       else if decide (k < length (coef_ p))%nat
       then (at0 (coef_ p) k / s_of_Z (deg_ p - Z.of_nat k + 1))%S
       else 0%S).
Proof.
  intros W. pose proof (wf_length _ W) as L. pose proof W as [_ D].
  destruct (der_spec p W) as (d & Ed & Wd & Ld & Hd).
  destruct (antider_spec p W) as (a & Ea & Wa & La & Ha).
  exists d, a. repeat (split; [done|]).
  destruct Wd as [_ Dd], Wa as [_ Da].
  split; [lia|]. split; [lia|]. done.
Qed.

End Trimming.

Section ExactValues.
Context {T : Type} `{ER : ExactRing T}.
Add Ring Tring_exact : er_ring.

Lemma pval_drop_zeros (l : list T) (n : nat) x :
  Forall (fun c => s_eqb c 0%S = true) (take n l) ->
  pval (drop n l) x = pval l x.
Proof.
  intros Hz. rewrite <- (take_drop n l) at 2.
  assert (take n l = replicate (length (take n l)) 0%S) as ->.
  { apply at0_ext; [by rewrite length_replicate|].
    intros k Hk. rewrite at0_replicate.
    destruct (lookup_lt_is_Some_2 _ _ Hk) as [c Hc].
    rewrite (at0_lookup _ _ _ Hc). rewrite Forall_lookup in Hz.
    apply Hz in Hc. apply er_eqb in Hc. by destruct (decide _). }
  by rewrite pval_zeros.
Qed.

(** X9: in exact arithmetic [update] does not change the value of the
    polynomial at any point. *)
Theorem update_value (p : Poly T) (x : T) :
  wf p ->
  exists r v, update p = Ok r /\ At p x = Ok v /\ At r x = Ok v.
Proof.
  intros W. destruct (update_trimmed p W) as (r & E & Wr & Htr & _).
  destruct Htr as (n & _ & Hc & _ & Hz & _).
  exists r, (pval (coef_ p) x). split; [done|].
  rewrite !At_value by done. split; [done|].
  by rewrite Hc, pval_drop_zeros.
Qed.

(** X10: in exact arithmetic [integral] is additive over adjacent
    intervals, changes sign when the bounds are exchanged and is zero over
    an empty interval. *)
Theorem integral_adjacent (p : Poly T) (a b c : T) :
  wf p ->
  exists i1 i2 i3,
    integral p a b = Ok i1 /\ integral p b c = Ok i2 /\
    integral p a c = Ok i3 /\ (i1 + i2)%S = i3 /\
    integral p b a = Ok (- i1)%S /\ integral p a a = Ok 0%S.
Proof.
  intros W. destruct (antider_spec p W) as (F & EF & WF & _).
  unfold integral. rewrite EF. cbn [bind]. rewrite !At_value by done.
  cbn [bind]. eexists _, _, _. split; [done|]. split; [done|].
  split; [done|]. split; [ring|]. split; f_equal; ring.
Qed.

(** X11: [accumulate] completes on well-formed polynomials. For no
    polynomial it returns the zero polynomial [[0]] (not the constant 1);
    otherwise the stored degree of the result is the sum of the degrees
    and, in exact arithmetic, its value at a point is the product of the
    values. *)
Theorem accumulate_value (ps : list (Poly T)) (x : T) :
  Forall wf ps ->
  exists r,
    accumulate ps = Ok r /\ wf r /\
    deg_ r = fold_left (fun a q => a + deg_ q) ps 0 /\
    At r x
    = Ok (match ps with
          | [] => 0%S
          | _ => fold_left (fun v q => v * pval (coef_ q) x)%S ps 1%S
          end).
Proof.
  intros Hwf. unfold accumulate. destruct ps as [|p0 ps'].
  { simpl. eexists. split; [done|].
    assert (wf (Poly_of_vector [0%S : T])) as W0
      by (by apply wf_Poly_of_vector).
    split; [done|]. split; [done|]. rewrite At_value by done.
    simpl. f_equal. ring. }
  set (ps := p0 :: ps') in *.
  replace (Z.of_nat (length ps) =? 0) with false
    by (symmetry; apply Z.eqb_neq; simpl; lia).
  rewrite (vget_lookup ps 0 p0) by done. cbn [bind].
  destruct (for_loop_inv
    (fun i res =>
       wf res /\
       deg_ res = fold_left (fun a q => a + deg_ q)
                    (take (Z.to_nat i) ps) 0 /\
       pval (coef_ res) x
       = fold_left (fun v q => v * pval (coef_ q) x)%S
           (take (Z.to_nat i) ps) 1%S)
    (fun i res_poly => q <- vget ps i ;; mul_assign res_poly q)
    1 (Z.of_nat (length ps)) p0) as (r & -> & Wr & Dr & Vr).
  - simpl. lia.
  - split; [by inversion Hwf|]. simpl. split; [done|]. ring.
  - intros i res Hi (Wres & Dres & Vres).
    destruct (vget_in_range ps i) as (q & -> & Hq); [lia|]. cbn [bind].
    assert (wf q) as Wq by (by eapply Forall_lookup_1).
    unfold mul_assign.
    destruct (poly_mul_pval res q x Wres Wq) as (M & -> & WM & DM & VM).
    eexists. split; [done|]. split; [done|].
    replace (Z.to_nat (i + 1)) with (S (Z.to_nat i)) by lia.
    rewrite (take_S_r _ _ q Hq), !fold_left_app. simpl.
    split; [lia|]. by rewrite VM, Vres.
  - rewrite Nat2Z.id, firstn_all in Dr, Vr.
    exists r. split; [done|]. split; [done|]. split; [done|].
    by rewrite At_value, Vr.
Qed.

End ExactValues.

Section CompensatedExact.
Context {T : Type} `{ER : ExactRing T} {FT : Fma T}.
Add Ring Tring_comp : er_ring.

Lemma At2_fold (l : list T) (x s : T) :
  (forall a b c : T, s_fma a b c = (a * b + c)%S) ->
  fold_left
    (fun '(s, c) a =>
       let '(p, pi) := two_prod s x in
       let '(s, t) := two_sum p a in
       let c := (c * x)%S in
       let c := (c + (pi + t))%S in
       (s, c))
    l (s, 0%S)
  = ((s * s_pow x (length l) + pval l x)%S, 0%S).
Proof.
  intros Hfma. revert s.
  induction l as [|a l IH]; intros s; cbn [fold_left length pval s_pow].
  - f_equal. ring.
  - assert (two_prod s x = ((s * x)%S, 0%S)) as ->.
    { unfold two_prod. rewrite Hfma. f_equal. ring. }
    assert (two_sum (s * x)%S a = ((s * x + a)%S, 0%S)) as ->.
    { unfold two_sum. f_equal. ring. }
    replace (0 * x + (0 + 0))%S with (0%S : T) by ring.
    rewrite IH. f_equal. ring.
Qed.

(** X12: in exact arithmetic, with [std::fma(a, b, c) = a * b + c], the
    compensated evaluation [At2] returns the value of the polynomial, its
    correction term being zero, and so agrees with [At]. *)
Theorem At2_exact (p : Poly T) (x : T) :
  (forall a b c : T, s_fma a b c = (a * b + c)%S) ->
  wf p ->
  At2 p x = pval (coef_ p) x /\ At p x = Ok (At2 p x).
Proof.
  intros Hfma W.
  assert (At2 p x = pval (coef_ p) x) as E.
  { unfold At2. rewrite At2_fold by done. ring. }
  split; [done|]. rewrite E. by apply At_value.
Qed.

End CompensatedExact.

(** ** Coefficients of the sum and of the product, for every scalar type *)

Section OperatorCoefficients.
Context {T : Type} `{Scalar T}.

(** X13: [operator*] completes on well-formed polynomials and returns
    the product sequence as it is, without trimming: the stored degree is
    [deg p1 + deg p2] and position [k] holds the terms
    [p1[i] * p2[k - i]] added to zero in the order of [i]. *)
Theorem mul_coefficients (p1 p2 : Poly T) :
  wf p1 -> wf p2 ->
  exists M,
    poly_mul p1 p2 = Ok M /\ wf M /\ deg_ M = deg_ p1 + deg_ p2 /\
    forall k : nat, at0 (coef_ M) k = conv (coef_ p1) (coef_ p2) k.
Proof. apply poly_mul_spec. Qed.

Lemma poly_add_neg_spec (p q : Poly T) :
  wf p -> wf q ->
  exists S N,
    poly_add p q = Ok S /\ poly_neg p = Ok N /\ wf S /\
    deg_ S = Z.max (deg_ p) (deg_ q) /\
    (forall k : nat,
       let a := if deg_ q <=? deg_ p then coef_ p else coef_ q in
       let b := if deg_ q <=? deg_ p then coef_ q else coef_ p in
       at0 (coef_ S) k =
       if decide (length a - length b <= k < length a)%nat
       then (at0 a k + at0 b (k - (length a - length b)))%S
       else at0 a k) /\
    N = mkPoly (s_opp <$> coef_ p) (deg_ p).
Proof.
  intros Wp Wq.
  assert (exists N, poly_neg p = Ok N /\
                    N = mkPoly (s_opp <$> coef_ p) (deg_ p)) as (N & EN & HN).
  { destruct (poly_neg_spec p Wp) as (N & E & D & L & Hk).
    exists N. split; [done|]. destruct N as [c d]. simpl in *. subst d.
    f_equal. apply at0_ext; [by rewrite length_fmap|].
    intros k Hlt. rewrite Hk, at0_fmap by lia.
    by destruct (decide _); [|lia]. }
  destruct (Z.leb_spec (deg_ q) (deg_ p)) as [Hd|Hd].
  - destruct (plus_spec p q Wp Wq Hd) as (S & E & D & L & Hk).
    exists S, N. rewrite poly_add_ge by done.
    split; [done|]. split; [done|].
    pose proof (wf_length _ Wp). pose proof Wp as [_ Dp].
    split; [apply wf_intro; lia|]. split; [lia|]. split; [|done].
    intros k. simpl. apply Hk.
  - destruct (plus_spec q p Wq Wp) as (S & E & D & L & Hk); [lia|].
    exists S, N. rewrite poly_add_lt by done.
    split; [done|]. split; [done|].
    pose proof (wf_length _ Wq). pose proof Wq as [_ Dq].
    split; [apply wf_intro; lia|]. split; [lia|]. split; [|done].
    intros k. simpl. apply Hk.
Qed.


(** X14: [operator+] completes on well-formed polynomials, keeps the
    sequence of the operand of larger degree (the left one for equal
    degrees) and adds the coefficients of the other one to its last
    positions; unary [operator-] negates every coefficient. Neither
    trims the result. *)
Theorem add_neg_coefficients (p q : Poly T) :
  wf p -> wf q ->
  exists S N,
    poly_add p q = Ok S /\ poly_neg p = Ok N /\ wf S /\
    deg_ S = Z.max (deg_ p) (deg_ q) /\
    (forall k : nat,
       let a := if deg_ q <=? deg_ p then coef_ p else coef_ q in
       let b := if deg_ q <=? deg_ p then coef_ q else coef_ p in
       at0 (coef_ S) k =
       if decide (length a - length b <= k < length a)%nat
       then (at0 a k + at0 b (k - (length a - length b)))%S
       else at0 a k) /\
    N = mkPoly (s_opp <$> coef_ p) (deg_ p).
Proof. apply poly_add_neg_spec. Qed.

End OperatorCoefficients.

(** ** Bounds on the roots and conversion to complex coefficients *)

Section RootBound.
Context {T : Type} `{Scalar T} `{RealScalar T}.

(** X15: [upper_bound] of a real polynomial reads [poly[1]]: on a
    polynomial of degree 0 that access is out of range. For a degree of at
    least 1 it returns [1 + m], where [m] is one of the ratios
    [|poly[i] / poly[0]|], [1 <= i <= deg], and no such ratio compares
    greater than [m]; [lower_bound] returns [1 / (1 + m)]. The order is
    only asked to be irreflexive and to let [a < b] and [not (a < c)] give
    [not (b < c)]. *)
Theorem upper_bound_real_max (poly : Poly T) :
  (forall a : T, r_ltb a a = false) ->
  (forall a b c : T,
     r_ltb a b = true -> r_ltb a c = false -> r_ltb b c = false) ->
  wf poly ->
  (deg_ poly = 0 ->
   upper_bound_real poly = OutOfRange /\
   lower_bound_real poly = OutOfRange) /\
  (1 <= deg_ poly ->
   exists m,
     upper_bound_real poly = Ok (s_of_Z 1 + m)%S /\
     lower_bound_real poly = Ok (s_of_Z 1 / (s_of_Z 1 + m))%S /\
     (exists i : nat,
        1 <= Z.of_nat i <= deg_ poly /\
        m = r_abs (at0 (coef_ poly) i / at0 (coef_ poly) 0)%S) /\
     forall i : nat,
       1 <= Z.of_nat i <= deg_ poly ->
       r_ltb m (r_abs (at0 (coef_ poly) i / at0 (coef_ poly) 0)%S) = false).
Proof.
  intros Hirr Htr W. pose proof (wf_length _ W) as L. destruct W as [_ D].
  split.
  - intros Hd. unfold lower_bound_real, upper_bound_real, pget, vget.
    replace (1 <? Z.of_nat (length (coef_ poly))) with false
      by (symmetry; apply Z.ltb_ge; lia).
    done.
  - intros Hd. unfold lower_bound_real, upper_bound_real, pget, deg.
    rewrite !vget_at0 by lia. cbn [bind].
    change (Z.to_nat 1) with 1%nat. change (Z.to_nat 0) with 0%nat.
    set (ratio := fun i : nat =>
           r_abs (at0 (coef_ poly) i / at0 (coef_ poly) 0)%S).
    match goal with
    | |- context [for_loop ?lo ?hi ?body ?s] =>
        destruct (for_loop_inv
          (fun j ub =>
             (exists i : nat, 1 <= Z.of_nat i < j /\ ub = ratio i) /\
             forall i : nat,
               1 <= Z.of_nat i < j -> r_ltb ub (ratio i) = false)
          body lo hi s) as (m & -> & Hex & Hmax)
    end.
    + lia.
    + split.
      * exists 1%nat. split; [lia|done].
      * intros i Hi. replace i with 1%nat by lia. apply Hirr.
    + intros j ub Hj ((i0 & Hi0 & ->) & Hmax).
      rewrite !vget_at0 by lia. cbn [bind].
      fold (ratio (Z.to_nat j)).
      destruct (r_ltb (ratio i0) (ratio (Z.to_nat j))) eqn:E.
      * eexists. split; [done|]. split.
        -- exists (Z.to_nat j). split; [lia|done].
        -- intros i Hi. destruct (decide (i = Z.to_nat j)) as [->|Hne].
           ++ apply Hirr.
           ++ apply (Htr (ratio i0)); [done|]. apply Hmax. lia.
      * eexists. split; [done|]. split.
        -- exists i0. split; [lia|done].
        -- intros i Hi. destruct (decide (i = Z.to_nat j)) as [->|Hne].
           ++ done.
           ++ apply Hmax. lia.
    + cbn [bind]. exists m. split; [done|]. split; [done|].
      destruct Hex as (i & Hi & ->). split.
      * exists i. split; [lia|done].
      * intros i' Hi'. apply Hmax. lia.
Qed.

End RootBound.

Section ComplexCopy.
Context {T C : Type}.
Context {ST : Scalar T} {RT : RealScalar T}.
Context {SC : Scalar C} {CT : ComplexScalar T C} {ET : EigenSolver T C}.

(** X16: on a well-formed polynomial whose degree fits an [int],
    [make_complex_poly] completes and returns the polynomial of the same
    stored degree with every coefficient converted to a complex number. *)
Theorem make_complex_poly_coefficients (poly : Poly T) :
  wf poly -> deg_ poly < 2 ^ 31 ->
  make_complex_poly poly = Ok (mkPoly (c_of_real <$> coef_ poly) (deg_ poly)).
Proof.
  intros W Hs. pose proof (wf_length _ W) as L. pose proof W as [_ D].
  unfold make_complex_poly, deg. rewrite to_int_small by lia.
  rewrite to_size_t_nonneg by lia. by apply fill_loop_spec.
Qed.

End ComplexCopy.

(** ** The segments of a curve *)

Lemma bind_step {A B} (m : outcome A) (k : A -> outcome B) (P : B -> Prop) a :
  m = Ok a -> (exists b, k a = Ok b /\ P b) ->
  exists b, bind m k = Ok b /\ P b.
Proof. by intros ->. Qed.

Section Segments.
Context {T : Type} `{Scalar T}.

Lemma pset0_ok (e : Poly T) (x : T) :
  wf e -> exists e', pset e 0 x = Ok e' /\ wf e' /\ deg_ e' = deg_ e.
Proof.
  intros W. pose proof (wf_length _ W) as L. destruct W as [_ D].
  unfold pset, pupd. rewrite vupd_in_range by lia. cbn [bind].
  eexists. split; [done|]. split; [|done].
  apply wf_intro; simpl; rewrite length_alter; lia.
Qed.

Lemma polys_ok_get n g (l : list (Poly T)) j :
  polys_ok n g l -> 0 <= j < n ->
  exists q, vget l j = Ok q /\ l !! Z.to_nat j = Some q /\
            wf q /\ deg_ q = g j.
Proof.
  intros [Hl Hq] Hj. destruct (vget_in_range l j) as (q & E & Hlk); [lia|].
  exists q. split; [done|]. split; [done|].
  destruct (Hq _ _ Hlk) as [W D]. split; [done|].
  by rewrite Z2Nat.id in D by lia.
Qed.

Lemma polys_ok_set n g g' (l : list (Poly T)) j q' :
  polys_ok n g l -> 0 <= j < n -> wf q' -> deg_ q' = g' j ->
  (forall j', 0 <= j' < n -> j' <> j -> g' j' = g j') ->
  exists l', vset l j q' = Ok l' /\ polys_ok n g' l'.
Proof.
  intros [Hl Hq] Hj W D Hg. unfold vset. rewrite vupd_in_range by lia.
  eexists. split; [done|]. split; [by rewrite length_alter|].
  intros j0 q Hlk. destruct (decide (j0 = Z.to_nat j)) as [->|Hne].
  - rewrite list_lookup_alter_eq in Hlk.
    destruct (l !! Z.to_nat j); simpl in Hlk; [|discriminate].
    injection Hlk as <-. split; [done|]. by rewrite Z2Nat.id by lia.
  - rewrite list_lookup_alter_ne in Hlk by done.
    destruct (Hq _ _ Hlk) as [Wq Dq]. split; [done|].
    rewrite Dq. symmetry. apply Hg; [|lia].
    apply lookup_lt_Some in Hlk. lia.
Qed.

Lemma polys_ok_ext n g g' (l : list (Poly T)) :
  polys_ok n g l -> (forall j, 0 <= j < n -> g' j = g j) ->
  polys_ok n g' l.
Proof.
  intros [Hl Hq] Hg. split; [done|]. intros j q Hlk.
  destruct (Hq _ _ Hlk) as [W D]. split; [done|]. rewrite D. symmetry.
  apply Hg. apply lookup_lt_Some in Hlk. lia.
Qed.

Lemma cells_ok_get n m G (d : list (list (Poly T))) j :
  cells_ok n m G d -> 0 <= j < n ->
  exists row, vget d j = Ok row /\ d !! Z.to_nat j = Some row /\
              polys_ok m (G j) row.
Proof.
  intros [Hl Hr] Hj. destruct (vget_in_range d j) as (row & E & Hlk); [lia|].
  exists row. split; [done|]. split; [done|].
  pose proof (Hr _ _ Hlk) as Hrow. by rewrite Z2Nat.id in Hrow by lia.
Qed.

Lemma cells_ok_set n m G G' (d : list (list (Poly T))) j row' :
  cells_ok n m G d -> 0 <= j < n -> polys_ok m (G' j) row' ->
  (forall j' i, 0 <= j' < n -> j' <> j -> 0 <= i < m -> G' j' i = G j' i) ->
  exists d', vset d j row' = Ok d' /\ cells_ok n m G' d'.
Proof.
  intros [Hl Hr] Hj Hrow HG. unfold vset. rewrite vupd_in_range by lia.
  eexists. split; [done|]. split; [by rewrite length_alter|].
  intros j0 row Hlk. destruct (decide (j0 = Z.to_nat j)) as [->|Hne].
  - rewrite list_lookup_alter_eq in Hlk.
    destruct (d !! Z.to_nat j); simpl in Hlk; [|discriminate].
    injection Hlk as <-. by rewrite Z2Nat.id by lia.
  - rewrite list_lookup_alter_ne in Hlk by done.
    apply (polys_ok_ext m (G (Z.of_nat j0))); [by apply Hr|].
    intros i Hi. apply HG; [|lia|done].
    apply lookup_lt_Some in Hlk. lia.
Qed.

Lemma poly_add_deg (p q : Poly T) :
  wf p -> wf q ->
  exists r, poly_add p q = Ok r /\ wf r /\
            deg_ r = Z.max (deg_ p) (deg_ q).
Proof.
  intros Wp Wq.
  destruct (poly_add_neg_spec p q Wp Wq) as (S & _ & E & _ & W & D & _).
  by exists S.
Qed.

(** One step of the recurrence of [de_boor_nurbs]:
    [(dj * {1, 0} + B * dj + dj1 * {-1, 0} + D * dj1) / den]. *)
Lemma blend_spec (dj dj1 : Poly T) (B D den : T) :
  wf dj -> wf dj1 ->
  exists r, blend dj dj1 B D den = Ok r /\ wf r /\
            deg_ r = Z.max (deg_ dj) (deg_ dj1) + 1.
Proof.
  intros W W1. pose proof (wf_length _ W) as L.
  pose proof (wf_length _ W1) as L1.
  pose proof W as [_ Dj]. pose proof W1 as [_ Dj1].
  assert (forall (c0 c1 : T), wf (Poly_of_vector [c0; c1])) as WX
    by (intros; by apply wf_Poly_of_vector).
  assert (forall (q : Poly T) (v : T), wf q ->
            exists b, scale_poly v q = Ok b /\ wf b /\
                      0 <= deg_ b <= deg_ q) as Hscale.
  { intros q v Wq. pose proof (wf_length _ Wq). pose proof Wq as [_ Dq].
    unfold scale_poly. rewrite poly_scale_spec by done.
    destruct (s_eqb v 0%S); eexists; (split; [done|]); simpl.
    - split; [apply wf_intro; simpl; lia|lia].
    - split; [apply wf_intro; simpl; rewrite ?length_fmap; lia|lia]. }
  unfold blend.
  assert (forall (c0 c1 : T), deg_ (Poly_of_vector [c0; c1]) = 1) as DX
    by done.
  destruct (poly_mul_spec dj (Poly_of_vector [s_of_Z 1; s_of_Z 0])
              W (WX _ _)) as (m1 & -> & Wm1 & Dm1 & _).
  rewrite DX in Dm1.
  cbn [bind]. destruct (Hscale dj B W) as (b1 & -> & Wb1 & Db1). cbn [bind].
  destruct (poly_add_deg m1 b1 Wm1 Wb1) as (t1 & -> & Wt1 & Dt1).
  cbn [bind].
  destruct (poly_mul_spec dj1 (Poly_of_vector [s_of_Z (-1); s_of_Z 0])
              W1 (WX _ _)) as (m2 & -> & Wm2 & Dm2 & _).
  rewrite DX in Dm2.
  cbn [bind]. destruct (Hscale dj1 D W1) as (b2 & -> & Wb2 & Db2).
  cbn [bind].
  destruct (poly_add_deg m2 b2 Wm2 Wb2) as (t2 & -> & Wt2 & Dt2).
  cbn [bind].
  destruct (poly_add_deg t1 t2 Wt1 Wt2) as (s & -> & Ws & Ds).
  cbn [bind]. rewrite poly_div_scalar_spec by done.
  pose proof (wf_length _ Ws). pose proof Ws as [_ Dss].
  eexists. split; [done|]. simpl in *.
  split; [apply wf_intro; simpl; rewrite ?length_fmap; lia|lia].
Qed.

End Segments.

Section Tables.
Context {T : Type} `{Scalar T}.

Lemma polys_ok_replicate n g (q : Poly T) :
  0 <= n -> wf q -> (forall j, 0 <= j < n -> deg_ q = g j) ->
  polys_ok n g (replicate (Z.to_nat n) q).
Proof.
  intros Hn W Hg. split; [rewrite length_replicate; lia|].
  intros j q' Hlk. apply lookup_replicate in Hlk as [-> Hj].
  split; [done|]. apply Hg. lia.
Qed.

Lemma cells_ok_replicate n m G (row : list (Poly T)) :
  0 <= n -> (forall j, 0 <= j < n -> polys_ok m (G j) row) ->
  cells_ok n m G (replicate (Z.to_nat n) row).
Proof.
  intros Hn Hrow. split; [rewrite length_replicate; lia|].
  intros j row' Hlk. apply lookup_replicate in Hlk as [-> Hj].
  apply Hrow. lia.
Qed.

Lemma cells_ok_ext n m G G' (d : list (list (Poly T))) :
  cells_ok n m G d ->
  (forall j i, 0 <= j < n -> 0 <= i < m -> G' j i = G j i) ->
  cells_ok n m G' d.
Proof.
  intros [Hl Hr] HG. split; [done|]. intros j row Hlk.
  apply (polys_ok_ext m (G (Z.of_nat j))); [by apply Hr|].
  intros i Hi. apply HG; [|done]. apply lookup_lt_Some in Hlk. lia.
Qed.

Lemma polys_ok_Forall m g (row : list (Poly T)) (a : Z) :
  polys_ok m g row -> (forall i, 0 <= i < m -> g i = a) ->
  Forall (fun e => wf e /\ deg_ e = a) row.
Proof.
  intros [Hl Hq] Hg. apply Forall_lookup. intros i e Hlk.
  destruct (Hq _ _ Hlk) as [W D]. split; [done|]. rewrite D.
  apply Hg. apply lookup_lt_Some in Hlk. lia.
Qed.

End Tables.

Section DeBoor.
Context {T : Type} `{Scalar T}.
Variables (k p dim : Z) (knots weights : list T) (points : list (list T)).
Hypothesis Hp : 0 <= p <= k.
Hypothesis Hw : k < Z.of_nat (length weights).
Hypothesis Hpts : k < Z.of_nat (length points).
Hypothesis Hkn : k + p < Z.of_nat (length knots).
Hypothesis Hdim : Forall (fun pt => Z.of_nat (length pt) = dim) points.

Lemma dim_nonneg : 0 <= dim.
Proof.
  destruct (lookup_lt_is_Some_2 points (Z.to_nat k)) as [pt Hpt]; [lia|].
  rewrite Forall_lookup in Hdim. rewrite <- (Hdim _ _ Hpt). lia.
Qed.

Lemma point_get i :
  0 <= i <= k ->
  exists pt, vget points i = Ok pt /\ Z.of_nat (length pt) = dim.
Proof.
  intros Hi. destruct (vget_in_range points i) as (pt & E & Hlk); [lia|].
  exists pt. split; [done|]. rewrite Forall_lookup in Hdim.
  by apply (Hdim _ _ Hlk).
Qed.

(** The first loop: the weights and the weighted control points are
    written to the constant coefficients. *)
Lemma init_coordinates (d : list (list (Poly T))) i :
  cells_ok (p + 1) dim (fun _ _ => 0) d -> 0 <= i <= p ->
  exists d',
    for_loop 0 dim
      (fun j d =>
         pt <- vget points (i + k - p) ;;
         x <- vget pt j ;;
         w <- vget weights (i + k - p) ;;
         row <- vget d i ;;
         e <- vget row j ;;
         e <- pset e 0 (x * w)%S ;;
         row <- vset row j e ;;
         vset d i row)
      d = Ok d' /\
    cells_ok (p + 1) dim (fun _ _ => 0) d'.
Proof.
  intros Hc Hi. pose proof dim_nonneg.
  apply (for_loop_inv (fun _ d => cells_ok (p + 1) dim (fun _ _ => 0) d));
    [done|done|].
  intros j d1 Hj Hd1.
  destruct (point_get (i + k - p)) as (pt & -> & Lpt); [lia|]. cbn [bind].
  destruct (vget_in_range pt j) as (x & -> & _); [lia|]. cbn [bind].
  destruct (vget_in_range weights (i + k - p)) as (w & -> & _); [lia|].
  cbn [bind].
  destruct (cells_ok_get _ _ _ d1 i Hd1) as (row & -> & _ & Hrow); [lia|].
  cbn [bind].
  destruct (polys_ok_get _ _ row j Hrow) as (e & -> & _ & We & De); [lia|].
  cbn [bind].
  destruct (pset0_ok e (x * w)%S We) as (e' & -> & We' & De'). cbn [bind].
  destruct (polys_ok_set dim (fun _ => 0) (fun _ => 0) row j e' Hrow)
    as (row' & -> & Hrow'); [lia|done|lia|done|]. cbn [bind].
  apply (cells_ok_set (p + 1) dim (fun _ _ => 0) (fun _ _ => 0));
    [done|lia|done|done].
Qed.

(** The loop on the coordinates in one step of the recurrence, at row
    [j]: the polynomials of rows [j] and [j - 1] have the degree [a]. *)
Lemma blend_coordinates (G : Z -> Z) (d : list (list (Poly T)))
    (j a : Z) (B D den : T) :
  cells_ok (p + 1) dim (fun j' _ => G j') d -> 1 <= j <= p ->
  G j = a -> G (j - 1) = a ->
  exists d',
    for_loop 0 dim
      (fun i d =>
         rowj <- vget d j ;;
         e <- vget rowj i ;;
         rowj1 <- vget d (j - 1) ;;
         e1 <- vget rowj1 i ;;
         ne <- blend e e1 B D den ;;
         rowj <- vset rowj i ne ;;
         vset d j rowj)
      d = Ok d' /\
    cells_ok (p + 1) dim (fun j' _ => if j' =? j then a + 1 else G j') d'.
Proof.
  intros Hc Hj Ha Ha1. pose proof dim_nonneg.
  set (L := fun (i : Z) (j' i' : Z) =>
              if j' =? j then (if i' <? i then a + 1 else a) else G j').
  destruct (for_loop_inv (fun i d => cells_ok (p + 1) dim (L i) d)
    (fun i d =>
       rowj <- vget d j ;;
       e <- vget rowj i ;;
       rowj1 <- vget d (j - 1) ;;
       e1 <- vget rowj1 i ;;
       ne <- blend e e1 B D den ;;
       rowj <- vset rowj i ne ;;
       vset d j rowj)
    0 dim d) as (d' & E & Hd'); [done| | |].
  - apply (cells_ok_ext _ _ (fun j' _ => G j')); [done|].
    intros j' i' Hj' Hi'. unfold L.
    destruct (Z.eqb_spec j' j) as [->|]; [|done].
    by replace (i' <? 0) with false by (symmetry; apply Z.ltb_ge; lia).
  - intros i d1 Hi Hd1.
    destruct (cells_ok_get _ _ _ d1 j Hd1) as (rowj & -> & _ & Hrowj);
      [lia|]. cbn [bind].
    destruct (polys_ok_get _ _ rowj i Hrowj) as (e & -> & _ & We & De);
      [lia|]. cbn [bind].
    destruct (cells_ok_get _ _ _ d1 (j - 1) Hd1) as (rowj1 & -> & _ & Hrowj1);
      [lia|]. cbn [bind].
    destruct (polys_ok_get _ _ rowj1 i Hrowj1) as (e1 & -> & _ & We1 & De1);
      [lia|]. cbn [bind].
    destruct (blend_spec e e1 B D den We We1) as (ne & -> & Wne & Dne).
    cbn [bind]. unfold L in De, De1.
    rewrite Z.eqb_refl in De.
    replace (i <? i) with false in De by (symmetry; apply Z.ltb_ge; lia).
    replace (j - 1 =? j) with false in De1
      by (symmetry; apply Z.eqb_neq; lia).
    destruct (polys_ok_set dim (L i j) (L (i + 1) j) rowj i ne Hrowj)
      as (rowj' & -> & Hrowj'); [lia|done| | |].
    + unfold L. rewrite Z.eqb_refl.
      replace (i <? i + 1) with true by (symmetry; apply Z.ltb_lt; lia).
      lia.
    + intros i' Hi' Hne. unfold L. rewrite Z.eqb_refl.
      destruct (Z.ltb_spec i' (i + 1)), (Z.ltb_spec i' i); done || lia.
    + cbn [bind].
      apply (cells_ok_set (p + 1) dim (L i) (L (i + 1))); [done|lia|done|].
      intros j' i' Hj' Hne Hi'. unfold L.
      by replace (j' =? j) with false by (symmetry; apply Z.eqb_neq; lia).
  - exists d'. split; [done|].
    apply (cells_ok_ext _ _ (L dim)); [done|].
    intros j' i' Hj' Hi'. unfold L.
    destruct (Z.eqb_spec j' j); [|done].
    by replace (i' <? dim) with true by (symmetry; apply Z.ltb_lt; lia).
Qed.

Lemma de_boor_nurbs_ok :
  exists num den,
    de_boor_nurbs k knots weights points p = Ok (num, den) /\
    polys_ok dim (fun _ => p) num /\ wf den /\ deg_ den = p.
Proof.
  pose proof dim_nonneg as Hd0.
  assert (wf (@Poly_default T _)) as Wdef by (apply wf_intro; simpl; lia).
  unfold de_boor_nurbs.
  destruct (point_get 0) as (pt0 & -> & L0); [lia|]. cbn [bind].
  cbv zeta. rewrite L0.
  match goal with
  | |- context [for_loop 0 (p + 1) ?body ?s] =>
      destruct (for_loop_inv
        (fun _ (st : list (list (Poly T)) * list (Poly T)) =>
           cells_ok (p + 1) dim (fun _ _ => 0) (fst st) /\
           polys_ok (p + 1) (fun _ => 0) (snd st))
        body 0 (p + 1) s) as ([d1 dd1] & -> & Hc1 & Hd1)
  end.
  - lia.
  - simpl. split.
    + apply cells_ok_replicate; [lia|]. intros j Hj.
      by apply polys_ok_replicate.
    + apply polys_ok_replicate; [lia|done|done].
  - intros i [d dd] Hi [Hc Hd]. simpl in Hc, Hd. cbn beta iota.
    destruct (vget_in_range weights (i + k - p)) as (w & Ew & _); [lia|].
    eapply bind_step; [exact Ew|].
    destruct (polys_ok_get _ _ dd i Hd) as (di & -> & _ & Wdi & Ddi); [lia|].
    cbn [bind]. destruct (pset0_ok di w Wdi) as (di' & -> & Wdi' & Ddi').
    cbn [bind].
    destruct (polys_ok_set (p + 1) (fun _ => 0) (fun _ => 0) dd i di' Hd)
      as (dd' & -> & Hdd'); [lia|done|lia|done|]. cbn [bind].
    destruct (init_coordinates d i Hc) as (d' & -> & Hc'); [lia|].
    cbn [bind]. eexists. split; [done|]. by split.
  - cbn [bind]. simpl in Hc1, Hd1.
    match goal with
    | |- context [for_loop 1 (p + 1) ?body ?s] =>
        destruct (for_loop_inv
          (fun r (st : list (list (Poly T)) * list (Poly T)) =>
             cells_ok (p + 1) dim (fun j _ => Z.min j (r - 1)) (fst st) /\
             polys_ok (p + 1) (fun j => Z.min j (r - 1)) (snd st))
          body 1 (p + 1) s) as ([d2 dd2] & -> & Hc2 & Hd2)
    end.
    + lia.
    + simpl. split.
      * apply (cells_ok_ext _ _ (fun _ _ => 0)); [done|]. intros; lia.
      * apply (polys_ok_ext _ (fun _ => 0)); [done|]. intros; lia.
    + intros r [d dd] Hr [Hc Hd]. simpl in Hc, Hd. cbn beta.
      set (gg := fun (c j : Z) =>
                   if p - c <? j then Z.min j r else Z.min j (r - 1)).
      match goal with
      | |- context [for_steps ?n 0 ?body ?s] =>
          destruct (for_steps_inv
            (fun c (st : list (list (Poly T)) * list (Poly T)) =>
               cells_ok (p + 1) dim (fun j _ => gg c j) (fst st) /\
               polys_ok (p + 1) (gg c) (snd st))
            body n 0 s) as ([d3 dd3] & E3 & Hc3 & Hd3)
      end.
      * simpl. split.
        -- apply (cells_ok_ext _ _ (fun j _ => Z.min j (r - 1))); [done|].
           intros j i Hj Hi. unfold gg.
           by replace (p - 0 <? j) with false
             by (symmetry; apply Z.ltb_ge; lia).
        -- apply (polys_ok_ext _ (fun j => Z.min j (r - 1))); [done|].
           intros j Hj. unfold gg.
           by replace (p - 0 <? j) with false
             by (symmetry; apply Z.ltb_ge; lia).
      * intros c [d' dd'] Hc' [Hcc Hdd]. simpl in Hcc, Hdd.
        cbn beta iota.
        destruct (vget_in_range knots (p - c + 1 + k - r)) as (k1 & -> & _);
          [lia|]. cbn [bind].
        destruct (vget_in_range knots (p - c + k - p)) as (k0 & -> & _);
          [lia|]. cbn [bind].
        assert (gg c (p - c) = r - 1) as G1.
        { unfold gg.
          replace (p - c <? p - c) with false
            by (symmetry; apply Z.ltb_ge; lia). lia. }
        assert (gg c (p - c - 1) = r - 1) as G2.
        { unfold gg.
          replace (p - c <? p - c - 1) with false
            by (symmetry; apply Z.ltb_ge; lia). lia. }
        destruct (polys_ok_get _ _ dd' (p - c) Hdd)
          as (dj & -> & _ & Wdj & Ddj); [lia|]. cbn [bind].
        destruct (polys_ok_get _ _ dd' (p - c - 1) Hdd)
          as (dj1 & -> & _ & Wdj1 & Ddj1); [lia|]. cbn [bind].
        destruct (blend_spec dj dj1 (- k0)%S k1 (k1 - k0)%S Wdj Wdj1)
          as (nd & -> & Wnd & Dnd). cbn [bind].
        assert (forall j', 0 <= j' < p + 1 -> j' <> p - c ->
                           gg (c + 1) j' = gg c j') as Gother.
        { intros j' Hj' Hne. unfold gg.
          destruct (Z.ltb_spec (p - (c + 1)) j'),
                   (Z.ltb_spec (p - c) j'); done || lia. }
        assert (gg (c + 1) (p - c) = r) as G3.
        { unfold gg.
          replace (p - (c + 1) <? p - c) with true
            by (symmetry; apply Z.ltb_lt; lia). lia. }
        destruct (polys_ok_set (p + 1) (gg c) (gg (c + 1)) dd' (p - c) nd
                    Hdd) as (dd'' & -> & Hdd''); [lia|done|lia|done|].
        cbn [bind].
        destruct (blend_coordinates (gg c) d' (p - c) (r - 1)
                    (- k0)%S k1 (k1 - k0)%S Hcc)
          as (d'' & -> & Hd''); [lia|done|done|]. cbn [bind].
        eexists. split; [done|]. split; simpl; [|done].
        apply (cells_ok_ext _ _ _ _ _ Hd''). intros j' i' Hj' Hi'.
        destruct (Z.eqb_spec j' (p - c)) as [->|Hne]; [lia|].
        by apply Gother.
      * exists (d3, dd3). split; [exact E3|]. simpl in Hc3, Hd3.
        assert (forall j, 0 <= j < p + 1 ->
                  Z.min j (r + 1 - 1)
                  = gg (0 + Z.of_nat (Z.to_nat (p - (r - 1)))) j) as Gend.
        { intros j Hj. unfold gg.
          destruct (Z.ltb_spec (p - (0 + Z.of_nat (Z.to_nat (p - (r - 1)))))
                      j); lia. }
        split; simpl.
        -- apply (cells_ok_ext _ _ _ _ _ Hc3). intros j i Hj Hi.
           by apply Gend.
        -- apply (polys_ok_ext _ _ _ _ Hd3). intros j Hj. by apply Gend.
    + cbn [bind]. simpl in Hc2, Hd2. cbn [fst snd].
      destruct (cells_ok_get _ _ _ d2 p Hc2) as (num & -> & _ & Hnum);
        [lia|]. cbn [bind].
      destruct (polys_ok_get _ _ dd2 p Hd2) as (den & -> & _ & Wden & Dden);
        [lia|]. cbn [bind].
      exists num, den. split; [done|]. split.
      * apply (polys_ok_ext _ _ _ _ Hnum). intros; lia.
      * split; [done|]. lia.
Qed.

(** X17: on an index [k] with [p <= k], inside the weights and the
    control points, and with [k + p] inside the knots, for control points
    of one dimension [dim], [de_boor_nurbs] completes without an access
    out of range and returns [dim] numerators and one denominator, each
    well-formed and of stored degree exactly [p]: every step of the
    recurrence raises the degree by one and nothing is trimmed. *)
Theorem de_boor_nurbs_degree :
  exists num den,
    de_boor_nurbs k knots weights points p = Ok (num, den) /\
    Z.of_nat (length num) = dim /\
    Forall (fun e => wf e /\ deg_ e = p) num /\
    wf den /\ deg_ den = p.
Proof.
  destruct de_boor_nurbs_ok as (num & den & E & Hnum & Wden & Dden).
  exists num, den. split; [done|]. split; [by destruct Hnum|].
  split; [|done]. by apply (polys_ok_Forall dim (fun _ => p)).
Qed.

End DeBoor.

Section Construction.
Context {T : Type} `{Scalar T} `{RealScalar T}.

Lemma update_real_le (e : Poly T) :
  wf e -> exists e', update_real e = Ok e' /\ wf e' /\ deg_ e' <= deg_ e.
Proof.
  intros W. destruct (update_real_spec e W) as (i0 & E & Hi0 & _).
  eexists. split; [exact E|]. split; [by apply drop_wf|].
  simpl. rewrite to_size_t_nonneg by lia. lia.
Qed.

Lemma create_coefs_ok (c : NURBS T) (dim : Z) :
  0 <= nurbs_p c -> 0 <= N_segments c ->
  Forall (fun pt => Z.of_nat (length pt) = dim) (cv c) ->
  (forall i, 0 <= i < N_segments c ->
     exists ki,
       ks c !! Z.to_nat i = Some ki /\
       nurbs_p c <= ki /\ ki < Z.of_nat (length (weights c)) /\
       ki < Z.of_nat (length (cv c)) /\
       ki + nurbs_p c < Z.of_nat (length (knots c))) ->
  Forall (segment_ok (nurbs_p c) dim) (coefs c) ->
  exists cs,
    create_coefs c
    = Ok (mkNURBS (nurbs_p c) (nurbs_dim c) (N_segments c) (knots c)
            (weights c) (cv c) (domain c) (ks c) cs) /\
    Z.of_nat (length cs) = Z.of_nat (length (coefs c)) + N_segments c /\
    Forall (segment_ok (nurbs_p c) dim) cs.
Proof.
  intros Hp0 HN Hdim Hks Hcs. unfold create_coefs.
  match goal with
  | |- context [for_loop 0 (N_segments c) ?body ?s] =>
      destruct (for_loop_inv
        (fun i (cs : list (Rational T)) =>
           Z.of_nat (length cs) = Z.of_nat (length (coefs c)) + i /\
           Forall (segment_ok (nurbs_p c) dim) cs)
        body 0 (N_segments c) s) as (cs & -> & Hl & Hok)
  end.
  - done.
  - split; [lia|done].
  - intros i cs Hi [Hl Hok].
    destruct (Hks i Hi) as (ki & Hki & K1 & K2 & K3 & K4).
    rewrite (vget_lookup (ks c) i ki) by (lia || done). cbn [bind].
    destruct (de_boor_nurbs_ok ki (nurbs_p c) dim (knots c) (weights c)
                (cv c)) as (num & den & -> & Hnum & Wden & Dden);
      [lia|done|done|done|done|]. cbn [bind].
    eexists. split; [done|]. rewrite length_app. simpl.
    split; [lia|]. apply Forall_app. split; [done|].
    apply Forall_singleton. split; [by destruct Hnum|]. simpl.
    split; [|split; [done|lia]].
    eapply Forall_impl;
      [apply (polys_ok_Forall dim (fun _ => nurbs_p c) num (nurbs_p c));
       done|].
    intros e [We De]. split; [done|lia].
  - cbn [bind]. by exists cs.
Qed.

Lemma polishing_ok (c : NURBS T) (p : Z) :
  Forall (segment_ok p (nurbs_dim c)) (coefs c) ->
  exists cs,
    polishing c
    = Ok (mkNURBS (nurbs_p c) (nurbs_dim c) (N_segments c) (knots c)
            (weights c) (cv c) (domain c) (ks c) cs) /\
    length cs = length (coefs c) /\
    Forall (segment_ok p (nurbs_dim c)) cs.
Proof.
  intros Hcs. unfold polishing.
  match goal with
  | |- context [for_loop 0 ?hi ?body ?s] =>
      destruct (for_loop_inv
        (fun _ (cs : list (list (Poly T) * Poly T)) =>
           length cs = length (coefs c) /\
           Forall (segment_ok p (nurbs_dim c)) cs)
        body 0 hi s) as (cs & -> & Hl & Hok)
  end.
  - lia.
  - done.
  - intros i cs Hi [Hl Hok].
    destruct (vget_in_range cs i) as ([num den] & -> & Hlk); [lia|].
    cbn [bind fst snd].
    rewrite Forall_lookup in Hok.
    destruct (Hok _ _ Hlk) as (Ln & Hnum & Wden & Dden). simpl in *.
    destruct (update_real_le den Wden) as (den' & -> & Wden' & Dden').
    cbn [bind].
    destruct (for_loop_inv
      (fun _ (num : list (Poly T)) =>
         Z.of_nat (length num) = nurbs_dim c /\
         Forall (fun e => wf e /\ deg_ e <= p) num)
      (fun d num =>
         e <- vget num d ;; e <- update_real e ;; vset num d e)
      0 (nurbs_dim c) num) as (num' & -> & Ln' & Hnum'); [lia|done| |].
    + intros d num1 Hd [Ln1 Hnum1].
      destruct (vget_in_range num1 d) as (e & -> & He); [lia|].
      cbn [bind]. rewrite Forall_lookup in Hnum1.
      destruct (Hnum1 _ _ He) as [We De].
      destruct (update_real_le e We) as (e' & -> & We' & De').
      cbn [bind]. unfold vset. rewrite vupd_in_range by lia.
      eexists. split; [done|]. rewrite length_alter. split; [done|].
      apply Forall_alter; [by apply Forall_lookup|].
      intros. split; [done|lia].
    + cbn [bind]. unfold vset. rewrite vupd_in_range by lia.
      eexists. split; [done|]. rewrite length_alter. split; [done|].
      apply Forall_alter; [by apply Forall_lookup|].
      intros. split; [done|]. simpl. split; [done|]. split; [done|lia].
  - cbn [bind]. by exists cs.
Qed.

(** X18: the constructor [NURBS(p, knots, weights, cv)], for the
    segment indexes [ks] that [create_intervals] returned, completes
    without an access out of range when all control points have one
    dimension [dim] and every index but the last one is a valid argument of
    [de_boor_nurbs]; the curve then holds one rational segment for each
    index but the last, with [dim] numerators and a denominator that are
    well-formed and of stored degree at most [p]. *)
Theorem NURBS_new_segments (p_ dim : Z) (knots_ weights_ : list T)
    (cv_ : list (list T)) (ks_ : list Z) :
  0 <= p_ -> cv_ <> [] ->
  1 <= Z.of_nat (length ks_) < 2 ^ 31 ->
  Forall (fun pt => Z.of_nat (length pt) = dim) cv_ ->
  (forall i, 0 <= i < Z.of_nat (length ks_) - 1 ->
     exists ki,
       ks_ !! Z.to_nat i = Some ki /\
       p_ <= ki /\ ki < Z.of_nat (length weights_) /\
       ki < Z.of_nat (length cv_) /\
       ki + p_ < Z.of_nat (length knots_)) ->
  exists c,
    NURBS_new p_ knots_ weights_ cv_ ks_ = Ok c /\
    nurbs_p c = p_ /\ nurbs_dim c = dim /\
    N_segments c = Z.of_nat (length ks_) - 1 /\
    knots c = knots_ /\ weights c = weights_ /\ cv c = cv_ /\ ks c = ks_ /\
    Z.of_nat (length (coefs c)) = Z.of_nat (length ks_) - 1 /\
    Forall (segment_ok p_ dim) (coefs c).
Proof.
  intros Hp Hcv Hks Hdim Hvalid. unfold NURBS_new.
  destruct cv_ as [|cv0 cv']; [done|].
  rewrite (vget_lookup _ 0 cv0) by done. cbn [bind].
  assert (Z.of_nat (length cv0) = dim) as ->
    by (by apply Forall_cons_1 in Hdim as [? _]).
  rewrite to_size_t_nonneg, to_int_small by lia.
  match goal with
  | |- context [create_coefs ?c0] =>
      destruct (create_coefs_ok c0 dim) as (cs & -> & Lcs & Hcs)
  end; simpl; try done; try lia.
  cbn [bind].
  match goal with
  | |- context [polishing ?c1] =>
      destruct (polishing_ok c1 p_) as (cs' & -> & Lcs' & Hcs')
  end; [done|].
  eexists. split; [done|]. simpl in *. repeat (split; [done|]).
  split; [lia|done].
Qed.

End Construction.

(** ** The closed forms of the root solver *)

Section ClosedFormRoots.
Context {T C : Type}.
Context {ST : Scalar T} {EF : ExactField T} {RT : RealScalar T}.
Context {SC : Scalar C} {CT : ComplexScalar T C} {ET : EigenSolver T C}.
Add Field Tfield_roots : ef_field.

Lemma wf_coefs_2 (p : Poly T) :
  wf p -> deg_ p = 1 -> exists c0 c1, coef_ p = [c0; c1].
Proof.
  intros [_ D] Hd. destruct (coef_ p) as [|c0 [|c1 [|c2 l]]];
    simpl in D; try lia. by eexists _, _.
Qed.

(** X19: for a polynomial of degree 1 with a leading coefficient that is
    not zero, [solve] returns one root of multiplicity 1, and in exact
    arithmetic the polynomial is zero there. For a polynomial of degree 0
    it returns the root 0 with multiplicity 1, whatever the constant. *)
Theorem solve_linear_root (p : Poly T) (type : Z) :
  wf p ->
  (deg_ p = 0 -> solve p type = Ok [(1, s_of_Z 0)]) /\
  (deg_ p = 1 -> at0 (coef_ p) 0 <> 0%S ->
   exists x,
     solve p type = Ok [(1, c_of_real x)] /\ At p x = Ok 0%S).
Proof.
  intros W. split.
  - intros Hd. unfold solve. by rewrite Hd.
  - intros Hd Hc. destruct (wf_coefs_2 p W Hd) as (c0 & c1 & Ec).
    exists (- c1 / c0)%S. split.
    + unfold solve. rewrite Hd, Ec. done.
    + rewrite At_value by done. rewrite Ec in Hc |- *.
      rewrite at0_cons_0 in Hc. simpl. f_equal. by field.
Qed.

(** X20: for a polynomial [a x^2 + b x + c] with [a] not zero whose
    discriminant [D = b^2 - 4ac] is positive and not below the tolerance,
    [solve] returns two real roots of multiplicity 1, and in exact
    arithmetic with an exact square root of [D] the polynomial is zero at
    both and their sum is [-b / a]. *)
Theorem solve_quadratic_real_roots (p : Poly T) (type : Z) (a b c : T) :
  coef_ p = [a; b; c] -> deg_ p = 2 -> a <> 0%S ->
  (s_of_Z 4 : T) = ((1 + 1) * (1 + 1))%S ->
  (r_of_Q 2 : T) = (1 + 1)%S -> (1 + 1 : T)%S <> 0%S ->
  r_ltb (r_abs (b * b - s_of_Z 4 * a * c)%S) EPS = false ->
  r_ltb 0%S (b * b - s_of_Z 4 * a * c)%S = true ->
  (r_sqrt (b * b - s_of_Z 4 * a * c) * r_sqrt (b * b - s_of_Z 4 * a * c))%S
  = (b * b - s_of_Z 4 * a * c)%S ->
  exists x1 x2,
    solve p type = Ok [(1, c_of_real x1); (1, c_of_real x2)] /\
    At p x1 = Ok 0%S /\ At p x2 = Ok 0%S /\
    (x1 + x2)%S = (- b / a)%S.
Proof.
  intros Ec Hd Ha H4 H2 H2n HD1 HD2 Hs.
  assert (wf p) as W by (apply wf_intro; rewrite Ec; simpl; lia).
  set (s := r_sqrt (b * b - s_of_Z 4 * a * c)%S) in *.
  exists ((- b + s) / r_of_Q 2 / a)%S, ((- b - s) / r_of_Q 2 / a)%S.
  split.
  - unfold solve, solve_quadratic, pget. rewrite Hd, Ec. simpl.
    fold s. by rewrite HD1, HD2.
  - rewrite !At_value by done. rewrite Ec. simpl. rewrite H2.
    rewrite H4 in Hs. clearbody s. clear HD1 HD2 Ec W.
    assert ((1 + 1) * (1 + 1) <> (0 : T))%S as H4n.
    { intros Hm. apply H2n.
      replace (1 + 1 : T)%S with ((1 + 1) * (1 + 1) / (1 + 1) : T)%S
        by (by field).
      rewrite Hm. by field. }
    assert (c = (b * b - s * s) / ((1 + 1) * (1 + 1) * a))%S as ->.
    { rewrite Hs. field.
      repeat split; first [exact Ha|exact H4n|exact H2n]. }
    split; [f_equal; field;
            repeat split; first [exact Ha|exact H4n|exact H2n]|].
    split; [f_equal; field;
            repeat split; first [exact Ha|exact H4n|exact H2n]|].
    field. repeat split; first [exact Ha|exact H4n|exact H2n].
Qed.

End ClosedFormRoots.

(** ** Normalizing a polynomial and a curve *)

Section Normalizing.
Context {T : Type} `{Scalar T}.

Lemma normalize_closed (q : Poly T) :
  wf q ->
  normalize q
  = Ok (if s_eqb (at0 (coef_ q) 0) 0%S then q
        else scaled_down (at0 (coef_ q) 0) q,
        at0 (coef_ q) 0).
Proof.
  intros W. pose proof (wf_length _ W). unfold normalize.
  rewrite vget_at0 by lia. cbn [bind]. change (Z.to_nat 0) with 0%nat.
  by destruct (s_eqb (at0 (coef_ q) 0) 0%S).
Qed.

(** X21: on a curve whose segments are well-formed, with as many
    numerators as the dimension, [polishing2] completes and replaces every
    segment by the one with all numerator coefficients divided by the
    leading coefficient of the denominator; the denominator is divided by
    it too unless it compares equal to zero, in which case the numerators
    are divided by that zero all the same. *)
Theorem polishing2_segments (c : NURBS T) (p : Z) :
  Forall (segment_ok p (nurbs_dim c)) (coefs c) ->
  polishing2 c
  = Ok (mkNURBS (nurbs_p c) (nurbs_dim c) (N_segments c) (knots c)
          (weights c) (cv c) (domain c) (ks c) (polished2 <$> coefs c)).
Proof.
  intros Hcs. unfold polishing2.
  rewrite (map_loop_spec (segment_ok p (nurbs_dim c)) (coefs c) polished2);
    [done|done|].
  intros i cs [num den] Hi Hlk (Ln & Hnum & Wden & _).
  cbn [fst snd] in *. cbn beta.
  rewrite (vget_lookup (A := list (Poly T) * Poly T) cs i (num, den))
    by done. cbn [bind fst snd].
  rewrite normalize_closed by done. cbn [bind fst snd].
  rewrite <- Ln.
  rewrite (map_loop_spec (fun e => wf e /\ deg_ e <= p) num
             (scaled_down (at0 (coef_ den) 0))); [|done|].
  - cbn [bind]. unfold vset. apply lookup_lt_Some in Hlk.
    unfold Rational in *. rewrite vupd_in_range by lia. done.
  - intros d nm e Hd He [We _]. apply lookup_lt_Some in He as Hlt.
    rewrite (vget_lookup nm d e) by done. cbn [bind].
    rewrite div_assign_scalar_spec by done. cbn [bind]. unfold vset.
    by rewrite vupd_in_range by lia.
Qed.

End Normalizing.

Section NormalizingExact.
Context {T : Type} `{EF : ExactField T}.
Add Field Tfield_norm : ef_field.

Lemma pval_scaled_down (a0 : T) (l : list T) x :
  a0 <> 0%S ->
  pval ((fun c => c / a0)%S <$> l) x = (pval l x / a0)%S.
Proof.
  intros Ha. induction l as [|c l IH]; [simpl; by field|].
  rewrite fmap_cons. cbn [pval]. rewrite IH, length_fmap. by field.
Qed.

(** X22: in exact arithmetic [normalize], on a polynomial with a leading
    coefficient that is not zero, returns that coefficient and leaves a
    polynomial of the same degree with leading coefficient 1 whose value
    at every point is the former value divided by it, so with the same
    roots; a second [normalize] returns 1 and changes nothing. *)
Theorem normalize_monic (p : Poly T) (x : T) :
  wf p -> at0 (coef_ p) 0 <> 0%S ->
  exists r v,
    normalize p = Ok (r, at0 (coef_ p) 0) /\
    wf r /\ deg_ r = deg_ p /\ at0 (coef_ r) 0 = 1%S /\
    At p x = Ok v /\ At r x = Ok (v / at0 (coef_ p) 0)%S /\
    normalize r = Ok (r, 1%S).
Proof.
  intros W Ha. pose proof (wf_length _ W) as L. pose proof W as [_ D].
  assert (s_eqb (at0 (coef_ p) 0) 0%S = false) as Hb by (by apply s_eqb_false).
  set (a0 := at0 (coef_ p) 0) in *.
  assert (wf (scaled_down a0 p)) as Wr
    by (apply wf_intro; simpl; rewrite ?length_fmap; lia).
  assert (at0 (coef_ (scaled_down a0 p)) 0 = 1%S) as Hlead.
  { simpl. rewrite at0_fmap by lia. fold a0. by field. }
  exists (scaled_down a0 p), (pval (coef_ p) x).
  rewrite normalize_closed by done. fold a0. rewrite Hb.
  split; [done|]. split; [done|]. split; [done|]. split; [done|].
  rewrite !At_value by done. split; [done|].
  split; [simpl; by rewrite pval_scaled_down|].
  rewrite normalize_closed by done. rewrite Hlead.
  assert (s_eqb (1%S : T) 0%S = false) as ->
    by (apply s_eqb_false, one_neq_zero).
  f_equal. f_equal. unfold scaled_down at 1. simpl.
  destruct p as [cs d]. unfold scaled_down. simpl. f_equal.
  rewrite <- list_fmap_compose. apply list_fmap_ext.
  intros i c _. simpl. field.
  repeat split; first [exact Ha|apply one_neq_zero].
Qed.

End NormalizingExact.

(** ** Division of a product *)

Section ExactQuotient.
Context {T : Type} `{EF : ExactField T}.
Add Field Tfield_quot : ef_field.

Lemma sum_if_head n (c : nat -> bool) (f : nat -> T) :
  sum_if (S n) c f
  = ((if c 0%nat then f 0%nat else 0)
     + sum_if n (fun i => c (S i)) (fun i => f (S i)))%S.
Proof.
  induction n as [|n IH].
  - simpl. destruct (c 0%nat); ring.
  - change (sum_if (S (S n)) c f)
      with (if c (S n) then (sum_if (S n) c f + f (S n))%S
            else sum_if (S n) c f).
    rewrite IH. cbn [sum_if]. destruct (c (S n)); ring.
Qed.

(** A product sequence determines the second factor when the first one
    has a leading coefficient that is not zero. *)
Lemma conv_cancel (B Q1 Q2 : list T) :
  at0 B 0 <> 0%S -> (0 < length B)%nat -> length Q1 = length Q2 ->
  (forall k, (k < length Q1)%nat -> conv B Q1 k = conv B Q2 k) ->
  Q1 = Q2.
Proof.
  intros Hb HB HL Hconv. apply at0_ext; [done|].
  intros k. induction k as [k IH] using lt_wf_ind. intros Hk.
  specialize (Hconv k Hk). unfold conv in Hconv.
  destruct (length B) as [|n] eqn:En; [lia|].
  rewrite !sum_if_head in Hconv.
  replace (sum_if n
             (fun i => ((S i <=? k)%nat && (k - S i <? length Q1)%nat)%bool)
             (fun i => (at0 B (S i) * at0 Q1 (k - S i))%S))
    with (sum_if n
            (fun i => ((S i <=? k)%nat && (k - S i <? length Q2)%nat)%bool)
            (fun i => (at0 B (S i) * at0 Q2 (k - S i))%S)) in Hconv.
  2: { apply sum_if_agree.
       - intros i _. by rewrite HL.
       - intros i _ Hc. apply andb_prop in Hc as [Hc _].
         apply Nat.leb_le in Hc. rewrite (IH (k - S i)%nat) by lia. done. }
  rewrite <- HL in Hconv. simpl in Hconv.
  replace (k - 0)%nat with k in Hconv by lia.
  replace (k <? length Q1)%nat with true in Hconv
    by (symmetry; apply Nat.ltb_lt; lia).
  match type of Hconv with
  | (?a + ?t)%S = (?b + ?t)%S =>
      assert (a = b) as Hab
        by (replace a with ((a + t) - t)%S by ring; rewrite Hconv; ring)
  end.
  replace (at0 Q1 k) with (at0 B 0 * at0 Q1 k / at0 B 0)%S by (by field).
  rewrite Hab. by field.
Qed.

Lemma Poly_of_vector_coef (Q : Poly T) : wf Q -> Poly_of_vector (coef_ Q) = Q.
Proof.
  intros W. pose proof (wf_length _ W). destruct W as [_ D].
  destruct Q as [c d]. unfold Poly_of_vector. simpl in *.
  rewrite to_size_t_nonneg by lia. f_equal. lia.
Qed.

Lemma mul_div_exact (B Q : Poly T) :
  wf B -> wf Q -> at0 (coef_ B) 0 <> 0%S ->
  exists M,
    poly_mul B Q = Ok M /\ poly_divmod M B = Ok (Q, mkPoly [0%S] 0).
Proof.
  intros WB WQ Hb.
  pose proof (wf_length _ WB) as LB. pose proof (wf_length _ WQ) as LQ.
  pose proof WB as [_ DB]. pose proof WQ as [_ DQ].
  destruct (poly_mul_spec B Q WB WQ) as (M & EM & WM & DM & VM).
  exists M. split; [done|].
  pose proof (wf_length _ WM) as LM. pose proof WM as [_ DM'].
  destruct (divmod_loop_spec M B WM WB ltac:(lia) Hb)
    as (rem & Qs & E & Wr & Dr & LQs & Hz & Hv).
  pose proof (wf_length _ Wr) as Lr. pose proof Wr as [_ Dr'].
  assert (Qs = coef_ Q) as ->.
  { apply (conv_cancel (coef_ B)); [done|done|lia|].
    intros k Hk. rewrite <- VM, Hv, Hz by lia. ring. }
  assert (all_zero (coef_ rem)) as Hzero.
  { apply Forall_lookup. intros k c Hc.
    rewrite <- (at0_lookup _ _ _ Hc).
    replace (at0 (coef_ rem) k)
      with (at0 (coef_ M) k - conv (coef_ B) (coef_ Q) k)%S
      by (rewrite Hv; ring).
    rewrite VM. ring. }
  unfold poly_divmod, deg.
  replace (deg_ M <? deg_ B) with false by (symmetry; apply Z.ltb_ge; lia).
  unfold deg in E. rewrite E. cbn [bind fst snd].
  rewrite update_all_zero; [|apply s_eqb_refl|done|done]. cbn [bind].
  by rewrite Poly_of_vector_coef.
Qed.

(** X23: in exact arithmetic, dividing a product [B * Q] by [B], for a
    [B] with a leading coefficient that is not zero, returns the factor
    [Q] as the quotient and the zero polynomial [[0]] as the remainder;
    [operator/=] leaves [Q]. *)
Theorem mul_div_round_trip (B Q : Poly T) :
  wf B -> wf Q -> at0 (coef_ B) 0 <> 0%S ->
  exists M,
    poly_mul B Q = Ok M /\
    poly_divmod M B = Ok (Q, mkPoly [0%S] 0) /\
    div_assign M B = Ok Q.
Proof.
  intros WB WQ Hb. destruct (mul_div_exact B Q WB WQ Hb) as (M & EM & ED).
  exists M. split; [done|]. split; [done|].
  unfold div_assign. by rewrite ED.
Qed.

End ExactQuotient.

(** ** Equal weights *)

Section UniformWeights.
Context {T : Type} `{EF : ExactField T}.
Add Field Tfield_unif : ef_field.

Hypothesis of_Z_1 : (s_of_Z 1 : T) = 1%S.
Hypothesis of_Z_0 : (s_of_Z 0 : T) = 0%S.
Hypothesis of_Z_m1 : (s_of_Z (-1) : T) = (- (1))%S.

Lemma scale_poly_pval (q : Poly T) (v x : T) :
  wf q ->
  exists r, scale_poly v q = Ok r /\ wf r /\
            pval (coef_ r) x = (v * pval (coef_ q) x)%S.
Proof.
  intros W. pose proof (wf_length _ W). pose proof W as [_ D].
  unfold scale_poly. rewrite poly_scale_spec by done.
  destruct (s_eqb v 0%S) eqn:E.
  - apply ef_eqb in E. subst v. eexists. split; [done|].
    split; [apply wf_intro; simpl; lia|]. simpl. ring.
  - eexists. split; [done|].
    split; [apply wf_intro; simpl; rewrite ?length_fmap; lia|]. simpl.
    rewrite (pval_map (fun c => (c * v)%S) _ (coef_ q)).
    + ring.
    + intros; ring.
    + ring.
    + intros; ring.
    + by rewrite length_fmap.
    + intros k Hk. rewrite length_fmap in Hk.
      by rewrite (at0_fmap (fun c => (c * v)%S)).
Qed.

(** The value of one step of the recurrence of [de_boor_nurbs]. *)
Lemma blend_value (dj dj1 : Poly T) (B D den x : T) :
  wf dj -> wf dj1 -> den <> 0%S ->
  exists r, blend dj dj1 B D den = Ok r /\ wf r /\
    pval (coef_ r) x
    = ((pval (coef_ dj) x * (x + B) + pval (coef_ dj1) x * (D - x)) / den)%S.
Proof.
  intros W W1 Hden.
  assert (forall (c0 c1 : T), wf (Poly_of_vector [c0; c1])) as WX
    by (intros; by apply wf_Poly_of_vector).
  unfold blend.
  destruct (poly_mul_pval dj (Poly_of_vector [s_of_Z 1; s_of_Z 0]) x
              W (WX _ _)) as (m1 & -> & Wm1 & _ & Vm1). cbn [bind].
  destruct (scale_poly_pval dj B x W) as (b1 & -> & Wb1 & Vb1). cbn [bind].
  destruct (poly_add_pval m1 b1 x Wm1 Wb1) as (t1 & -> & Wt1 & Vt1).
  cbn [bind].
  destruct (poly_mul_pval dj1 (Poly_of_vector [s_of_Z (-1); s_of_Z 0]) x
              W1 (WX _ _)) as (m2 & -> & Wm2 & _ & Vm2). cbn [bind].
  destruct (scale_poly_pval dj1 D x W1) as (b2 & -> & Wb2 & Vb2).
  cbn [bind].
  destruct (poly_add_pval m2 b2 x Wm2 Wb2) as (t2 & -> & Wt2 & Vt2).
  cbn [bind].
  destruct (poly_add_pval t1 t2 x Wt1 Wt2) as (s & -> & Ws & Vs).
  cbn [bind]. rewrite poly_div_scalar_spec by done.
  pose proof (wf_length _ Ws). pose proof Ws as [_ Dss].
  eexists. split; [done|].
  split; [apply wf_intro; simpl; rewrite ?length_fmap; lia|]. simpl.
  rewrite pval_scaled_down by done.
  rewrite Vs, Vt1, Vt2, Vm1, Vm2, Vb1, Vb2. simpl.
  rewrite of_Z_1, of_Z_0, of_Z_m1. by field.
Qed.

Variables (k p dim : Z) (knots weights : list T) (points : list (list T)).
Variables (w x : T).
Hypothesis Hp : 0 <= p <= k.
Hypothesis Hw : k < Z.of_nat (length weights).
Hypothesis Hpts : k < Z.of_nat (length points).
Hypothesis Hkn : k + p < Z.of_nat (length knots).
Hypothesis Hdim : Forall (fun pt => Z.of_nat (length pt) = dim) points.
Hypothesis Hweights : Forall (fun wi => wi = w) weights.
Hypothesis Hknots :
  forall (a b : nat) ka kb,
    Z.of_nat a <= k < Z.of_nat b ->
    knots !! a = Some ka -> knots !! b = Some kb -> ka <> kb.

Lemma de_boor_den_value :
  exists num den,
    de_boor_nurbs k knots weights points p = Ok (num, den) /\
    wf den /\ pval (coef_ den) x = w.
Proof.
  destruct (de_boor_nurbs_ok k p dim knots weights points Hp Hw Hpts Hkn Hdim)
    as (num & den & E & _ & Wden & _).
  exists num, den. split; [done|]. split; [done|].
  unfold de_boor_nurbs in E.
  apply bind_Ok in E as (pt0 & _ & E). cbv zeta in E.
  apply bind_Ok in E as ([d1 dd1] & E1 & E).
  apply bind_Ok in E as ([d2 dd2] & E2 & E).
  apply bind_Ok in E as (dp & _ & E).
  apply bind_Ok in E as (dd & Edd & E). injection E as _ <-.
  cbn [fst snd] in Edd.
  (* the first loop *)
  assert (Z.of_nat (length dd1) = p + 1 /\
          forall (j : nat) q, dd1 !! j = Some q -> coef_ q = [w] /\ deg_ q = 0)
    as [L1 H1].
  { apply (for_loop_post
      (fun i (st : list (list (Poly T)) * list (Poly T)) =>
         Z.of_nat (length (snd st)) = p + 1 /\
         forall (j : nat) q, snd st !! j = Some q ->
           deg_ q = 0 /\
           if decide (Z.of_nat j < i) then coef_ q = [w]
           else coef_ q = [0%S]) _ 0 (p + 1) _ (d1, dd1)) in E1.
    - destruct E1 as [L1 H1]. split; [done|]. intros j q Hq.
      destruct (H1 j q Hq) as [Dq Hc]. apply lookup_lt_Some in Hq.
      simpl in L1. by destruct (decide _); [|lia].
    - lia.
    - simpl. split; [rewrite length_replicate; lia|].
      intros j q Hq. apply lookup_replicate in Hq as [-> _].
      split; [done|]. by destruct (decide _); [lia|].
    - intros i [d dd0] [d' dd'] Hi [L0 H0] Eb. cbn [fst snd] in *.
      cbn beta iota in Eb.
      apply bind_Ok in Eb as (wi & Ewi & Eb).
      apply bind_Ok in Eb as (di & Edi & Eb).
      apply bind_Ok in Eb as (di' & Edi' & Eb).
      apply bind_Ok in Eb as (dd'' & Edd'' & Eb).
      apply bind_Ok in Eb as (d'' & _ & Eb). injection Eb as _ <-.
      apply vget_Ok in Ewi as [_ Ewi].
      rewrite Forall_lookup in Hweights. apply Hweights in Ewi. subst wi.
      apply vget_Ok in Edi as [_ Edi]. destruct (H0 _ _ Edi) as [Ddi Cdi].
      rewrite Z2Nat.id in Cdi by lia.
      destruct (decide (i < i)) as [|_]; [lia|].
      unfold pset, pupd in Edi'. apply bind_Ok in Edi' as (c' & Ec' & Edi').
      injection Edi' as <-. apply vupd_Ok in Ec' as [_ ->].
      rewrite Cdi in *. change (alter (fun _ => w) (Z.to_nat 0) [0%S])
        with [w].
      unfold vset in Edd''. apply vupd_Ok in Edd'' as [Hr ->].
      rewrite length_alter. split; [done|]. intros j q Hq.
      destruct (decide (j = Z.to_nat i)) as [->|Hne].
      + rewrite list_lookup_alter_eq, Edi in Hq. injection Hq as <-. simpl.
        split; [done|]. by destruct (decide _); [|lia].
      + rewrite list_lookup_alter_ne in Hq by done.
        destruct (H0 _ _ Hq) as [Dq Cq]. split; [done|].
        destruct (decide (Z.of_nat j < i)), (decide (Z.of_nat j < i + 1));
          done || lia. }
  (* the recurrence *)
  assert (Forall (fun q => wf q /\ pval (coef_ q) x = w) dd2) as H2.
  { apply (for_loop_post
      (fun _ (st : list (list (Poly T)) * list (Poly T)) =>
         Forall (fun q => wf q /\ pval (coef_ q) x = w) (snd st))
      _ 1 (p + 1) _ (d2, dd2)) in E2; [done|lia| |].
    - simpl. apply Forall_lookup. intros j q Hq.
      destruct (H1 j q Hq) as [Cq Dq].
      split; [apply wf_intro; rewrite ?Cq; simpl; lia|].
      rewrite Cq. simpl. ring.
    - intros r st st' Hr Hst Er. cbn beta in Er.
      apply (for_steps_post
        (fun _ (st : list (list (Poly T)) * list (Poly T)) =>
           Forall (fun q => wf q /\ pval (coef_ q) x = w) (snd st))
        _ _ 0 st st') in Er; [done|done|].
      intros c [d dd0] [d' dd'] Hc Hdd0 Eb. cbn [fst snd] in *.
      cbn beta iota in Eb.
      apply bind_Ok in Eb as (k1 & Ek1 & Eb).
      apply bind_Ok in Eb as (k0 & Ek0 & Eb).
      apply bind_Ok in Eb as (dj & Edj & Eb).
      apply bind_Ok in Eb as (dj1 & Edj1 & Eb).
      apply bind_Ok in Eb as (nd & End & Eb).
      apply bind_Ok in Eb as (dd'' & Edd'' & Eb).
      apply bind_Ok in Eb as (d'' & _ & Eb). injection Eb as _ <-.
      apply vget_Ok in Ek1 as [Hk1 Ek1]. apply vget_Ok in Ek0 as [Hk0 Ek0].
      assert (k0 <> k1) as Hne.
      { apply (Hknots (Z.to_nat (p - c + k - p))
                 (Z.to_nat (p - c + 1 + k - r)) k0 k1); [lia|done|done]. }
      apply vget_Ok in Edj as [_ Edj]. apply vget_Ok in Edj1 as [_ Edj1].
      rewrite Forall_lookup in Hdd0.
      destruct (Hdd0 _ _ Edj) as [Wdj Vdj].
      destruct (Hdd0 _ _ Edj1) as [Wdj1 Vdj1].
      destruct (blend_value dj dj1 (- k0)%S k1 (k1 - k0)%S x Wdj Wdj1)
        as (nd' & End' & Wnd & Vnd).
      { intros Hz. apply Hne. symmetry.
        replace k1 with ((k1 - k0) + k0)%S by ring. rewrite Hz. ring. }
      rewrite End in End'. injection End' as <-.
      unfold vset in Edd''. apply vupd_Ok in Edd'' as [_ ->].
      apply Forall_alter; [by apply Forall_lookup|].
      intros q _ _. split; [done|]. rewrite Vnd, Vdj, Vdj1. field.
      intros Hz. apply Hne. symmetry.
      replace k1 with ((k1 - k0) + k0)%S by ring. rewrite Hz. ring. }
  apply vget_Ok in Edd as [_ Edd]. rewrite Forall_lookup in H2.
  by destruct (H2 _ _ Edd).
Qed.

(** X24: with equal weights [w] and knots up to index [k] that differ
    from the knots after it, the denominator that [de_boor_nurbs] returns
    for the segment [k] has, in exact arithmetic, the value [w] at every
    point: the basis functions of the segment add up to 1. *)
Theorem de_boor_uniform_denominator :
  exists num den,
    de_boor_nurbs k knots weights points p = Ok (num, den) /\
    At den x = Ok w.
Proof.
  destruct de_boor_den_value as (num & den & E & W & V).
  exists num, den. split; [done|]. by rewrite At_value, V.
Qed.

End UniformWeights.

(** ** The value of a polynomial and the operations with a scalar *)

Section ScalarValues.
Context {T : Type} `{EF : ExactField T}.
Add Field Tfield_scal : ef_field.

Lemma pval_scaled (v : T) (l : list T) x :
  pval ((fun c => c * v)%S <$> l) x = (pval l x * v)%S.
Proof.
  induction l as [|c l IH]; [simpl; ring|].
  rewrite fmap_cons. cbn [pval]. rewrite IH, length_fmap. ring.
Qed.

Lemma pval_add_last (l : list T) (c x : T) :
  (0 < length l)%nat ->
  pval (alter (fun t => t + c)%S (length l - 1)%nat l) x
  = (pval l x + c)%S.
Proof.
  intros Hl. destruct l as [|a l _] using rev_ind; [simpl in Hl; lia|].
  rewrite length_app. simpl.
  replace (length l + 1 - 1)%nat with (length l + 0)%nat by lia.
  rewrite alter_app_r. simpl. rewrite !pval_snoc. ring.
Qed.

(** X25: in exact arithmetic, [p *= v], [p * v] and [v * p] multiply the
    value of the polynomial at every point by [v], [p += c] adds [c] to
    it, and [p /= v] and [p / v] divide it by [v] when [v] is not zero. *)
Theorem scalar_ops_value (p : Poly T) (v c x : T) :
  wf p ->
  exists y m s a,
    At p x = Ok y /\
    mul_assign_scalar p v = Ok m /\ At m x = Ok (y * v)%S /\
    poly_scale p v = Ok s /\ scale_poly v p = Ok s /\
    At s x = Ok (y * v)%S /\
    add_assign_scalar p c = Ok a /\ At a x = Ok (y + c)%S /\
    (v <> 0%S ->
     exists d,
       div_assign_scalar p v = Ok d /\ poly_div_scalar p v = Ok d /\
       At d x = Ok (y / v)%S).
Proof.
  intros W. pose proof (wf_length _ W) as L. pose proof W as [_ D].
  assert (forall g : T -> T, wf (mkPoly (g <$> coef_ p) (deg_ p))) as Wmap
    by (intros g; apply wf_intro; simpl; rewrite ?length_fmap; lia).
  assert (exists s, poly_scale p v = Ok s /\ wf s /\
                    pval (coef_ s) x = (pval (coef_ p) x * v)%S)
    as (s & Es & Ws & Vs).
  { rewrite poly_scale_spec by done. destruct (s_eqb v 0%S) eqn:E.
    - apply ef_eqb in E. subst v. eexists. split; [done|].
      split; [apply wf_intro; simpl; lia|]. simpl. ring.
    - eexists. split; [done|]. split; [done|]. simpl. apply pval_scaled. }
  exists (pval (coef_ p) x),
    (mkPoly ((fun t => t * v)%S <$> coef_ p) (deg_ p)), s,
    (mkPoly (alter (fun t => t + c)%S (Z.to_nat (deg_ p)) (coef_ p))
       (deg_ p)).
  rewrite mul_assign_scalar_spec, At_value by done.
  split; [done|]. split; [done|].
  split; [rewrite At_value by done; simpl; by rewrite pval_scaled|].
  split; [exact Es|]. split; [exact Es|].
  split; [by rewrite At_value, Vs|].
  split.
  { unfold add_assign_scalar, pupd. by rewrite vupd_in_range by lia. }
  split.
  { rewrite At_value by (apply wf_intro; simpl; rewrite ?length_alter; lia).
    simpl. replace (Z.to_nat (deg_ p)) with (length (coef_ p) - 1)%nat by lia.
    by rewrite pval_add_last. }
  intros Hv. eexists.
  rewrite div_assign_scalar_spec, poly_div_scalar_spec by done.
  split; [done|]. split; [done|].
  rewrite At_value by done. simpl. by rewrite pval_scaled_down.
Qed.

End ScalarValues.

(** ** The further properties at concrete polynomials and curves *)

Lemma Qc_same (x y : Qc) : Qc_eq_bool x y = true -> x = y.
Proof. apply Qc_eqb_eq. Qed.

Lemma qc_ltb_irrefl (a : Qc) : qc_ltb a a = false.
Proof.
  unfold qc_ltb. destruct (Qcompare_spec (this a) (this a)) as [?|Hlt|Hlt];
    [done| |done]. exfalso. by apply (Qlt_irrefl (this a)).
Qed.

Lemma qc_ltb_step (a b c : Qc) :
  qc_ltb a b = true -> qc_ltb a c = false -> qc_ltb b c = false.
Proof.
  unfold qc_ltb.
  destruct (Qcompare_spec (this a) (this b)) as [?|H1|?]; try done.
  destruct (Qcompare_spec (this a) (this c)) as [H2|?|H2]; try done;
    destruct (Qcompare_spec (this b) (this c)) as [?|H3|?]; try done;
    intros _ _; exfalso; apply (Qlt_irrefl (this a)).
  - rewrite H2 at 2. by apply (Qlt_trans _ (this b)).
  - apply (Qlt_trans _ (this b)); [done|]. by apply (Qlt_trans _ (this c)).
Qed.

(** X1 at [x^2 + 2x + 3] and the point 2. *)
Lemma At_eval_agree_witness :
  At (qpoly [1; 2; 3]) (Q2Qc 2)
  = Ok (pval (coef_ (qpoly [1; 2; 3])) (Q2Qc 2)) /\
  eval (qpoly [1; 2; 3]) (Q2Qc 2)
  = Ok (pval (coef_ (qpoly [1; 2; 3])) (Q2Qc 2)).
Proof. apply (At_eval_agree (T := Qc)). by apply qpoly_wf. Defined.

(** X2 at [x + 1] and [x - 1]. *)
Lemma mul_value_witness :
  exists M vp vq,
    poly_mul (qpoly [1; 1]) (qpoly [1; -1]) = Ok M /\
    At (qpoly [1; 1]) (Q2Qc 3) = Ok vp /\
    At (qpoly [1; -1]) (Q2Qc 3) = Ok vq /\
    At M (Q2Qc 3) = Ok (vp * vq)%S.
Proof. apply (mul_value (T := Qc)); by apply qpoly_wf. Defined.

(** X3 at [x + 1] and [x^2 - 1]. *)
Lemma add_sub_value_witness :
  exists S D N vp vq,
    poly_add (qpoly [1; 1]) (qpoly [1; 0; -1]) = Ok S /\
    poly_sub (qpoly [1; 1]) (qpoly [1; 0; -1]) = Ok D /\
    poly_neg (qpoly [1; 1]) = Ok N /\
    At (qpoly [1; 1]) (Q2Qc 3) = Ok vp /\
    At (qpoly [1; 0; -1]) (Q2Qc 3) = Ok vq /\
    At S (Q2Qc 3) = Ok (vp + vq)%S /\ At D (Q2Qc 3) = Ok (vp - vq)%S /\
    At N (Q2Qc 3) = Ok (- vp)%S.
Proof. apply (add_sub_value (T := Qc)); by apply qpoly_wf. Defined.

(** X4 at [x + 2] and the scalar 3. *)
Lemma scalar_ops_witness :
  mul_assign_scalar (qpoly [1; 2]) (Q2Qc 3)
  = Ok (mkPoly ((fun c => c * Q2Qc 3)%S <$> coef_ (qpoly [1; 2]))
          (deg_ (qpoly [1; 2]))) /\
  poly_scale (qpoly [1; 2]) (Q2Qc 3)
  = (if s_eqb (Q2Qc 3) 0%S then Ok (mkPoly [0%S] 0)
     else Ok (mkPoly ((fun c => c * Q2Qc 3)%S <$> coef_ (qpoly [1; 2]))
                (deg_ (qpoly [1; 2])))) /\
  scale_poly (Q2Qc 3) (qpoly [1; 2]) = poly_scale (qpoly [1; 2]) (Q2Qc 3) /\
  poly_div_scalar (qpoly [1; 2]) (Q2Qc 3)
  = Ok (mkPoly ((fun c => c / Q2Qc 3)%S <$> coef_ (qpoly [1; 2]))
          (deg_ (qpoly [1; 2]))) /\
  div_assign_scalar (qpoly [1; 2]) (Q2Qc 3)
  = Ok (mkPoly ((fun c => c / Q2Qc 3)%S <$> coef_ (qpoly [1; 2]))
          (deg_ (qpoly [1; 2]))).
Proof. apply (scalar_ops (T := Qc)). by apply qpoly_wf. Defined.

(** X5 at [0x^3 + 0x^2 + x + 2]. *)
Lemma update_trims_witness :
  exists r,
    update (qpoly [0; 0; 1; 2]) = Ok r /\ wf r /\
    trimmed (fun c => s_eqb c 0%S) (qpoly [0; 0; 1; 2]) r /\
    update r = Ok r.
Proof. apply (update_trims (T := Qc)). by apply qpoly_wf. Defined.

(** X6 at [1e-9 x + 1e-9], whose coefficients are both below the
    tolerance. *)
Lemma update_real_trims_witness :
  exists r,
    update_real (xpoly [1 # 10 ^ 9; 1 # 10 ^ 9]%Q) = Ok r /\ wf r /\
    trimmed (fun c => r_ltb (r_abs c) (r_of_Q (1 # 10 ^ 8)))
      (xpoly [1 # 10 ^ 9; 1 # 10 ^ 9]%Q) r /\
    last (coef_ r) = last (coef_ (xpoly [1 # 10 ^ 9; 1 # 10 ^ 9]%Q)) /\
    (coef_ r
     = [at0 (coef_ (xpoly [1 # 10 ^ 9; 1 # 10 ^ 9]%Q))
          (Z.to_nat (deg_ (xpoly [1 # 10 ^ 9; 1 # 10 ^ 9]%Q)))] /\
     deg_ r = 0) /\
    update_real r = Ok r.
Proof.
  destruct (update_real_trims (T := Qx) (xpoly [1 # 10 ^ 9; 1 # 10 ^ 9]%Q))
    as (r & E & W & Tr & L & A & U); [by apply xpoly_wf|].
  exists r. split; [exact E|]. split; [exact W|]. split; [exact Tr|].
  split; [exact L|]. split; [|exact U].
  apply A. repeat constructor.
Defined.

(** X7 at [x^2 + 2x + 3] and the degree 1. *)
Lemma resize_cases_witness :
  resize (qpoly [1; 2; 3]) 1
  = (if (-1 <=? 1) && (1 <=? deg_ (qpoly [1; 2; 3]))
     then Ok (mkPoly (drop (Z.to_nat (deg_ (qpoly [1; 2; 3]) - 1))
                        (coef_ (qpoly [1; 2; 3])))
                (to_size_t 1))
     else OutOfRange) /\
  resize (qpoly [1; 2; 3]) (deg_ (qpoly [1; 2; 3])) = Ok (qpoly [1; 2; 3]) /\
  resize (qpoly [1; 2; 3]) (-1) = Ok (mkPoly [] (2 ^ 64 - 1)).
Proof.
  apply (resize_cases (qpoly [1; 2; 3]) 1); [by apply qpoly_wf|].
  vm_compute. reflexivity.
Defined.

(** X8 at [x^2 + 2x + 3]. *)
Lemma der_antider_coefficients_witness :
  exists d a,
    der (qpoly [1; 2; 3]%Z) = Ok d /\ antider (qpoly [1; 2; 3]%Z) = Ok a /\
    wf d /\ wf a /\
    deg_ d = Z.max 0 (deg_ (qpoly [1; 2; 3]%Z) - 1) /\
    deg_ a = deg_ (qpoly [1; 2; 3]%Z) + 1 /\
    (forall k : nat,
       at0 (coef_ d) k =
       if decide (length (coef_ (qpoly [1; 2; 3]%Z)) = 2)%nat
       then (if decide (k = 0)%nat then at0 (coef_ (qpoly [1; 2; 3]%Z)) 0
             else 0%S)
       else if decide (k < length (coef_ (qpoly [1; 2; 3]%Z)) - 1)%nat
       then (at0 (coef_ (qpoly [1; 2; 3]%Z)) k
             * s_of_Z (deg_ (qpoly [1; 2; 3]%Z) - Z.of_nat k))%S
       else 0%S) /\
    (forall k : nat,
       at0 (coef_ a) k =
       if decide (length (coef_ (qpoly [1; 2; 3]%Z)) = 1)%nat
       then (if decide (k = 0)%nat then at0 (coef_ (qpoly [1; 2; 3]%Z)) 0
             else 0%S)
       else if decide (k < length (coef_ (qpoly [1; 2; 3]%Z)))%nat
       then (at0 (coef_ (qpoly [1; 2; 3]%Z)) k
             / s_of_Z (deg_ (qpoly [1; 2; 3]%Z) - Z.of_nat k + 1))%S
       else 0%S).
Proof. apply (der_antider_coefficients (T := Qc)). by apply qpoly_wf. Defined.

(** X9 at [0x^2 + x + 2] and the point 3. *)
Lemma update_value_witness :
  exists r v,
    update (qpoly [0; 1; 2]) = Ok r /\
    At (qpoly [0; 1; 2]) (Q2Qc 3) = Ok v /\ At r (Q2Qc 3) = Ok v.
Proof. apply (update_value (T := Qc)). by apply qpoly_wf. Defined.

(** X10 at [3x^2 + 1] and the bounds 0, 1 and 2. *)
Lemma integral_adjacent_witness :
  exists i1 i2 i3,
    integral (qpoly [3; 0; 1]) (Q2Qc 0) (Q2Qc 1) = Ok i1 /\
    integral (qpoly [3; 0; 1]) (Q2Qc 1) (Q2Qc 2) = Ok i2 /\
    integral (qpoly [3; 0; 1]) (Q2Qc 0) (Q2Qc 2) = Ok i3 /\
    (i1 + i2)%S = i3 /\
    integral (qpoly [3; 0; 1]) (Q2Qc 1) (Q2Qc 0) = Ok (- i1)%S /\
    integral (qpoly [3; 0; 1]) (Q2Qc 0) (Q2Qc 0) = Ok 0%S.
Proof. apply (integral_adjacent (T := Qc)). by apply qpoly_wf. Defined.

(** X11 at [x + 1], [x - 1] and [2]. *)
Lemma accumulate_value_witness :
  exists r,
    accumulate [qpoly [1; 1]; qpoly [1; -1]; qpoly [2]] = Ok r /\ wf r /\
    deg_ r = fold_left (fun a q => a + deg_ q)
               [qpoly [1; 1]; qpoly [1; -1]; qpoly [2]] 0 /\
    At r (Q2Qc 3)
    = Ok (fold_left (fun v q => v * pval (coef_ q) (Q2Qc 3))%S
            [qpoly [1; 1]; qpoly [1; -1]; qpoly [2]] 1%S).
Proof.
  apply (accumulate_value (T := Qc)
           [qpoly [1; 1]; qpoly [1; -1]; qpoly [2]] (Q2Qc 3)).
  repeat constructor; by apply qpoly_wf.
Defined.

(** X12 at [x^2 + 2x + 3] and the point 2. *)
Lemma At2_exact_witness :
  At2 (qpoly [1; 2; 3]) (Q2Qc 2) = pval (coef_ (qpoly [1; 2; 3])) (Q2Qc 2) /\
  At (qpoly [1; 2; 3]) (Q2Qc 2) = Ok (At2 (qpoly [1; 2; 3]) (Q2Qc 2)).
Proof.
  apply (At2_exact (T := Qc)); [reflexivity|by apply qpoly_wf].
Defined.

(** X13 at [x + 1] and [x - 1]. *)
Lemma mul_coefficients_witness :
  exists M,
    poly_mul (qpoly [1; 1]) (qpoly [1; -1]) = Ok M /\ wf M /\
    deg_ M = deg_ (qpoly [1; 1]) + deg_ (qpoly [1; -1]) /\
    forall k : nat,
      at0 (coef_ M) k
      = conv (coef_ (qpoly [1; 1])) (coef_ (qpoly [1; -1])) k.
Proof. apply (mul_coefficients (T := Qc)); by apply qpoly_wf. Defined.

(** X14 at [x + 1] and [x^2 - 1]. *)
Lemma add_neg_coefficients_witness :
  exists S N,
    poly_add (qpoly [1; 1]) (qpoly [1; 0; -1]) = Ok S /\
    poly_neg (qpoly [1; 1]) = Ok N /\ wf S /\
    deg_ S = Z.max (deg_ (qpoly [1; 1])) (deg_ (qpoly [1; 0; -1])) /\
    (forall k : nat,
       let a := if deg_ (qpoly [1; 0; -1]) <=? deg_ (qpoly [1; 1])
                then coef_ (qpoly [1; 1]) else coef_ (qpoly [1; 0; -1]) in
       let b := if deg_ (qpoly [1; 0; -1]) <=? deg_ (qpoly [1; 1])
                then coef_ (qpoly [1; 0; -1]) else coef_ (qpoly [1; 1]) in
       at0 (coef_ S) k =
       if decide (length a - length b <= k < length a)%nat
       then (at0 a k + at0 b (k - (length a - length b)))%S
       else at0 a k) /\
    N = mkPoly (s_opp <$> coef_ (qpoly [1; 1])) (deg_ (qpoly [1; 1])).
Proof. apply (add_neg_coefficients (T := Qc)); by apply qpoly_wf. Defined.

(** X15 at [2x^2 - 6x + 4]. *)
Lemma upper_bound_real_max_witness :
  (deg_ (qpoly [2; -6; 4]) = 0 ->
   upper_bound_real (qpoly [2; -6; 4]) = OutOfRange /\
   lower_bound_real (qpoly [2; -6; 4]) = OutOfRange) /\
  (1 <= deg_ (qpoly [2; -6; 4]) ->
   exists m,
     upper_bound_real (qpoly [2; -6; 4]) = Ok (s_of_Z 1 + m)%S /\
     lower_bound_real (qpoly [2; -6; 4])
     = Ok (s_of_Z 1 / (s_of_Z 1 + m))%S /\
     (exists i : nat,
        1 <= Z.of_nat i <= deg_ (qpoly [2; -6; 4]) /\
        m = r_abs (at0 (coef_ (qpoly [2; -6; 4])) i
                   / at0 (coef_ (qpoly [2; -6; 4])) 0)%S) /\
     forall i : nat,
       1 <= Z.of_nat i <= deg_ (qpoly [2; -6; 4]) ->
       r_ltb m (r_abs (at0 (coef_ (qpoly [2; -6; 4])) i
                       / at0 (coef_ (qpoly [2; -6; 4])) 0)%S) = false).
Proof.
  apply (upper_bound_real_max (T := Qc)).
  - apply qc_ltb_irrefl.
  - apply qc_ltb_step.
  - by apply qpoly_wf.
Defined.

(** X16 at [x + 2]. *)
Lemma make_complex_poly_coefficients_witness :
  make_complex_poly (C := Cq) (qpoly [1; 2])
  = Ok (mkPoly (c_of_real <$> coef_ (qpoly [1; 2])) (deg_ (qpoly [1; 2]))).
Proof.
  apply (make_complex_poly_coefficients (T := Qc) (C := Cq));
    [by apply qpoly_wf|vm_compute; reflexivity].
Defined.

(** X17 on the straight line from (0, 0) to (1, 2), see [line_curve]. *)
Lemma de_boor_nurbs_degree_witness :
  exists num den,
    de_boor_nurbs 1 [Q2Qc 0; Q2Qc 0; Q2Qc 1; Q2Qc 1] [Q2Qc 1; Q2Qc 1]
      [[Q2Qc 0; Q2Qc 0]; [Q2Qc 1; Q2Qc 2]] 1 = Ok (num, den) /\
    Z.of_nat (length num) = 2 /\
    Forall (fun e => wf e /\ deg_ e = 1) num /\
    wf den /\ deg_ den = 1.
Proof.
  apply (de_boor_nurbs_degree (T := Qc) 1 1 2); simpl; try lia.
  repeat constructor.
Defined.

(** X18 on the same line. *)
Lemma NURBS_new_segments_witness :
  exists c,
    NURBS_new 1 [Q2Qc 0; Q2Qc 0; Q2Qc 1; Q2Qc 1] [Q2Qc 1; Q2Qc 1]
      [[Q2Qc 0; Q2Qc 0]; [Q2Qc 1; Q2Qc 2]] [1; 2] = Ok c /\
    nurbs_p c = 1 /\ nurbs_dim c = 2 /\
    N_segments c = Z.of_nat (length [1; 2]) - 1 /\
    knots c = [Q2Qc 0; Q2Qc 0; Q2Qc 1; Q2Qc 1] /\
    weights c = [Q2Qc 1; Q2Qc 1] /\
    cv c = [[Q2Qc 0; Q2Qc 0]; [Q2Qc 1; Q2Qc 2]] /\ ks c = [1; 2] /\
    Z.of_nat (length (coefs c)) = Z.of_nat (length [1; 2]) - 1 /\
    Forall (segment_ok 1 2) (coefs c).
Proof.
  apply (NURBS_new_segments (T := Qc) 1 2).
  - lia.
  - done.
  - simpl. lia.
  - repeat constructor.
  - intros i Hi. simpl in Hi. assert (i = 0) as -> by lia.
    exists 1. simpl. repeat split; lia.
Defined.

(** X19 at [2x - 6]. *)
Lemma solve_linear_root_witness :
  (deg_ (qpoly [2; -6]) = 0 ->
   solve (C := Cq) (qpoly [2; -6]) 1 = Ok [(1, s_of_Z 0)]) /\
  (deg_ (qpoly [2; -6]) = 1 -> at0 (coef_ (qpoly [2; -6])) 0 <> 0%S ->
   exists x,
     solve (C := Cq) (qpoly [2; -6]) 1 = Ok [(1, c_of_real x)] /\
     At (qpoly [2; -6]) x = Ok 0%S).
Proof.
  apply (solve_linear_root (T := Qc) (C := Cq)). by apply qpoly_wf.
Defined.

(** X20 at [x^2 - 3x + 2]. *)
Lemma solve_quadratic_real_roots_witness :
  exists x1 x2,
    solve (C := Cq) (qpoly [1; -3; 2]) 1
    = Ok [(1, c_of_real x1); (1, c_of_real x2)] /\
    At (qpoly [1; -3; 2]) x1 = Ok 0%S /\ At (qpoly [1; -3; 2]) x2 = Ok 0%S /\
    (x1 + x2)%S
    = (- Q2Qc (inject_Z (-3)) / Q2Qc (inject_Z 1))%S.
Proof.
  apply (solve_quadratic_real_roots (T := Qc) (C := Cq) (qpoly [1; -3; 2]) 1
           (Q2Qc (inject_Z 1)) (Q2Qc (inject_Z (-3))) (Q2Qc (inject_Z 2))).
  - reflexivity.
  - reflexivity.
  - apply Qc_neq. reflexivity.
  - apply Qc_same. reflexivity.
  - apply Qc_same. reflexivity.
  - apply Qc_neq. reflexivity.
  - reflexivity.
  - reflexivity.
  - apply Qc_same. reflexivity.
Defined.

(** X21 on a curve with the segment [(x + 2, 3x + 4) / (2x + 6)]. *)
Lemma polishing2_segments_witness :
  polishing2
    (mkNURBS 1 2 1 [] [] [] (0, 0) []
       [([qpoly [1; 2]; qpoly [3; 4]], qpoly [2; 6])])
  = Ok (mkNURBS 1 2 1 [] [] [] (0, 0) []
          (polished2 <$> [([qpoly [1; 2]; qpoly [3; 4]], qpoly [2; 6])])).
Proof.
  apply (polishing2_segments (T := Qc)
           (mkNURBS 1 2 1 [] [] [] (0, 0) []
              [([qpoly [1; 2]; qpoly [3; 4]], qpoly [2; 6])]) 1).
  apply Forall_cons_2; [|apply Forall_nil_2].
  unfold segment_ok. simpl. split; [lia|]. split.
  - apply Forall_cons_2; [split; [by apply qpoly_wf|vm_compute; discriminate]|].
    apply Forall_cons_2; [split; [by apply qpoly_wf|vm_compute; discriminate]|].
    apply Forall_nil_2.
  - split; [by apply qpoly_wf|vm_compute; discriminate].
Defined.

(** X22 at [2x + 6] and the point 1. *)
Lemma normalize_monic_witness :
  exists r v,
    normalize (qpoly [2; 6]) = Ok (r, at0 (coef_ (qpoly [2; 6])) 0) /\
    wf r /\ deg_ r = deg_ (qpoly [2; 6]) /\ at0 (coef_ r) 0 = 1%S /\
    At (qpoly [2; 6]) (Q2Qc 1) = Ok v /\
    At r (Q2Qc 1) = Ok (v / at0 (coef_ (qpoly [2; 6])) 0)%S /\
    normalize r = Ok (r, 1%S).
Proof.
  apply (normalize_monic (T := Qc)); [by apply qpoly_wf|].
  apply Qc_neq. reflexivity.
Defined.

(** X23 at [B = 2x + 1] and [Q = x - 3]. *)
Lemma mul_div_round_trip_witness :
  exists M,
    poly_mul (qpoly [2; 1]) (qpoly [1; -3]) = Ok M /\
    poly_divmod M (qpoly [2; 1]) = Ok (qpoly [1; -3], mkPoly [0%S] 0) /\
    div_assign M (qpoly [2; 1]) = Ok (qpoly [1; -3]).
Proof.
  apply (mul_div_round_trip (T := Qc)); try (by apply qpoly_wf).
  apply Qc_neq. reflexivity.
Defined.

(** X24 on the straight line, at the point 1/2. *)
Lemma de_boor_uniform_denominator_witness :
  exists num den,
    de_boor_nurbs 1 [Q2Qc 0; Q2Qc 0; Q2Qc 1; Q2Qc 1] [Q2Qc 1; Q2Qc 1]
      [[Q2Qc 0; Q2Qc 0]; [Q2Qc 1; Q2Qc 2]] 1 = Ok (num, den) /\
    At den (Q2Qc (1 # 2)) = Ok (Q2Qc 1).
Proof.
  apply (de_boor_uniform_denominator (T := Qc)) with (dim := 2).
  - reflexivity.
  - reflexivity.
  - apply Qc_same. reflexivity.
  - lia.
  - simpl. lia.
  - simpl. lia.
  - simpl. lia.
  - repeat constructor.
  - repeat constructor.
  - intros a b ka kb Hab Ha Hb.
    destruct a as [|[|a]]; [| |lia];
      destruct b as [|[|[|[|b]]]]; simpl in Ha, Hb; try lia;
      try discriminate; injection Ha as <-; injection Hb as <-;
      apply Qc_neq; reflexivity.
Defined.

(** X25 at [x + 2], the scalars 3 and 5 and the point 1. *)
Lemma scalar_ops_value_witness :
  exists y m s a,
    At (qpoly [1; 2]) (Q2Qc 1) = Ok y /\
    mul_assign_scalar (qpoly [1; 2]) (Q2Qc 3) = Ok m /\
    At m (Q2Qc 1) = Ok (y * Q2Qc 3)%S /\
    poly_scale (qpoly [1; 2]) (Q2Qc 3) = Ok s /\
    scale_poly (Q2Qc 3) (qpoly [1; 2]) = Ok s /\
    At s (Q2Qc 1) = Ok (y * Q2Qc 3)%S /\
    add_assign_scalar (qpoly [1; 2]) (Q2Qc 5) = Ok a /\
    At a (Q2Qc 1) = Ok (y + Q2Qc 5)%S /\
    (Q2Qc 3 <> 0%S ->
     exists d,
       div_assign_scalar (qpoly [1; 2]) (Q2Qc 3) = Ok d /\
       poly_div_scalar (qpoly [1; 2]) (Q2Qc 3) = Ok d /\
       At d (Q2Qc 1) = Ok (y / Q2Qc 3)%S).
Proof. apply (scalar_ops_value (T := Qc)). by apply qpoly_wf. Defined.

(** ** The iterates of the Laguerre strategy *)


Section Iterates.
Context {T C : Type}.
Context {ST : Scalar T} {RT : RealScalar T}.
Context {SC : Scalar C} {CT : ComplexScalar T C} {ET : EigenSolver T C}.






End Iterates.


(** ** The numerical strategies of the root solver *)

Section Strategies.
Context {T C : Type}.
Context {ST : Scalar T} {RT : RealScalar T}.
Context {SC : Scalar C} {CT : ComplexScalar T C} {ET : EigenSolver T C}.

(** X27: [upper_bound] of a complex polynomial reads [poly[1]]: on a
    polynomial of degree 0 that access is out of range. For a degree of at
    least 1 it returns [1 + m], where [m] is one of the moduli
    [|poly[i] / poly[0]|], [1 <= i <= deg], and none of them compares
    greater than [m]; [lower_bound], the starting point of the Laguerre
    iteration, returns [1 / (1 + m)]. *)
Theorem upper_bound_complex_max (poly : Poly C) :
  (forall a : T, r_ltb a a = false) ->
  (forall a b c : T,
     r_ltb a b = true -> r_ltb a c = false -> r_ltb b c = false) ->
  wf poly ->
  (deg_ poly = 0 ->
   upper_bound (T := T) poly = OutOfRange /\
   lower_bound (T := T) poly = OutOfRange) /\
  (1 <= deg_ poly ->
   exists m : T,
     upper_bound poly = Ok (s_of_Z 1 + m)%S /\
     lower_bound poly = Ok (s_of_Z 1 / (s_of_Z 1 + m))%S /\
     (exists i : nat,
        1 <= Z.of_nat i <= deg_ poly /\
        m = c_abs (at0 (coef_ poly) i / at0 (coef_ poly) 0)%S) /\
     forall i : nat,
       1 <= Z.of_nat i <= deg_ poly ->
       r_ltb m (c_abs (at0 (coef_ poly) i / at0 (coef_ poly) 0)%S) = false).
Proof.
  intros Hirr Htr W. pose proof (wf_length _ W) as L. destruct W as [_ D].
  split.
  - intros Hd. unfold lower_bound, upper_bound, pget, vget.
    replace (1 <? Z.of_nat (length (coef_ poly))) with false
      by (symmetry; apply Z.ltb_ge; lia).
    done.
  - intros Hd. unfold lower_bound, upper_bound, pget, deg.
    rewrite !vget_at0 by lia. cbn [bind].
    change (Z.to_nat 1) with 1%nat. change (Z.to_nat 0) with 0%nat.
    set (ratio := fun i : nat =>
           c_abs (at0 (coef_ poly) i / at0 (coef_ poly) 0)%S).
    match goal with
    | |- context [for_loop ?lo ?hi ?body ?s] =>
        destruct (for_loop_inv
          (fun j (ub : T) =>
             (exists i : nat, 1 <= Z.of_nat i < j /\ ub = ratio i) /\
             forall i : nat,
               1 <= Z.of_nat i < j -> r_ltb ub (ratio i) = false)
          body lo hi s) as (m & -> & Hex & Hmax)
    end.
    + lia.
    + split.
      * exists 1%nat. split; [lia|done].
      * intros i Hi. replace i with 1%nat by lia. apply Hirr.
    + intros j ub Hj ((i0 & Hi0 & ->) & Hmax).
      rewrite !vget_at0 by lia. cbn [bind].
      fold (ratio (Z.to_nat j)).
      destruct (r_ltb (ratio i0) (ratio (Z.to_nat j))) eqn:E.
      * eexists. split; [done|]. split.
        -- exists (Z.to_nat j). split; [lia|done].
        -- intros i Hi. destruct (decide (i = Z.to_nat j)) as [->|Hne].
           ++ apply Hirr.
           ++ apply (Htr (ratio i0)); [done|]. apply Hmax. lia.
      * eexists. split; [done|]. split.
        -- exists i0. split; [lia|done].
        -- intros i Hi. destruct (decide (i = Z.to_nat j)) as [->|Hne].
           ++ done.
           ++ apply Hmax. lia.
    + cbn [bind]. exists m. split; [done|]. split; [done|].
      destruct Hex as (i & Hi & ->). split.
      * exists i. split; [lia|done].
      * intros i' Hi'. apply Hmax. lia.
Qed.



End Strategies.

Lemma entry_alter {A} (m : list (list A)) (row' : list A) (i r j : nat) :
  entry (alter (fun _ => row') i m) r j
  = if decide (r = i /\ (i < length m)%nat) then row' !! j else entry m r j.
Proof.
  unfold entry. destruct (decide (r = i)) as [->|Hne].
  - rewrite list_lookup_alter_eq. destruct (m !! i) eqn:E; simpl.
    + apply lookup_lt_Some in E. by destruct (decide _); [|lia].
    + apply lookup_ge_None in E. by destruct (decide _); [lia|].
  - rewrite list_lookup_alter_ne by done. by destruct (decide _); [lia|].
Qed.

Lemma square_ext {A} n (m m' : list (list A)) :
  square n m -> square n m' ->
  (forall r j : nat, Z.of_nat r < n -> Z.of_nat j < n ->
                     entry m r j = entry m' r j) ->
  m = m'.
Proof.
  intros [L R] [L' R'] He. apply list_eq. intros r.
  destruct (decide (Z.of_nat r < n)) as [Hr|Hr].
  - destruct (lookup_lt_is_Some_2 m r) as [row Hrow]; [lia|].
    destruct (lookup_lt_is_Some_2 m' r) as [row' Hrow']; [lia|].
    rewrite Hrow, Hrow'. f_equal.
    rewrite Forall_lookup in R, R'.
    pose proof (R _ _ Hrow) as Lr. pose proof (R' _ _ Hrow') as Lr'.
    apply list_eq. intros j. destruct (decide (Z.of_nat j < n)) as [Hj|Hj].
    + specialize (He r j Hr Hj). unfold entry in He.
      by rewrite Hrow, Hrow' in He.
    + by rewrite !lookup_ge_None_2 by lia.
  - by rewrite !lookup_ge_None_2 by lia.
Qed.

Section Companion.
Context {T C : Type}.
Context {ST : Scalar T} {RT : RealScalar T}.
Context {SC : Scalar C} {CT : ComplexScalar T C} {ET : EigenSolver T C}.

Lemma mset_entry n (m : list (list T)) i j (x : T) :
  square n m -> 0 <= i < n -> 0 <= j < n ->
  exists m',
    mset m i j x = Ok m' /\ square n m' /\
    forall r c : nat,
      Z.of_nat r < n -> Z.of_nat c < n ->
      entry m' r c
      = if decide (Z.of_nat r = i /\ Z.of_nat c = j) then Some x
        else entry m r c.
Proof.
  intros [Hl Hr] Hi Hj. unfold mset, vset.
  destruct (vget_in_range m i) as (row & -> & Hrow); [lia|]. cbn [bind].
  assert (Z.of_nat (length row) = n) as Hlr.
  { by apply (proj1 (Forall_lookup _ m) Hr (Z.to_nat i)). }
  rewrite vupd_in_range by lia. cbn [bind].
  rewrite vupd_in_range by lia.
  eexists. split; [done|]. split.
  { split; [by rewrite length_alter|].
    apply Forall_alter; [done|]. intros row' _ _.
    by rewrite length_alter. }
  intros r c Hr' Hc'. rewrite entry_alter.
  destruct (decide (r = Z.to_nat i /\ _)) as [[-> _]|Hne].
  - destruct (decide (c = Z.to_nat j)) as [->|Hcj].
    + rewrite list_lookup_alter_eq.
      destruct (lookup_lt_is_Some_2 row (Z.to_nat j)) as [y ->]; [lia|].
      simpl. by destruct (decide _); [|lia].
    + rewrite list_lookup_alter_ne by done. unfold entry. rewrite Hrow.
      by destruct (decide _); [lia|].
  - by destruct (decide _); [lia|].
Qed.

Lemma companion_square (l : list T) :
  square (Z.of_nat (length l - 1)) (companion l).
Proof.
  unfold companion. split.
  - by rewrite length_fmap, length_seq.
  - apply Forall_fmap, Forall_forall. intros r _. simpl.
    by rewrite length_fmap, length_seq.
Qed.

Lemma companion_entry (l : list T) (r j : nat) :
  (r < length l - 1)%nat -> (j < length l - 1)%nat ->
  entry (companion l) r j
  = Some (if (j =? length l - 1 - 1)%nat
          then (- at0 l (length l - 1 - r))%S
          else if (r =? j + 1)%nat then r_of_Q 1 else 0%S).
Proof.
  intros Hr Hj. unfold entry, companion.
  rewrite list_lookup_fmap, lookup_seq_lt by done. simpl.
  by rewrite list_lookup_fmap, lookup_seq_lt by done.
Qed.

Lemma companion_loops (p : Poly T) :
  wf p -> 1 <= deg_ p ->
  exists m1 m2,
    for_loop 1 (deg_ p + 1)
      (fun i m =>
         c <- pget p (to_size_t (deg_ p - i + 1)) ;;
         mset m (i - 1) (deg_ p - 1) (- c)%S)
      (replicate (Z.to_nat (deg_ p)) (replicate (Z.to_nat (deg_ p)) 0%S))
    = Ok m1 /\
    for_loop 0 (to_size_t (deg_ p - 1))
      (fun i m => mset m (i + 1) i (r_of_Q 1)) m1
    = Ok m2 /\
    m2 = companion (coef_ p).
Proof.
  intros W Hd. pose proof (wf_length _ W) as L. pose proof W as [_ D].
  set (n := deg_ p) in *.
  set (l := coef_ p) in *.
  destruct (for_loop_inv
    (fun i (m : list (list T)) =>
       square n m /\
       forall r j : nat, Z.of_nat r < n -> Z.of_nat j < n ->
         entry m r j
         = Some (if (Z.of_nat j =? n - 1) && (Z.of_nat r <? i - 1)
                 then (- at0 l (Z.to_nat (n - Z.of_nat r)))%S else 0%S))
    (fun i m =>
       c <- pget p (to_size_t (n - i + 1)) ;;
       mset m (i - 1) (n - 1) (- c)%S)
    1 (n + 1) (replicate (Z.to_nat n) (replicate (Z.to_nat n) 0%S)))
    as (m1 & E1 & Sq1 & H1).
  - lia.
  - split.
    + split; [rewrite length_replicate; lia|].
      apply Forall_replicate. rewrite length_replicate. lia.
    + intros r j Hr Hj. unfold entry.
      rewrite lookup_replicate_2 by lia. rewrite lookup_replicate_2 by lia.
      replace (Z.of_nat r <? 1 - 1) with false
        by (symmetry; apply Z.ltb_ge; lia).
      by rewrite andb_false_r.
  - intros i m Hi [Sq Hm]. unfold pget. rewrite to_size_t_nonneg by lia.
    rewrite vget_at0 by (fold l; lia). cbn [bind].
    destruct (mset_entry n m (i - 1) (n - 1)
                (- at0 (coef_ p) (Z.to_nat (n - i + 1)))%S Sq)
      as (m' & -> & Sq' & Hm'); [lia|lia|].
    eexists. split; [done|]. split; [done|].
    intros r j Hr Hj. rewrite Hm' by done.
    destruct (decide (Z.of_nat r = i - 1 /\ Z.of_nat j = n - 1))
      as [[Er Ej]|Hne].
    + replace (Z.of_nat j =? n - 1) with true
        by (symmetry; apply Z.eqb_eq; lia).
      replace (Z.of_nat r <? i + 1 - 1) with true
        by (symmetry; apply Z.ltb_lt; lia).
      simpl. do 3 f_equal. lia.
    + rewrite Hm by done. f_equal.
      destruct (Z.eqb_spec (Z.of_nat j) (n - 1)); simpl; [|done].
      destruct (Z.ltb_spec (Z.of_nat r) (i - 1)),
               (Z.ltb_spec (Z.of_nat r) (i + 1 - 1)); done || lia.
  - destruct (for_loop_inv
      (fun i (m : list (list T)) =>
         square n m /\
         forall r j : nat, Z.of_nat r < n -> Z.of_nat j < n ->
           entry m r j
           = Some (if Z.of_nat j =? n - 1
                   then (- at0 l (Z.to_nat (n - Z.of_nat r)))%S
                   else if (Z.of_nat r =? Z.of_nat j + 1)
                           && (Z.of_nat j <? i)
                   then r_of_Q 1 else 0%S))
      (fun i m => mset m (i + 1) i (r_of_Q 1))
      0 (to_size_t (n - 1)) m1) as (m2 & E2 & Sq2 & H2).
    + rewrite to_size_t_nonneg; lia.
    + split; [done|]. intros r j Hr Hj. rewrite H1 by done. f_equal.
      replace (Z.of_nat r <? n + 1 - 1) with true
        by (symmetry; apply Z.ltb_lt; lia).
      rewrite andb_true_r.
      destruct (Z.of_nat j =? n - 1); [done|].
      replace (Z.of_nat j <? 0) with false
        by (symmetry; apply Z.ltb_ge; lia).
      by rewrite andb_false_r.
    + intros i m Hi [Sq Hm]. rewrite to_size_t_nonneg in Hi by lia.
      destruct (mset_entry n m (i + 1) i (r_of_Q 1) Sq)
        as (m' & -> & Sq' & Hm'); [lia|lia|].
      eexists. split; [done|]. split; [done|].
      intros r j Hr Hj. rewrite Hm' by done.
      destruct (decide (Z.of_nat r = i + 1 /\ Z.of_nat j = i))
        as [[Er Ej]|Hne].
      * replace (Z.of_nat j =? n - 1) with false
          by (symmetry; apply Z.eqb_neq; lia).
        replace (Z.of_nat r =? Z.of_nat j + 1) with true
          by (symmetry; apply Z.eqb_eq; lia).
        replace (Z.of_nat j <? i + 1) with true
          by (symmetry; apply Z.ltb_lt; lia).
        done.
      * rewrite Hm by done. f_equal.
        destruct (Z.of_nat j =? n - 1); [done|].
        destruct (Z.eqb_spec (Z.of_nat r) (Z.of_nat j + 1)); simpl; [|done].
        destruct (Z.ltb_spec (Z.of_nat j) i),
                 (Z.ltb_spec (Z.of_nat j) (i + 1)); done || lia.
    + exists m1, m2. split; [done|]. split; [done|].
      rewrite to_size_t_nonneg in H2 by lia.
      apply (square_ext n); [done| |].
      * replace n with (Z.of_nat (length l - 1)) by lia.
        apply companion_square.
      * intros r j Hr Hj. rewrite H2 by done.
        rewrite companion_entry by lia. f_equal.
        destruct (Z.eqb_spec (Z.of_nat j) (n - 1)) as [Ej|Ej].
        -- replace (j =? length l - 1 - 1)%nat with true
             by (symmetry; apply Nat.eqb_eq; lia).
           do 2 f_equal. lia.
        -- replace (j =? length l - 1 - 1)%nat with false
             by (symmetry; apply Nat.eqb_neq; lia).
           replace (Z.of_nat j <? n - 1) with true
             by (symmetry; apply Z.ltb_lt; lia).
           rewrite andb_true_r.
           destruct (Z.eqb_spec (Z.of_nat r) (Z.of_nat j + 1)),
                    (Nat.eqb_spec r (j + 1)); done || lia.
Qed.

(** X29: on a well-formed polynomial of degree [n >= 1],
    [solve_with_eigenvalues] completes: it divides the polynomial by its
    leading coefficient unless that one compares equal to 1 or to 0,
    passes to [eigenvalues()] the [n x n] companion matrix of the result
    (the opposites of its coefficients in the last column, ones below the
    diagonal, zeros elsewhere), and returns every eigenvalue with
    multiplicity 1, one of modulus below [EPS] being replaced by 0. *)
Theorem solve_with_eigenvalues_companion (poly : Poly T) :
  wf poly -> 1 <= deg_ poly ->
  solve_with_eigenvalues (C := C) poly
  = Ok ((fun r => (1, if r_ltb (c_abs r) EPS then 0%S else r))
          <$> eigenvalues
                (companion
                   (coef_ (if s_eqb (at0 (coef_ poly) 0) (r_of_Q 1)
                           then poly
                           else if s_eqb (at0 (coef_ poly) 0) 0%S
                           then poly
                           else scaled_down (at0 (coef_ poly) 0) poly)))).
Proof.
  intros W Hd. pose proof (wf_length _ W) as L. pose proof W as [_ D].
  unfold solve_with_eigenvalues.
  change (pget poly 0) with (vget (coef_ poly) 0).
  rewrite vget_at0 by lia.
  cbn [bind]. change (Z.to_nat 0) with 0%nat.
  set (p' := if s_eqb (at0 (coef_ poly) 0) (r_of_Q 1) then poly
             else if s_eqb (at0 (coef_ poly) 0) 0%S then poly
             else scaled_down (at0 (coef_ poly) 0) poly).
  assert ((if negb (s_eqb (at0 (coef_ poly) 0) (r_of_Q 1))
           then pa <- normalize poly ;; Ok (fst pa)
           else Ok poly) = Ok p') as ->.
  { unfold p'. destruct (s_eqb (at0 (coef_ poly) 0) (r_of_Q 1)); [done|].
    simpl. by rewrite normalize_closed by done. }
  cbn [bind].
  assert (wf p' /\ deg_ p' = deg_ poly) as [W' D'].
  { unfold p'. destruct (s_eqb _ (r_of_Q 1)); [done|].
    destruct (s_eqb _ 0%S); [done|]. split; [|done].
    apply wf_intro; simpl; rewrite ?length_fmap; lia. }
  unfold deg.
  destruct (companion_loops p' W') as (m1 & m2 & -> & E2 & ->); [lia|].
  cbn [bind]. rewrite E2. done.
Qed.

End Companion.

(** ** The numerical strategies at concrete polynomials *)

Lemma cpoly_wf (l : list Q) : l <> [] -> wf (cpoly l).
Proof.
  intros Hl. apply wf_Poly_of_vector. by destruct l.
Defined.

Lemma qx_ltb_irrefl (a : Qx) : qx_ltb a a = false.
Proof. destruct a as [a|]; [apply (qc_ltb_irrefl a)|done]. Qed.

Lemma qx_ltb_step (a b c : Qx) :
  qx_ltb a b = true -> qx_ltb a c = false -> qx_ltb b c = false.
Proof.
  destruct a as [a|], b as [b|], c as [c|]; try done.
  apply (qc_ltb_step a b c).
Qed.

(** X27 at [x^2 + 3x - 4] with complex coefficients. *)
Lemma upper_bound_complex_max_witness :
  (deg_ (cpoly [1; 3; -4]%Q) = 0 ->
   upper_bound (T := Qx) (cpoly [1; 3; -4]%Q) = OutOfRange /\
   lower_bound (T := Qx) (cpoly [1; 3; -4]%Q) = OutOfRange) /\
  (1 <= deg_ (cpoly [1; 3; -4]%Q) ->
   exists m : Qx,
     upper_bound (cpoly [1; 3; -4]%Q) = Ok (s_of_Z 1 + m)%S /\
     lower_bound (cpoly [1; 3; -4]%Q) = Ok (s_of_Z 1 / (s_of_Z 1 + m))%S /\
     (exists i : nat,
        1 <= Z.of_nat i <= deg_ (cpoly [1; 3; -4]%Q) /\
        m = c_abs (at0 (coef_ (cpoly [1; 3; -4]%Q)) i
                   / at0 (coef_ (cpoly [1; 3; -4]%Q)) 0)%S) /\
     forall i : nat,
       1 <= Z.of_nat i <= deg_ (cpoly [1; 3; -4]%Q) ->
       r_ltb m (c_abs (at0 (coef_ (cpoly [1; 3; -4]%Q)) i
                       / at0 (coef_ (cpoly [1; 3; -4]%Q)) 0)%S) = false).
Proof.
  apply (upper_bound_complex_max (T := Qx) (C := Cx)).
  - apply qx_ltb_irrefl.
  - apply qx_ltb_step.
  - by apply cpoly_wf.
Defined.


(** X29 at [2x^4 - 2]. *)
Lemma solve_with_eigenvalues_companion_witness :
  solve_with_eigenvalues (C := Cq) (qpoly [2; 0; 0; 0; -2])
  = Ok ((fun r => (1, if r_ltb (c_abs r) EPS then 0%S else r))
          <$> eigenvalues
                (companion
                   (coef_
                      (if s_eqb (at0 (coef_ (qpoly [2; 0; 0; 0; -2])) 0)
                            (r_of_Q 1)
                       then qpoly [2; 0; 0; 0; -2]
                       else if s_eqb (at0 (coef_ (qpoly [2; 0; 0; 0; -2])) 0)
                                 0%S
                       then qpoly [2; 0; 0; 0; -2]
                       else scaled_down
                              (at0 (coef_ (qpoly [2; 0; 0; 0; -2])) 0)
                              (qpoly [2; 0; 0; 0; -2]))))).
Proof.
  apply (solve_with_eigenvalues_companion (T := Qc) (C := Cq)).
  - by apply qpoly_wf.
  - vm_compute. discriminate.
Defined.

(** ** The integral of a derivative *)

Section IntegralOfDerivative.
Context {T : Type} `{EF : ExactField T}.
Add Field Tfield_ftc : ef_field.

Hypothesis of_Z_nonzero : forall n : Z, 0 < n -> (s_of_Z n : T) <> 0%S.

(** The antiderivative of the derivative is the polynomial without its
    constant term. *)
Lemma antider_der_pval (p : Poly T) (x : T) :
  wf p ->
  exists d F,
    der p = Ok d /\ wf d /\ antider d = Ok F /\ wf F /\
    pval (coef_ F) x
    = (pval (coef_ p) x - at0 (coef_ p) (length (coef_ p) - 1))%S.
Proof.
  intros W. pose proof (wf_length _ W) as L. pose proof W as [_ D].
  destruct (der_spec p W) as (d & Ed & Wd & Ld & Hd).
  destruct (antider_spec d Wd) as (F & EF' & WF & LF & HF).
  pose proof Wd as [_ Dd].
  exists d, F. repeat (split; [done|]).
  destruct (decide (length (coef_ p) = 1)%nat) as [L1|L1].
  - (* a constant *)
    assert (coef_ F = [0%S; 0%S]) as ->.
    { apply at0_ext; [simpl; lia|]. intros k Hk. rewrite HF, Hd.
      assert (k = 0 \/ k = 1)%nat as [-> | ->] by (simpl in Hk; lia);
        repeat destruct (decide _); try lia; done. }
    destruct (coef_ p) as [|c [|c' l]]; simpl in *; try lia. change (at0 [c] 0) with c. ring.
  - assert (coef_ F
            = alter (fun t => t + - at0 (coef_ p) (length (coef_ p) - 1))%S
                (length (coef_ p) - 1)%nat (coef_ p)) as ->.
    { apply at0_ext; [rewrite length_alter; lia|]. intros k Hk.
      rewrite at0_alter by lia. rewrite HF.
      destruct (decide (length (coef_ p) = 2)%nat) as [L2|L2].
      - destruct (decide (length (coef_ d) = 1)%nat); [|lia].
        rewrite Hd. destruct (decide (length (coef_ p) = 2)%nat); [|lia].
        destruct (decide (length (coef_ p) - 1 = k)%nat) as [<-|].
        + destruct (decide (_ = 0)%nat); [lia|]. ring.
        + destruct (decide (k = 0)%nat) as [->|]; [|lia].
          by destruct (decide (0 = 0)%nat).
      - destruct (decide (length (coef_ d) = 1)%nat); [lia|].
        destruct (decide (length (coef_ p) - 1 = k)%nat) as [<-|].
        + destruct (decide (_ < length (coef_ d))%nat); [lia|]. ring.
        + destruct (decide (k < length (coef_ d))%nat); [|lia].
          rewrite Hd. destruct (decide (length (coef_ p) = 2)%nat); [lia|].
          destruct (decide (k < length (coef_ p) - 1)%nat); [|lia].
          replace (deg_ d - Z.of_nat k + 1) with (deg_ p - Z.of_nat k)
            by lia.
          field. apply of_Z_nonzero. lia. }
    rewrite pval_add_last by lia. ring.
Qed.

(** X30: over an exact field of characteristic 0, the integral of the
    derivative of a well-formed polynomial from [a] to [b] is the
    difference of the values of the polynomial at [b] and at [a]. *)
Theorem integral_of_der (p : Poly T) (a b : T) :
  wf p ->
  exists d i va vb,
    der p = Ok d /\ integral d a b = Ok i /\
    At p a = Ok va /\ At p b = Ok vb /\ i = (vb - va)%S.
Proof.
  intros W.
  destruct (antider_der_pval p a W) as (d & F & Ed & Wd & EF' & WF & Va).
  destruct (antider_der_pval p b W) as (d' & F' & Ed' & _ & EF'' & _ & Vb).
  rewrite Ed in Ed'. injection Ed' as <-.
  rewrite EF' in EF''. injection EF'' as <-.
  exists d, (pval (coef_ F) b - pval (coef_ F) a)%S,
    (pval (coef_ p) a), (pval (coef_ p) b).
  split; [done|]. unfold integral. rewrite EF'. cbn [bind].
  rewrite !At_value by done. cbn [bind].
  split; [done|]. split; [done|]. split; [done|].
  rewrite Va, Vb. ring.
Qed.

End IntegralOfDerivative.

(** X30 at [x^3 + 2x + 5] from 1 to 2. *)
Lemma integral_of_der_witness :
  exists d i va vb,
    der (qpoly [1; 0; 2; 5]) = Ok d /\
    integral d (Q2Qc 1) (Q2Qc 2) = Ok i /\
    At (qpoly [1; 0; 2; 5]) (Q2Qc 1) = Ok va /\
    At (qpoly [1; 0; 2; 5]) (Q2Qc 2) = Ok vb /\ i = (vb - va)%S.
Proof.
  apply (integral_of_der (T := Qc)).
  - intros n Hn. by apply Qc_of_Z_nonzero.
  - by apply qpoly_wf.
Defined.

(** ** The analytic integrals *)

Section PartialFractions.
Context {T C : Type}.
Context {ST : Scalar T} {RT : RealScalar T}.
Context {SC : Scalar C} {CT : ComplexScalar T C} {ET : EigenSolver T C}.
Context {IT : IntegralTools T C}.

Lemma multiplicity_sum_nonneg (rs : list (Z * C)) :
  Forall (fun root => 0 <= fst root) rs -> 0 <= multiplicity_sum rs.
Proof.
  induction 1 as [|r rs Hr _ IH]; [done|].
  rewrite multiplicity_sum_cons. lia.
Qed.

Lemma multiplicity_sum_take_S (rs : list (Z * C)) n root :
  rs !! n = Some root ->
  multiplicity_sum (take (S n) rs)
  = multiplicity_sum (take n rs) + fst root.
Proof.
  intros Hn. rewrite (take_S_r _ _ _ Hn), multiplicity_sum_app.
  rewrite multiplicity_sum_cons. unfold multiplicity_sum. simpl. lia.
Qed.

Lemma multiplicity_sum_take_le (rs : list (Z * C)) n :
  Forall (fun root => 0 <= fst root) rs ->
  multiplicity_sum (take n rs) <= multiplicity_sum rs.
Proof.
  intros Hrs. rewrite <- (take_drop n rs) at 2.
  rewrite multiplicity_sum_app.
  pose proof (multiplicity_sum_nonneg (drop n rs)) as Hd.
  specialize (Hd ltac:(by apply Forall_drop)). lia.
Qed.

(** The last loops of [analytic_integral2] complete when
    [frac_decomp_matrix] has given a coefficient for every root and
    power. *)
Lemma fraction_sums_ok (rs : list (Z * C)) (res1 res2 : list C)
    (b1 b2 a0 : C) (from to : T) (l r : C) :
  Forall (fun root => 0 <= fst root) rs ->
  multiplicity_sum rs <= Z.of_nat (length res1) ->
  multiplicity_sum rs <= Z.of_nat (length res2) ->
  exists v, fraction_sums rs res1 res2 b1 b2 a0 from to l r = Ok v.
Proof.
  intros Hrs H1 H2. unfold fraction_sums.
  match goal with
  | |- context [for_loop ?lo ?hi ?body ?s] =>
      destruct (for_loop_inv
        (fun n (st : C * C * Z) =>
           snd st = multiplicity_sum (take (Z.to_nat n) rs))
        body lo hi s) as (st & -> & _)
  end.
  - lia.
  - done.
  - intros n [[l0 r0] j0] Hn Hj. cbn [snd] in Hj.
    destruct (vget_in_range rs n) as (root & -> & Hroot); [lia|].
    cbn [bind].
    assert (0 <= fst root) as Hm.
    { rewrite Forall_lookup in Hrs. by apply (Hrs _ _ Hroot). }
    pose proof (multiplicity_sum_take_S rs _ _ Hroot) as HS.
    pose proof (multiplicity_sum_take_le rs (S (Z.to_nat n)) Hrs) as Hle.
    pose proof (multiplicity_sum_nonneg (take (Z.to_nat n) rs)) as H0.
    specialize (H0 ltac:(by apply Forall_take)).
    match goal with
    | |- context [for_loop ?lo ?hi ?body ?s] =>
        destruct (for_loop_inv
          (fun k (st : C * C * Z) => snd st = j0 + (k - 1))
          body lo hi s) as (st & -> & Hst)
    end.
    + lia.
    + cbn [snd]. lia.
    + intros k [[l1 r1] j1] Hk Hj1. cbn [snd] in Hj1.
      destruct (vget_in_range res1 j1) as (x1 & -> & _); [lia|].
      destruct (vget_in_range res2 j1) as (x2 & -> & _); [lia|].
      cbn [bind]. eexists. split; [done|]. cbn [snd]. lia.
    + exists st. split; [done|].
      replace (Z.to_nat (n + 1)) with (S (Z.to_nat n)) by lia. lia.
  - cbn [bind]. by eexists.
Qed.

End PartialFractions.

(** C8 on the line with the weights 1 and 2, whose coordinates are both
    [2t / (t + 1)]: whatever the functions of [integral.h] are,
    [analytic_integral1] divides the derivative of the numerator, of degree
    0, by the denominator, of degree 1, and [operator/] throws, before any
    of those functions is called. [analytic_integral2] tests the degrees
    before each division and returns a value, given one coefficient of
    [frac_decomp_matrix] for every root and power. *)
Theorem analytic_integrals_disagree (IT : IntegralTools Qx Cx) :
  exists c,
    weighted_line = Ok c /\
    analytic_integral1 c 1 (r_of_Q 0) (r_of_Q 1)
    = Throw "deg lhs poly < deg rhs poly. Operator /" /\
    ((forall num den rs,
        multiplicity_sum rs
        <= Z.of_nat (length (frac_decomp_matrix num den rs))) ->
     exists v, analytic_integral2 c 1 = Ok v).
Proof.
  eexists. split; [vm_compute; reflexivity|].
  split; [vm_compute; reflexivity|].
  intros Hlen. unfold analytic_integral2.
  match goal with
  | |- context [for_loop 0 ?n ?body ?s] =>
      change (for_loop 0 n body s) with (bind (body 0 s) (fun s' => Ok s'))
  end.
  cbv beta iota.
  remember (integral2_reduce _ _ _ _ _) as red eqn:E.
  vm_compute in E. subst red. cbn [bind].
  match goal with
  | |- context [fraction_sums ?rs ?r1 ?r2 ?b1 ?b2 ?a0 ?f ?t ?l ?r] =>
      destruct (fraction_sums_ok (T := Qx) (C := Cx) (IT := IT)
                  rs r1 r2 b1 b2 a0 f t l r) as (v & ->)
  end.
  - repeat constructor. simpl. lia.
  - apply Hlen.
  - apply Hlen.
  - cbn [bind]. by eexists.
Qed.

(** C8 on the same line with stand-ins for the functions of
    [integral.h]. *)
Lemma analytic_integrals_disagree_witness :
  exists c,
    weighted_line = Ok c /\
    analytic_integral1 (IT := Qx_IntegralTools) c 1 (r_of_Q 0) (r_of_Q 1)
    = Throw "deg lhs poly < deg rhs poly. Operator /" /\
    exists v, analytic_integral2 (IT := Qx_IntegralTools) c 1 = Ok v.
Proof.
  destruct (analytic_integrals_disagree Qx_IntegralTools)
    as (c & Ec & E1 & E2).
  exists c. split; [exact Ec|]. split; [exact E1|]. apply E2.
  intros num den rs. cbn [frac_decomp_matrix Qx_IntegralTools].
  rewrite length_replicate. lia.
Defined.

(** ** The unguarded division of the first analytic integral *)

Section FirstIntegral.
Context {T C : Type}.
Context {ST : Scalar T} {RT : RealScalar T}.
Context {SC : Scalar C} {CT : ComplexScalar T C} {ET : EigenSolver T C}.
Context {IT : IntegralTools T C}.

Lemma poly_divmod_lt (a b : Poly T) :
  deg_ a < deg_ b ->
  poly_divmod a b = Throw "deg lhs poly < deg rhs poly. Operator /".
Proof.
  intros Hlt. unfold poly_divmod, deg.
  by replace (deg_ a <? deg_ b) with true by (symmetry; apply Z.ltb_lt; lia).
Qed.

Lemma der_deg (p : Poly T) :
  wf p -> exists d, der p = Ok d /\ wf d /\ deg_ d = Z.max 1 (deg_ p) - 1.
Proof.
  intros W. destruct (der_spec p W) as (d & E & Wd & Ld & _).
  exists d. split; [done|]. split; [done|]. destruct Wd as [_ D]. lia.
Qed.

(** X31: [analytic_integral1] divides the numerator of [y] and the
    derivative of the numerator of [x] by the denominator without a test
    of the degrees. On a curve whose first segment meets the interval of
    integration and has a denominator of degree at least 1 and not below
    the degree of the numerator of [x], with well-formed polynomials and
    the roots of the denominator found, it throws the exception of
    [operator/], whatever the functions of [integral.h] are. *)
Theorem analytic_integral1_throws (c : NURBS T) (type : Z)
    (t0 t1 from to : T) (k0 k1 : Z) (nums : list (Poly T))
    (den p_x p_y : Poly T) (rs : list (Z * C)) :
  0 < N_segments c ->
  0 <= k0 -> ks c !! 0%nat = Some k0 ->
  0 <= k1 -> ks c !! 1%nat = Some k1 ->
  knots c !! Z.to_nat k0 = Some from -> knots c !! Z.to_nat k1 = Some to ->
  r_ltb t1 from = false -> r_ltb to t0 = false ->
  coefs c !! 0%nat = Some (nums, den) ->
  nums !! 0%nat = Some p_x -> nums !! 1%nat = Some p_y ->
  wf den -> wf p_x -> wf p_y ->
  1 <= deg_ den -> deg_ p_x <= deg_ den ->
  solve den type = Ok rs ->
  analytic_integral1 c type t0 t1
  = Throw "deg lhs poly < deg rhs poly. Operator /".
Proof.
  intros HN Hk0 Eks0 Hk1 Eks1 Efrom Eto Hbreak Hcont Eseg Ex Ey
    Wden Wx Wy Hden Hx Esolve.
  unfold analytic_integral1, for_loop.
  destruct (Z.to_nat (N_segments c - 0)) as [|n] eqn:En; [lia|].
  cbn [for_steps].
  rewrite (vget_lookup (ks c) 0 k0) by done. cbn [bind].
  rewrite (vget_lookup (knots c) k0 from) by done. cbn [bind].
  change (0 + 1) with 1.
  rewrite (vget_lookup (ks c) 1 k1) by done. cbn [bind].
  rewrite (vget_lookup (knots c) k1 to) by done. cbn [bind].
  rewrite Hbreak, Hcont. cbv zeta.
  rewrite (vget_lookup (coefs c) 0 (nums, den)) by done.
  cbn [bind fst snd].
  rewrite (vget_lookup nums 0 p_x) by done. cbn [bind].
  rewrite (vget_lookup nums 1 p_y) by done. cbn [bind].
  destruct (der_deg p_x Wx) as (dx & -> & Wdx & Ddx). cbn [bind].
  rewrite Esolve. cbn [bind].
  destruct (normalize_wf den Wden) as (den' & a & En' & Wden').
  rewrite En'. cbn [bind fst snd].
  apply normalize_deg in En' as [Dden' _].
  destruct (Z_lt_le_dec (deg_ p_y) (deg_ den')) as [Hlt|Hge].
  - by rewrite (poly_divmod_lt p_y den') by done.
  - destruct (divmod_wf p_y den') as (q & r & -> & _);
      [done|done|unfold deg; lia|].
    cbn [bind]. by rewrite (poly_divmod_lt dx den') by lia.
Qed.

End FirstIntegral.

(** X31 on the line with the weights 1 and 2. *)
Lemma analytic_integral1_throws_witness :
  exists c,
    weighted_line = Ok c /\
    analytic_integral1 (IT := Qx_IntegralTools) c 1 (r_of_Q 0) (r_of_Q 1)
    = Throw "deg lhs poly < deg rhs poly. Operator /".
Proof.
  eexists. split; [vm_compute; reflexivity|].
  eapply (analytic_integral1_throws (T := Qx) (C := Cx)
            (IT := Qx_IntegralTools) _ 1 _ _ _ _ 1 2);
    first [vm_compute; reflexivity | vm_compute; discriminate | by split].
Defined.
